(** * cli-todo: the task collection, its queries, undo and persistence

    A shallow embedding of the Go sources of the command-line todo manager
    (models.go: the collection and its operations, listing, saving and
    loading; cli.go: the interactive loop and its undo), and the properties
    that its specification states of them. *)

From Stdlib Require Import ZArith Lia Bool Ascii String.
From Stdlib Require Import Sorting.Sorted Sorting.Permutation.
From stdpp Require Import base option list sorting gmap strings.

#[local] Open Scope string_scope.
#[local] Open Scope list_scope.
#[local] Open Scope Z_scope.

(** ** Go values *)

(** Go's [int] on the 64-bit platforms the tool is built for: a value in
    [[-2^63, 2^63)]; arithmetic wraps around. *)
Definition int_min : Z := - 2 ^ 63.
Definition int_max : Z := 2 ^ 63 - 1.
Definition wrap (z : Z) : Z := (z + 2 ^ 63) mod 2 ^ 64 - 2 ^ 63.
Definition in_int (z : Z) : Prop := int_min <= z <= int_max.

(** A Go slice: [None] is the nil slice, [Some l] a slice with the elements
    [l] (possibly none).  The two differ only in how they are serialised. *)
Definition slice (A : Type) : Type := option (list A).

Definition elems {A} (s : slice A) : list A := default [] s.

(** [append(s, xs...)]: appending nothing to nil gives nil back. *)
Definition append {A} (s : slice A) (xs : list A) : slice A :=
  match s, xs with
  | None, [] => None
  | _, _ => Some (elems s ++ xs)
  end.

(** [s[i] = f(s[i])], an update in place. *)
Definition modify {A} (i : nat) (f : A -> A) (s : slice A) : slice A :=
  match s with
  | None => None
  | Some l => Some (list_alter f i l)
  end.

(** [strings.ToLower] on the bytes of a string: the letters [A]-[Z] are
    mapped to [a]-[z]; every other byte is kept (for text outside ASCII
    Go lowers whole runes, which is not modelled). *)
Definition lower_byte (c : ascii) : ascii :=
  let n := N_of_ascii c in
  if ((65 <=? n) && (n <=? 90))%N then ascii_of_N (n + 32) else c.

Fixpoint ToLower (s : string) : string :=
  match s with
  | EmptyString => EmptyString
  | String c r => String (lower_byte c) (ToLower r)
  end.

(** [strings.Contains s sub]: [sub] occurs in [s] at some offset. *)
Fixpoint Contains (s sub : string) : bool :=
  String.prefix sub s ||
  match s with
  | EmptyString => false
  | String _ r => Contains r sub
  end.

(** ** Timestamps

    A [time.Time] is modelled by the calendar reading and the zone offset
    that its RFC 3339 text carries; the instant it denotes is computed from
    them.  (The name of its location and the reading of the monotonic clock
    that [time.Now] attaches, neither of which the program looks at or
    saves, are left out.) *)
Record Time := mkTime {
  year : Z; month : Z; day : Z;
  hour : Z; minute : Z; second : Z; nanosecond : Z;
  zone : Z  (* offset of the zone, in minutes east of UTC *)
}.

#[export] Instance Time_eq_dec : EqDecision Time.
Proof. solve_decision. Defined.

(** Days between 1970-01-01 and a date of the proleptic Gregorian calendar. *)
Definition days_from_civil (y m d : Z) : Z :=
  let y' := if m <=? 2 then y - 1 else y in
  let era := y' / 400 in
  let yoe := y' - era * 400 in
  let doy := (153 * (if 2 <? m then m - 3 else m + 9) + 2) / 5 + d - 1 in
  let doe := yoe * 365 + yoe / 4 - yoe / 100 + doy in
  era * 146097 + doe - 719468.

(** Nanoseconds since the Unix epoch. *)
Definition unixNano (t : Time) : Z :=
  (days_from_civil (year t) (month t) (day t) * 86400
   + hour t * 3600 + minute t * 60 + second t - zone t * 60) * 1000000000
  + nanosecond t.

Definition Before (t u : Time) : bool := unixNano t <? unixNano u.
Definition After (t u : Time) : bool := unixNano u <? unixNano t.

(** [time.Parse("2006-01-02", ...)] of a well-formed date: midnight UTC. *)
Definition date (y m d : Z) : Time := mkTime y m d 0 0 0 0 0.

(** ** The data model (models.go) *)

Definition PriorityLevel := string.

Definition PriorityHigh : PriorityLevel := "high".
Definition PriorityMedium : PriorityLevel := "medium".
Definition PriorityLow : PriorityLevel := "low".

Definition priorityMap : gmap string PriorityLevel :=
  <["high" := PriorityHigh]> (<["medium" := PriorityMedium]>
    (<["low" := PriorityLow]> ∅)).

Record Todo := mkTodo {
  ID : Z;
  Task : string;
  Completed : bool;
  CreatedAt : Time;
  Priority : PriorityLevel;
  DueDate : option Time;
  Tags : slice string
}.

#[export] Instance Todo_eq_dec : EqDecision Todo.
Proof. solve_decision. Defined.

Record TodoList := mkTodoList {
  Todos : slice Todo;
  NextID : Z
}.

#[export] Instance TodoList_eq_dec : EqDecision TodoList.
Proof. solve_decision. Defined.

(** The records of a collection, in order. *)
Definition todos (tl : TodoList) : list Todo := elems (Todos tl).

Definition set_Task (s : string) (t : Todo) : Todo :=
  mkTodo (ID t) s (Completed t) (CreatedAt t) (Priority t) (DueDate t) (Tags t).

Definition set_Completed (b : bool) (t : Todo) : Todo :=
  mkTodo (ID t) (Task t) b (CreatedAt t) (Priority t) (DueDate t) (Tags t).

(** The errors of the operating system and of [encoding/json] that the
    program passes on. *)
Inductive os_error :=
  | ErrNotExist                (* the one for which [os.IsNotExist] holds *)
  | ErrPermission
  | ErrOther (errno : Z).

Inductive json_error :=
  | SyntaxError                          (* the text is not JSON *)
  | UnmarshalTypeError (field : string)  (* a value of the wrong kind or size *)
  | TimeError (field : string)           (* [Time.UnmarshalJSON] fails *)
  | MarshalerError.                      (* [Time.MarshalJSON] fails *)

Inductive error :=
  | ErrNotFound (id : Z)          (* "todo with ID %d not found" *)
  | ErrSave (e : json_error)      (* "failed to save todos: %w" *)
  | ErrSaveFile (e : os_error)    (* "failed to save todos to file: %w" *)
  | ErrLoad (e : os_error)        (* "failed to load todos: %w" *)
  | ErrParse (e : json_error).    (* "failed to parse todos: %w" *)

Definition NewTodoList : TodoList := mkTodoList (Some []) 1.

Definition isValidPriority (p : PriorityLevel) : bool :=
  bool_decide (p = PriorityHigh) || bool_decide (p = PriorityMedium)
  || bool_decide (p = PriorityLow).

Definition toCanonicalPriority (p : PriorityLevel) : PriorityLevel :=
  match priorityMap !! ToLower p with
  | Some canonical => canonical
  | None => ""
  end.

(** [Add]; [now] is the reading of [time.Now()]. *)
Definition Add (task : string) (priority : PriorityLevel)
    (dueDate : option Time) (tags : slice string) (now : Time)
    (tl : TodoList) : TodoList :=
  let canonicalPriority := toCanonicalPriority priority in
  let canonicalPriority :=
    if isValidPriority canonicalPriority then canonicalPriority
    else PriorityMedium in
  let todo := mkTodo (NextID tl) task false now canonicalPriority dueDate tags in
  mkTodoList (append (Todos tl) [todo]) (wrap (NextID tl + 1)).

(** The index and the record of the first record whose identifier is [id]:
    where the loops [for i := range tl.Todos] stop. *)
Definition find_id (id : Z) (l : list Todo) : option (nat * Todo) :=
  list_find (λ t, ID t = id) l.

Definition Complete (id : Z) (tl : TodoList) : TodoList * option error :=
  match find_id id (todos tl) with
  | Some (i, t) =>
      (mkTodoList (modify i (set_Completed true) (Todos tl)) (NextID tl), None)
  | None => (tl, Some (ErrNotFound id))
  end.

Definition Uncomplete (id : Z) (tl : TodoList) : TodoList * option error :=
  match find_id id (todos tl) with
  | Some (i, t) =>
      (mkTodoList (modify i (set_Completed false) (Todos tl)) (NextID tl), None)
  | None => (tl, Some (ErrNotFound id))
  end.

(** [Delete] returns the removed record, or the error. *)
Definition Delete (id : Z) (tl : TodoList) : TodoList * (Todo + error) :=
  match find_id id (todos tl) with
  | Some (i, todo) =>
      (mkTodoList (Some (take i (todos tl) ++ drop (S i) (todos tl))) (NextID tl),
       inl todo)
  | None => (tl, inr (ErrNotFound id))
  end.

Definition EditTask (id : Z) (newTask : string) (tl : TodoList)
    : TodoList * option error :=
  match find_id id (todos tl) with
  | Some (i, t) =>
      (mkTodoList (modify i (set_Task newTask) (Todos tl)) (NextID tl), None)
  | None => (tl, Some (ErrNotFound id))
  end.

(** What the program prints, where a property depends on it. *)
Inductive message :=
  | MsgCleared (n : Z)          (* "Cleared %d completed todos." *)
  | MsgNoCompleted              (* "No completed todos to clear." *)
  | MsgClearCancelled           (* "Clearing completed todos cancelled." *)
  | MsgDeleteCancelled (id : Z) (* "Deletion of todo #%d cancelled." *)
  | MsgError (e : error)        (* the text of an error *)
  | MsgUndidAdd (id : Z) (task : string)
  | MsgUndidComplete (id : Z)
  | MsgUndidDelete (id newid : Z) (task : string)
  | MsgUndidUncomplete (id : Z)
  | MsgUndoFailed (e : error)   (* "Undo failed: ..." *)
  | MsgCannotUndoDelete         (* "Cannot undo delete: no todo data stored." *)
  | MsgNoUndo                   (* "No action to undo." *)
  | MsgNoMatch (query : string) (* "No tasks found matching ..." *)
  | MsgListing (shown : list Todo). (* the records [List] prints, in order *)

(** [ClearCompleted]: the loop collects the active records in a fresh slice,
    which replaces the old one only when it is shorter. *)
Definition ClearCompleted (tl : TodoList) : TodoList * message :=
  let activeTodos : slice Todo :=
    foldl (fun active todo =>
             if negb (Completed todo) then append active [todo] else active)
          None (todos tl) in
  if (length (elems activeTodos) <? length (todos tl))%nat
  then (mkTodoList activeTodos (NextID tl),
        MsgCleared (Z.of_nat (length (todos tl)) - Z.of_nat (length (elems activeTodos))))
  else (tl, MsgNoCompleted).

(** The inner loop of [SearchTasks] over the tags of one record: the record
    is appended at the first tag that contains the query. *)
Fixpoint search_tags (lowerQuery : string) (todo : Todo) (tags : list string)
    (matched : slice Todo) : slice Todo :=
  match tags with
  | [] => matched
  | tag :: rest =>
      if Contains (ToLower tag) lowerQuery then append matched [todo]
      else search_tags lowerQuery todo rest matched
  end.

(** [SearchTasks] returns the receiver as the call leaves it, and the
    collection of matches. *)
Definition SearchTasks (query : string) (tl : TodoList) : TodoList * TodoList :=
  let matchedTodos := NewTodoList in
  let lowerQuery := ToLower query in
  let found :=
    foldl (fun matched todo =>
             if Contains (ToLower (Task todo)) lowerQuery
             then append matched [todo]
             else search_tags lowerQuery todo (elems (Tags todo)) matched)
          (Todos matchedTodos) (todos tl) in
  (tl, mkTodoList found (NextID matchedTodos)).

(** ** Listing: filter and sort *)

Record ListOptions := mkListOptions {
  FilterStatus : string;            (* "all", "completed", "incomplete" *)
  FilterPriority : PriorityLevel;
  FilterTags : slice string;
  SortBy : string;                  (* "id", "task", "created_at", "due_date", "priority" *)
  SortOrder : string                (* "asc" or "desc" *)
}.

(** The two nested loops of the tag filter. *)
Definition hasTag (filterTags todoTags : list string) : bool :=
  existsb (fun filterTag =>
             existsb (fun todoTag => String.eqb (ToLower filterTag) (ToLower todoTag))
                     todoTags)
          filterTags.

(** The body of the filter loop: the final value of [match]. *)
Definition keep (options : ListOptions) (todo : Todo) : bool :=
  let match_ := true in
  let match_ :=
    if String.eqb (FilterStatus options) "completed" && negb (Completed todo)
    then false else match_ in
  let match_ :=
    if String.eqb (FilterStatus options) "incomplete" && Completed todo
    then false else match_ in
  let canonicalFilterPriority := toCanonicalPriority (FilterPriority options) in
  let match_ :=
    if negb (String.eqb canonicalFilterPriority "")
       && negb (String.eqb (Priority todo) canonicalFilterPriority)
    then false else match_ in
  let match_ :=
    if (0 <? length (elems (FilterTags options)))%nat
    then if negb (hasTag (elems (FilterTags options)) (elems (Tags todo)))
         then false else match_
    else match_ in
  match_.

(** The comparison handed to [sort.Slice]. *)
Definition less (options : ListOptions) (a b : Todo) : bool :=
  if String.eqb (SortBy options) "due_date" then
    if String.eqb (SortOrder options) "desc" then
      match DueDate a, DueDate b with
      | None, None => false
      | None, Some _ => false
      | Some _, None => true
      | Some da, Some db => After da db
      end
    else
      match DueDate a, DueDate b with
      | None, None => false
      | None, Some _ => false
      | Some _, None => true
      | Some da, Some db => Before da db
      end
  else
    let less_ :=
      if String.eqb (SortBy options) "id" then ID a <? ID b
      else if String.eqb (SortBy options) "task"
           then String.ltb (ToLower (Task a)) (ToLower (Task b))
      else if String.eqb (SortBy options) "created_at"
           then Before (CreatedAt a) (CreatedAt b)
      else if String.eqb (SortBy options) "priority"
           then String.ltb (ToLower (Priority a)) (ToLower (Priority b))
      else ID a <? ID b in
    if String.eqb (SortOrder options) "desc" then negb less_ else less_.

(** [sort.Slice] is library code.  What its documentation promises is this:
    when [less] describes a transitive ordering, the slice is rearranged so
    that no element must sort before an earlier one; elements that are
    equal for [less] may come out in any order. *)
Definition ordering {A} (less : A -> A -> bool) : Prop :=
  (forall a b, less a b = true -> less b a = false)
  /\ (forall a b c, less a b = true -> less b c = true -> less a c = true)
  /\ (forall a b c, less a b = false -> less b c = false -> less a c = false).

Definition sorts {A} (sort : (A -> A -> bool) -> list A -> list A) : Prop :=
  forall less l,
    sort less l ≡ₚ l
    /\ (ordering less -> StronglySorted (fun a b => less b a = false) (sort less l)).

(** What the library runs on slices of up to twelve elements is this
    insertion sort:
    [for i := a+1; i < b; i++ { for j := i; j > a && less(j, j-1); j-- { swap(j, j-1) } }].
    [insert_back] is the inner loop; the sorted prefix is held last element
    first.  It stands for [sort.Slice] where a property depends on more than
    the documentation promises. *)
Fixpoint insert_back {A} (less : A -> A -> bool) (x : A) (prefix_rev : list A)
    : list A :=
  match prefix_rev with
  | [] => [x]
  | y :: r => if less x y then y :: insert_back less x r else x :: y :: r
  end.

Definition sortSlice {A} (less : A -> A -> bool) (data : list A) : list A :=
  reverse (foldl (fun prefix_rev x => insert_back less x prefix_rev) [] data).

(** The records [List] prints, in the order it prints them, for a given
    [sort.Slice]. *)
Definition ListWith (sort_Slice : (Todo -> Todo -> bool) -> list Todo -> list Todo)
    (options : ListOptions) (tl : TodoList) : list Todo :=
  let filteredTodos :=
    foldl (fun filtered todo =>
             if keep options todo then filtered ++ [todo] else filtered)
          [] (todos tl) in
  if negb (String.eqb (SortBy options) "")
  then sort_Slice (less options) filteredTodos
  else filteredTodos.

Definition List : ListOptions -> TodoList -> list Todo := ListWith sortSlice.

(** ** The interactive loop and its undo (cli.go) *)

Inductive ActionType :=
  | ActionNone | ActionAdd | ActionComplete | ActionDelete | ActionUncomplete.

Record lastAction := mkLastAction {
  Type_ : ActionType;
  ActionID : Z;
  DeletedTodo : option Todo;
  PreviousCompletedStatus : bool
}.

(** The zero value of [lastAction], the initial [lastActionState]. *)
Definition noAction : lastAction := mkLastAction ActionNone 0 None false.

(** A line of input that reaches an operation, split into its command and
    arguments.  (A line that the loop turns down with a usage message, for a
    missing argument, an identifier that is no number or a date it cannot
    read, reaches none.)  The two destructive commands carry the answer to
    their confirmation prompt; [add] carries the reading of the clock. *)
Inductive command :=
  | CmdAdd (task : string) (priority : string) (dueDate : option Time)
           (tags : slice string) (now : Time)
  | CmdEdit (id : Z) (newTask : string)
  | CmdClearCompleted (confirmed : bool)
  | CmdSearch (query : string)
  | CmdComplete (id : Z)
  | CmdUncomplete (id : Z)
  | CmdDelete (id : Z) (confirmed : bool)
  | CmdList
  | CmdUndo.

(** The state of the process: the live collection, the global
    [lastActionState], and what has been printed so far. *)
Record world := mkWorld {
  todoList : TodoList;
  lastActionState : lastAction;
  printed : list message
}.

Definition initial (tl : TodoList) : world := mkWorld tl noAction [].

Definition say (m : message) (w : world) : world :=
  mkWorld (todoList w) (lastActionState w) (printed w ++ [m]).

(** The [undo] case. *)
Definition undo (w : world) : world :=
  let st := lastActionState w in
  let w' :=
    match Type_ st with
    | ActionAdd =>
        match Delete (ActionID st) (todoList w) with
        | (tl', inl deletedTodo) =>
            say (MsgUndidAdd (ActionID st) (Task deletedTodo))
                (mkWorld tl' st (printed w))
        | (tl', inr err) => say (MsgUndoFailed err) (mkWorld tl' st (printed w))
        end
    | ActionComplete =>
        match Uncomplete (ActionID st) (todoList w) with
        | (tl', None) => say (MsgUndidComplete (ActionID st)) (mkWorld tl' st (printed w))
        | (tl', Some err) => say (MsgUndoFailed err) (mkWorld tl' st (printed w))
        end
    | ActionDelete =>
        match DeletedTodo st with
        | Some deleted =>
            let tl := todoList w in
            say (MsgUndidDelete (ActionID st) (ID deleted) (Task deleted))
                (mkWorld (mkTodoList (append (Todos tl) [deleted]) (NextID tl))
                         st (printed w))
        | None => say MsgCannotUndoDelete w
        end
    | ActionUncomplete =>
        match Complete (ActionID st) (todoList w) with
        | (tl', None) => say (MsgUndidUncomplete (ActionID st)) (mkWorld tl' st (printed w))
        | (tl', Some err) => say (MsgUndoFailed err) (mkWorld tl' st (printed w))
        end
    | ActionNone => say MsgNoUndo w
    end in
  mkWorld (todoList w') noAction (printed w').

(** One turn of the loop of [runInteractiveMode]. *)
Definition step (w : world) (c : command) : world :=
  let tl := todoList w in
  match c with
  | CmdAdd task priority dueDate tags now =>
      let tl' := Add task (toCanonicalPriority priority) dueDate tags now tl in
      mkWorld tl' (mkLastAction ActionAdd (wrap (NextID tl' - 1)) None false) (printed w)
  | CmdEdit id newTask =>
      match EditTask id newTask tl with
      | (tl', None) => mkWorld tl' (lastActionState w) (printed w)
      | (tl', Some err) => say (MsgError err) (mkWorld tl' (lastActionState w) (printed w))
      end
  | CmdClearCompleted true =>
      let '(tl', m) := ClearCompleted tl in
      say m (mkWorld tl' (lastActionState w) (printed w))
  | CmdClearCompleted false => say MsgClearCancelled w
  | CmdSearch query =>
      let '(tl', results) := SearchTasks query tl in
      let w' := mkWorld tl' (lastActionState w) (printed w) in
      if (length (todos results) =? 0)%nat then say (MsgNoMatch query) w'
      else say (MsgListing (List (mkListOptions "" "" None "" "") results)) w'
  | CmdComplete id =>
      match Complete id tl with
      | (tl', None) =>
          mkWorld tl' (mkLastAction ActionComplete id None false) (printed w)
      | (tl', Some err) => say (MsgError err) (mkWorld tl' (lastActionState w) (printed w))
      end
  | CmdUncomplete id =>
      match Uncomplete id tl with
      | (tl', None) =>
          mkWorld tl' (mkLastAction ActionUncomplete id None true) (printed w)
      | (tl', Some err) => say (MsgError err) (mkWorld tl' (lastActionState w) (printed w))
      end
  | CmdDelete id true =>
      match Delete id tl with
      | (tl', inl deletedTodo) =>
          mkWorld tl' (mkLastAction ActionDelete id (Some deletedTodo) false) (printed w)
      | (tl', inr err) => say (MsgError err) (mkWorld tl' (lastActionState w) (printed w))
      end
  | CmdDelete id false => say (MsgDeleteCancelled id) w
  | CmdList => say (MsgListing (List (mkListOptions "" "" None "" "") tl)) w
  | CmdUndo => undo w
  end.

(** A session: the commands of the user, one after the other. *)
Definition run (w : world) (cs : list command) : world := foldl step w cs.


(** ** Observing a session *)

Definition is_add (c : command) : bool :=
  match c with
  | CmdAdd _ _ _ _ _ => true
  | _ => false
  end.

(** The number of [add] commands in a session. *)
Fixpoint adds (cs : list command) : nat :=
  match cs with
  | [] => 0%nat
  | c :: cs' => ((if is_add c then 1 else 0) + adds cs')%nat
  end.

(** The identifiers given out by the [add] commands of a session, in order:
    each is read off the record that the command has just appended. *)
Fixpoint assigned (w : world) (cs : list command) : list Z :=
  match cs with
  | [] => []
  | c :: cs' =>
      (if is_add c
       then match last (todos (todoList (step w c))) with
            | Some t => [ID t]
            | None => []
            end
       else [])
      ++ assigned (step w c) cs'
  end.

Definition ids (tl : TodoList) : list Z := ID <$> todos tl.

(** The identifiers of a collection are distinct and below the counter, and
    so is the identifier of a record kept for the undo of a delete. *)
Record consistent (w : world) : Prop := mkConsistent {
  counter_pos : 1 <= NextID (todoList w);
  ids_distinct : NoDup (ids (todoList w));
  ids_below : Forall (fun i => 1 <= i < NextID (todoList w)) (ids (todoList w));
  undo_fresh : forall d,
    Type_ (lastActionState w) = ActionDelete ->
    DeletedTodo (lastActionState w) = Some d ->
    ~ ID d ∈ ids (todoList w) /\ 1 <= ID d < NextID (todoList w)
}.

(** ** Observing a listing *)

(** The options of a listing sorted by due date, or by priority, in the given
    direction, with the filters of [o]. *)
Definition by_due_date (o : ListOptions) (order : string) : ListOptions :=
  mkListOptions (FilterStatus o) (FilterPriority o) (FilterTags o) "due_date" order.

Definition by_priority (o : ListOptions) (order : string) : ListOptions :=
  mkListOptions (FilterStatus o) (FilterPriority o) (FilterTags o) "priority" order.

(** The records that pass the filters, in the order of the collection. *)
Definition kept (o : ListOptions) (tl : TodoList) : list Todo :=
  filter (fun t => keep o t = true) (todos tl).

Definition dated (t : Todo) : Prop := DueDate t <> None.

(** The instants of the due dates of the records that have one, in the
    order of the records. *)
Definition due_instants (l : list Todo) : list Z :=
  omap (fun t => unixNano <$> DueDate t) l.

(** The instant of the due date of a record that has one. *)
Definition instant_of (t : Todo) : Z := from_option unixNano 0 (DueDate t).


(** [a] may stand before [b] in a listing by due date: ascending, and
    descending. *)
Definition due_asc (a b : Todo) : Prop :=
  match DueDate a, DueDate b with
  | Some x, Some y => unixNano x <= unixNano y
  | Some _, None => True
  | None, Some _ => False
  | None, None => True
  end.

Definition due_desc (a b : Todo) : Prop :=
  match DueDate a, DueDate b with
  | Some x, Some y => unixNano y <= unixNano x
  | Some _, None => True
  | None, Some _ => False
  | None, None => True
  end.

Definition string_le (s1 s2 : string) : Prop := String.leb s1 s2 = true.

(** ** Sample data for the worked examples *)

Definition morning : Time := mkTime 2024 1 1 9 0 0 0 0.

Definition plain (id : Z) (task : string) : Todo :=
  mkTodo id task false morning PriorityMedium None None.

Definition three_tasks : TodoList :=
  mkTodoList (Some [plain 1 "Task 1"; plain 2 "Task 2"; plain 3 "Task 3"]) 4.

Definition tagged (id : Z) (task : string) (tags : list string) : Todo :=
  mkTodo id task false morning PriorityMedium None (Some tags).

(** A collection in which the query "work" hits the second record twice:
    in its description and in one of its tags. *)
Definition office : TodoList :=
  mkTodoList (Some [tagged 1 "Buy groceries" ["personal"];
                    tagged 2 "Work on report" ["work"; "urgent"];
                    tagged 3 "Review code" ["Work"; "code"]]) 7.

Definition start : world := initial NewTodoList.

(** A session with deletes, an undo and a clear between its adds. *)
Definition busy_session : list command :=
  [CmdAdd "A" "" None (Some []) morning;
   CmdAdd "B" "high" None (Some []) morning;
   CmdDelete 1 true;
   CmdUndo;
   CmdAdd "C" "" None (Some []) morning;
   CmdComplete 2;
   CmdClearCompleted true;
   CmdDelete 3 true;
   CmdAdd "D" "low" None (Some []) morning].

(** Add("A"); Add("B"); Delete(1); Undo. *)
Definition delete_then_undo : list command :=
  [CmdAdd "A" "" None (Some []) morning;
   CmdAdd "B" "" None (Some []) morning;
   CmdDelete 1 true;
   CmdUndo].

Definition noon : Time := mkTime 2024 1 1 12 0 0 0 0.

Definition buy_milk : Todo :=
  mkTodo 1 "Buy milk" false morning PriorityLow None (Some []).

Definition ship_release : Todo :=
  mkTodo 2 "Ship release" false noon PriorityHigh (Some (date 2024 12 25))
         (Some ["work"; "urgent"]).

(** Add("Buy milk", low, no due date, []);
    Add("Ship release", high, due 2024-12-25, [work, urgent]); Complete(1). *)
Definition two_adds_and_a_complete : list command :=
  [CmdAdd "Buy milk" "low" None (Some []) morning;
   CmdAdd "Ship release" "high" (Some (date 2024 12 25)) (Some ["work"; "urgent"]) noon;
   CmdComplete 1].

Definition only_incomplete : ListOptions := mkListOptions "incomplete" "" None "" "".

(** The collection of [TestListWithFilteringAndSorting]. *)
Definition test_list : TodoList :=
  mkTodoList
    (Some [mkTodo 1 "Task B Low" false morning PriorityLow (Some (date 2024 1 2))
                  (Some ["personal"]);
           mkTodo 2 "Task A High" false morning PriorityHigh (Some (date 2024 1 1))
                  (Some ["work"]);
           mkTodo 3 "Task C Med" false morning PriorityMedium None
                  (Some ["personal"; "urgent"])]) 4.

Definition no_filter : ListOptions := mkListOptions "" "" None "" "".

(** "caf" followed by the byte E9: the description "café" as a terminal
    that works in Latin-1 sends it.  It is not UTF-8. *)
Definition cafe_latin1 : string :=
  String "c" (String "a" (String "f" (String (ascii_of_N 233) ""))).

Definition latin1_session : list command :=
  [CmdAdd cafe_latin1 "" None (Some []) morning].

(** ** Text: UTF-8 *)

Definition byte_in (lo hi : N) (c : ascii) : bool :=
  ((lo <=? N_of_ascii c) && (N_of_ascii c <=? hi))%N.

(** The number of bytes of the rune at the head of a string, as
    [utf8.DecodeRuneInString] finds it; 0 when the string is empty or does
    not start with a well-formed rune (the case [RuneError, 1]). *)
Definition rune_len (s : string) : nat :=
  match s with
  | EmptyString => 0
  | String c0 r =>
      if byte_in 0 127 c0 then 1
      else if byte_in 194 223 c0 then
        match r with
        | String c1 _ => if byte_in 128 191 c1 then 2 else 0
        | _ => 0
        end
      else if byte_in 224 239 c0 then
        match r with
        | String c1 (String c2 _) =>
            let lo := if byte_in 224 224 c0 then 160%N else 128%N in
            let hi := if byte_in 237 237 c0 then 159%N else 191%N in
            if byte_in lo hi c1 && byte_in 128 191 c2 then 3 else 0
        | _ => 0
        end
      else if byte_in 240 244 c0 then
        match r with
        | String c1 (String c2 (String c3 _)) =>
            let lo := if byte_in 240 240 c0 then 144%N else 128%N in
            let hi := if byte_in 244 244 c0 then 143%N else 191%N in
            if byte_in lo hi c1 && byte_in 128 191 c2 && byte_in 128 191 c3
            then 4 else 0
        | _ => 0
        end
      else 0
  end%nat.

(** U+FFFD, the replacement character, in UTF-8. *)
Definition replacement : string :=
  String (ascii_of_N 239) (String (ascii_of_N 191) (String (ascii_of_N 189) "")).

(** The text that a JSON string written by [json.Marshal] reads back as:
    the runes of the string are kept, and every byte that starts no
    well-formed rune becomes U+FFFD.  [pending] counts the bytes of the
    current rune that are still to be copied. *)
Fixpoint coerce (pending : nat) (s : string) : string :=
  match s with
  | EmptyString => EmptyString
  | String c r =>
      match pending with
      | S k => String c (coerce k r)
      | O =>
          match rune_len s with
          | O => String.append replacement (coerce 0 r)
          | S k => String c (coerce k r)
          end
      end
  end.

Definition toValidUTF8 (s : string) : string := coerce 0 s.

(** [utf8.ValidString]. *)
Fixpoint valid_from (pending : nat) (s : string) : bool :=
  match s with
  | EmptyString => true
  | String c r =>
      match pending with
      | S k => valid_from k r
      | O =>
          match rune_len s with
          | O => false
          | S k => valid_from k r
          end
      end
  end.

Definition ValidString (s : string) : bool := valid_from 0 s.

(** ** Text: timestamps in RFC 3339 *)

Definition digit_char (d : Z) : ascii := ascii_of_N (48 + Z.to_N d).

Definition char_digit (c : ascii) : option Z :=
  if byte_in 48 57 c then Some (Z.of_N (N_of_ascii c) - 48) else None.

Definition digits2 (n : Z) : string :=
  String (digit_char (n / 10)) (String (digit_char (n mod 10)) "").

Definition digits4 (n : Z) : string :=
  String.append (digits2 (n / 100)) (digits2 (n mod 100)).

(** The first [n] digits of a fraction of [10^n], without trailing zeros. *)
Fixpoint fraction_digits (n : nat) (f : Z) : string :=
  match n with
  | O => ""
  | S n' =>
      if f =? 0 then ""
      else String (digit_char (f / 10 ^ Z.of_nat n'))
                  (fraction_digits n' (f mod 10 ^ Z.of_nat n'))
  end.

Definition is_leap (y : Z) : bool :=
  (y mod 4 =? 0) && (negb (y mod 100 =? 0) || (y mod 400 =? 0)).

Definition days_in (y m : Z) : Z :=
  if m =? 2 then (if is_leap y then 29 else 28)
  else if (m =? 4) || (m =? 6) || (m =? 9) || (m =? 11) then 30
  else 31.

(** The readings that a [time.Time] can have. *)
Definition calendar_ok (t : Time) : bool :=
  (1 <=? month t) && (month t <=? 12)
  && (1 <=? day t) && (day t <=? days_in (year t) (month t))
  && (0 <=? hour t) && (hour t <? 24)
  && (0 <=? minute t) && (minute t <? 60)
  && (0 <=? second t) && (second t <? 60)
  && (0 <=? nanosecond t) && (nanosecond t <? 1000000000).

(** What [Time.MarshalJSON] refuses. *)
Definition marshalable (t : Time) : bool :=
  (0 <=? year t) && (year t <=? 9999) && (-1440 <? zone t) && (zone t <? 1440).

(** The fraction of a second as [.999999999] writes it, and the zone as
    [Z07:00] does. *)
Definition fraction_text (ns : Z) : string :=
  if ns =? 0 then "" else String.append "." (fraction_digits 9 ns).

Definition zone_text (z : Z) : string :=
  if z =? 0 then "Z"
  else String.concat ""
         [(if z <? 0 then "-" else "+");
          digits2 (Z.abs z / 60); ":"; digits2 (Z.abs z mod 60)].

(** The layout [RFC3339Nano]: "2006-01-02T15:04:05.999999999Z07:00". *)
Definition formatRFC3339Nano (t : Time) : string :=
  String.concat ""
    [digits4 (year t); "-"; digits2 (month t); "-"; digits2 (day t); "T";
     digits2 (hour t); ":"; digits2 (minute t); ":"; digits2 (second t);
     fraction_text (nanosecond t); zone_text (zone t)].

(** Reading: each step returns what it read and the rest of the text. *)
Definition take_digit (s : string) : option (Z * string) :=
  match s with
  | String c r => d ← char_digit c; Some (d, r)
  | EmptyString => None
  end.

Definition take_digits2 (s : string) : option (Z * string) :=
  '(a, s) ← take_digit s; '(b, s) ← take_digit s; Some (10 * a + b, s).

Definition take_digits4 (s : string) : option (Z * string) :=
  '(a, s) ← take_digits2 s; '(b, s) ← take_digits2 s; Some (100 * a + b, s).

Definition expect (c : ascii) (s : string) : option string :=
  match s with
  | String c' r => if Ascii.eqb c c' then Some r else None
  | EmptyString => None
  end.

(** The hour, read as the layout element [15] is: from two digits, or
    from one when no second digit follows. *)
Definition take_hour (s : string) : option (Z * string) :=
  '(a, r) ← take_digit s;
  match take_digit r with
  | Some (b, r') => Some (10 * a + b, r')
  | None => Some (a, r)
  end.

(** A text that does not go on with a digit. *)
Definition no_digit (s : string) : Prop := take_digit s = None.

(** Up to [n] digits of a fraction; the digits that are not there are
    zeros. *)
Fixpoint take_fraction (n : nat) (s : string) (acc : Z) : Z * string :=
  match n with
  | O => (acc, s)
  | S n' =>
      match take_digit s with
      | Some (d, r) => take_fraction n' r (10 * acc + d)
      | None => (acc * 10 ^ Z.of_nat n, s)
      end
  end.

Fixpoint skip_digits (s : string) : string :=
  match s with
  | String c r =>
      match char_digit c with
      | Some _ => skip_digits r
      | None => s
      end
  | EmptyString => s
  end.

(** The fraction of a second, which [time.Parse] reads after the seconds
    although the layout has none: a period or a comma and the digits that
    follow, of which the first nine count.  A period or comma that no
    digit follows is left where it is. *)
Definition take_nanoseconds (s : string) : option (Z * string) :=
  match s with
  | String c r =>
      if Ascii.eqb c "." || Ascii.eqb c "," then
        match take_digit r with
        | Some _ =>
            let '(ns, rest) := take_fraction 9 r 0 in Some (ns, skip_digits rest)
        | None => Some (0, s)
        end
      else Some (0, s)
  | EmptyString => Some (0, s)
  end.

(** The zone, read as the layout element [Z07:00] is: [Z], or a sign, two
    digits, a colon and two digits; [time.Parse] lets the hours go up to 24
    and the minutes up to 60.  Nothing may follow. *)
Definition take_zone (s : string) : option Z :=
  match s with
  | String "Z" EmptyString => Some 0
  | String sign r =>
      '(h, r) ← take_digits2 r; r ← expect ":" r; '(m, r) ← take_digits2 r;
      if (h <=? 24) && (m <=? 60) && String.eqb r ""
      then if Ascii.eqb sign "+" then Some (60 * h + m)
           else if Ascii.eqb sign "-" then Some (- (60 * h + m))
           else None
      else None
  | EmptyString => None
  end.

(** [Time.UnmarshalJSON] reads the text with [time.Parse] and the layout
    [RFC3339]: what it accepts beyond the texts that [Time.MarshalJSON]
    writes is an hour of one digit, a comma before the fraction, a fraction
    of more than nine digits, and a zone of up to 24 hours and 60 minutes.
    The year has four digits, month, day, minute and second two; the
    reading must be one of the calendar. *)
Definition parseRFC3339 (s : string) : option Time :=
  '(y, s) ← take_digits4 s; s ← expect "-" s;
  '(mo, s) ← take_digits2 s; s ← expect "-" s;
  '(d, s) ← take_digits2 s; s ← expect "T" s;
  '(h, s) ← take_hour s; s ← expect ":" s;
  '(mi, s) ← take_digits2 s; s ← expect ":" s;
  '(sec, s) ← take_digits2 s;
  '(ns, s) ← take_nanoseconds s;
  z ← take_zone s;
  let t := mkTime y mo d h mi sec ns z in
  if calendar_ok t then Some t else None.

(** ** JSON

    [encoding/json] is library code.  A JSON text is modelled by the
    document it spells: what [json.MarshalIndent] writes for a collection,
    and what [json.Unmarshal] makes of a document. *)
#[local] Unset Elimination Schemes.
Inductive json :=
  | JNull
  | JBool (b : bool)
  | JInt (n : Z)          (* a number written as an integer *)
  | JFloat                (* a number written with a fraction or an exponent *)
  | JString (s : string)
  | JArray (items : list json)
  | JObject (members : list (string * json)).
#[local] Set Elimination Schemes.

(** The outcome of an encoding or decoding step. *)
Inductive result (A : Type) :=
  | Ok (a : A)
  | Err (e : json_error).
Arguments Ok {A} a.
Arguments Err {A} e.

Definition bind {A B} (m : result A) (k : A -> result B) : result B :=
  match m with
  | Ok a => k a
  | Err e => Err e
  end.

#[export] Instance result_bind : MBind result := fun A B k m => bind m k.

Fixpoint mapM {A B} (f : A -> result B) (l : list A) : result (list B) :=
  match l with
  | [] => Ok []
  | x :: r => y ← f x; ys ← mapM f r; Ok (y :: ys)
  end.

Fixpoint foldM {A B} (f : A -> B -> result B) (l : list A) (b : B) : result B :=
  match l with
  | [] => Ok b
  | x :: r => b1 ← f x b; foldM f r b1
  end.

(** *** Marshal: the struct tags of [Todo] and [TodoList] name the members;
    none is omitted when empty; a nil pointer or slice is written [null]. *)
Definition marshalString (s : string) : json := JString (toValidUTF8 s).

Definition marshalTime (t : Time) : result json :=
  if marshalable t then Ok (JString (formatRFC3339Nano t)) else Err MarshalerError.

Definition marshalTodo (t : Todo) : result json :=
  created_at ← marshalTime (CreatedAt t);
  due_date ← match DueDate t with
              | None => Ok JNull
              | Some d => marshalTime d
              end;
  Ok (JObject [("id", JInt (ID t));
               ("task", marshalString (Task t));
               ("completed", JBool (Completed t));
               ("created_at", created_at);
               ("priority", marshalString (Priority t));
               ("due_date", due_date);
               ("tags", match Tags t with
                        | None => JNull
                        | Some tags => JArray (marshalString <$> tags)
                        end)]).

Definition marshalTodoList (tl : TodoList) : result json :=
  todos_ ← match Todos tl with
            | None => Ok JNull
            | Some l => items ← mapM marshalTodo l; Ok (JArray items)
            end;
  Ok (JObject [("todos", todos_); ("next_id", JInt (NextID tl))]).

(** *** Unmarshal, into a value that exists: [null] leaves a number, a
    text, a flag or a time as it is and makes a pointer or a slice nil; a
    member that names no field is skipped; a later member overrides an
    earlier one; names match also when their letter case differs. *)
Definition unmarshalInt (field : string) (v : json) (old : Z) : result Z :=
  match v with
  | JNull => Ok old
  | JInt n =>
      if (int_min <=? n) && (n <=? int_max) then Ok n
      else Err (UnmarshalTypeError field)
  | _ => Err (UnmarshalTypeError field)
  end.

Definition unmarshalString (field : string) (v : json) (old : string)
    : result string :=
  match v with
  | JNull => Ok old
  | JString s => Ok s
  | _ => Err (UnmarshalTypeError field)
  end.

Definition unmarshalBool (field : string) (v : json) (old : bool) : result bool :=
  match v with
  | JNull => Ok old
  | JBool b => Ok b
  | _ => Err (UnmarshalTypeError field)
  end.

Definition unmarshalTime (field : string) (v : json) (old : Time) : result Time :=
  match v with
  | JNull => Ok old
  | JString s =>
      match parseRFC3339 s with
      | Some t => Ok t
      | None => Err (TimeError field)
      end
  | _ => Err (TimeError field)
  end.

(** The zero [time.Time]: 1 January of the year 1, UTC. *)
Definition zeroTime : Time := mkTime 1 1 1 0 0 0 0 0.

Definition zeroTodo : Todo := mkTodo 0 "" false zeroTime "" None None.

Definition unmarshalTimePtr (field : string) (v : json) (old : option Time)
    : result (option Time) :=
  match v with
  | JNull => Ok None
  | _ => t ← unmarshalTime field v (default zeroTime old); Ok (Some t)
  end.

(** A slice is decoded into fresh elements: every slice that [LoadFromFile]
    decodes into is empty or nil. *)
Definition unmarshalStrings (field : string) (v : json) : result (slice string) :=
  match v with
  | JNull => Ok None
  | JArray items =>
      l ← mapM (fun item => unmarshalString field item "") items; Ok (Some l)
  | _ => Err (UnmarshalTypeError field)
  end.

Definition key_is (name key : string) : bool :=
  String.eqb key name || String.eqb (ToLower key) (ToLower name).

Definition unmarshalTodoMember (m : string * json) (t : Todo) : result Todo :=
  let '(key, v) := m in
  if key_is "id" key then
    x ← unmarshalInt "id" v (ID t);
    Ok (mkTodo x (Task t) (Completed t) (CreatedAt t) (Priority t) (DueDate t) (Tags t))
  else if key_is "task" key then
    x ← unmarshalString "task" v (Task t);
    Ok (mkTodo (ID t) x (Completed t) (CreatedAt t) (Priority t) (DueDate t) (Tags t))
  else if key_is "completed" key then
    x ← unmarshalBool "completed" v (Completed t);
    Ok (mkTodo (ID t) (Task t) x (CreatedAt t) (Priority t) (DueDate t) (Tags t))
  else if key_is "created_at" key then
    x ← unmarshalTime "created_at" v (CreatedAt t);
    Ok (mkTodo (ID t) (Task t) (Completed t) x (Priority t) (DueDate t) (Tags t))
  else if key_is "priority" key then
    x ← unmarshalString "priority" v (Priority t);
    Ok (mkTodo (ID t) (Task t) (Completed t) (CreatedAt t) x (DueDate t) (Tags t))
  else if key_is "due_date" key then
    x ← unmarshalTimePtr "due_date" v (DueDate t);
    Ok (mkTodo (ID t) (Task t) (Completed t) (CreatedAt t) (Priority t) x (Tags t))
  else if key_is "tags" key then
    x ← unmarshalStrings "tags" v;
    Ok (mkTodo (ID t) (Task t) (Completed t) (CreatedAt t) (Priority t) (DueDate t) x)
  else Ok t.

Definition unmarshalTodo (v : json) (old : Todo) : result Todo :=
  match v with
  | JNull => Ok old
  | JObject members => foldM unmarshalTodoMember members old
  | _ => Err (UnmarshalTypeError "Todo")
  end.

Definition unmarshalTodos (v : json) : result (slice Todo) :=
  match v with
  | JNull => Ok None
  | JArray items =>
      l ← mapM (fun item => unmarshalTodo item zeroTodo) items; Ok (Some l)
  | _ => Err (UnmarshalTypeError "todos")
  end.

Definition unmarshalTodoListMember (m : string * json) (tl : TodoList)
    : result TodoList :=
  let '(key, v) := m in
  if key_is "todos" key then
    x ← unmarshalTodos v; Ok (mkTodoList x (NextID tl))
  else if key_is "next_id" key then
    x ← unmarshalInt "next_id" v (NextID tl); Ok (mkTodoList (Todos tl) x)
  else Ok tl.

Definition unmarshalTodoList (v : json) (old : TodoList) : result TodoList :=
  match v with
  | JNull => Ok old
  | JObject members => foldM unmarshalTodoListMember members old
  | _ => Err (UnmarshalTypeError "TodoList")
  end.

(** ** Files *)

(** The bytes of a file: the JSON document that they spell, if any. *)
Inductive content :=
  | NotJSON (raw : string)
  | Document (doc : json).

(** What a path leads to: a regular file, or something that can be neither
    read nor written (a directory, a file of another user). *)
Inductive node :=
  | File (data : content)
  | Fails (e : os_error).

Definition ReadFile (fs : gmap string node) (name : string) : content + os_error :=
  match fs !! name with
  | None => inr ErrNotExist
  | Some (File data) => inl data
  | Some (Fails e) => inr e
  end.

Definition WriteFile (fs : gmap string node) (name : string) (data : content)
    : gmap string node * option os_error :=
  match fs !! name with
  | Some (Fails e) => (fs, Some e)
  | _ => (<[name := File data]> fs, None)
  end.

Definition IsNotExist (e : os_error) : bool :=
  match e with
  | ErrNotExist => true
  | _ => false
  end.

Definition MarshalIndent (tl : TodoList) : result content :=
  doc ← marshalTodoList tl; Ok (Document doc).

Definition Unmarshal (data : content) (into : TodoList) : result TodoList :=
  match data with
  | NotJSON _ => Err SyntaxError
  | Document doc => unmarshalTodoList doc into
  end.

(** [SaveToFile]: the file system after the call, and the error. *)
Definition SaveToFile (filename : string) (tl : TodoList) (fs : gmap string node)
    : gmap string node * option error :=
  match MarshalIndent tl with
  | Err err => (fs, Some (ErrSave err))
  | Ok data =>
      match WriteFile fs filename data with
      | (fs', Some err) => (fs', Some (ErrSaveFile err))
      | (fs', None) => (fs', None)
      end
  end.

(** [LoadFromFile]: the collection or nil, and the error or nil. *)
Definition LoadFromFile (filename : string) (fs : gmap string node)
    : option TodoList * option error :=
  match ReadFile fs filename with
  | inr err =>
      if IsNotExist err then (Some NewTodoList, None)
      else (None, Some (ErrLoad err))
  | inl data =>
      match Unmarshal data NewTodoList with
      | Err err => (None, Some (ErrParse err))
      | Ok todoList => (Some todoList, None)
      end
  end.

(** ** Which collections a save can be expected to keep *)

(** A record that a Go program can hold: its identifier is an [int] and its
    time stamps are readings of the calendar. *)
Definition go_todo (t : Todo) : Prop :=
  in_int (ID t) /\ calendar_ok (CreatedAt t) = true
  /\ (forall d, DueDate t = Some d -> calendar_ok d = true).

Definition go_value (tl : TodoList) : Prop :=
  in_int (NextID tl) /\ Forall go_todo (todos tl).

(** The description, the priority and the tags of a record are UTF-8. *)
Definition utf8_todo (t : Todo) : Prop :=
  ValidString (Task t) = true /\ ValidString (Priority t) = true
  /\ Forall (fun tag => ValidString tag = true) (elems (Tags t)).

Definition utf8_texts (tl : TodoList) : Prop := Forall utf8_todo (todos tl).

(** The time stamps of a collection are within what [Time.MarshalJSON]
    accepts. *)
Definition marshalable_todo (t : Todo) : Prop :=
  marshalable (CreatedAt t) = true
  /\ (forall d, DueDate t = Some d -> marshalable d = true).

(** The arguments of a command are texts in UTF-8 and readings of the
    calendar. *)
Definition command_ok (c : command) : Prop :=
  match c with
  | CmdAdd task _ dueDate tags now =>
      ValidString task = true
      /\ Forall (fun tag => ValidString tag = true) (elems tags)
      /\ calendar_ok now = true
      /\ (forall d, dueDate = Some d -> calendar_ok d = true)
  | CmdEdit _ newTask => ValidString newTask = true
  | _ => True
  end.

Definition sound_todo (t : Todo) : Prop :=
  calendar_ok (CreatedAt t) = true
  /\ (forall d, DueDate t = Some d -> calendar_ok d = true)
  /\ utf8_todo t.

(** The records of the collection, and the one kept for an undo, hold
    UTF-8 and readings of the calendar. *)
Record sound (w : world) : Prop := mkSound {
  sound_todos : Forall sound_todo (todos (todoList w));
  sound_undo : forall d, DeletedTodo (lastActionState w) = Some d -> sound_todo d
}.

(** ** Text in ASCII, and letter case

    [strings.ToLower] and the other functions of [strings] are modelled on
    the bytes of a string, which is what they do for text in ASCII (Go's
    own fast path); outside ASCII they work on the letters of Unicode.
    The properties that depend on them are stated of text in ASCII. *)
Fixpoint is_ascii (s : string) : bool :=
  match s with
  | EmptyString => true
  | String c r => (N_of_ascii c <? 128)%N && is_ascii r
  end.

(** The alphabet: each capital letter with its small letter. *)
Definition capitals : string := "ABCDEFGHIJKLMNOPQRSTUVWXYZ".
Definition smalls : string := "abcdefghijklmnopqrstuvwxyz".

Definition letter_pairs : list (ascii * ascii) :=
  zip (list_ascii_of_string capitals) (list_ascii_of_string smalls).

Definition is_capital (c : ascii) : Prop := c ∈ list_ascii_of_string capitals.

(** Two bytes are the same letter, case aside. *)
Definition same_letter (c1 c2 : ascii) : Prop :=
  c1 = c2 \/ (c1, c2) ∈ letter_pairs \/ (c2, c1) ∈ letter_pairs.

(** Two texts are equal, letter case aside: they have the same length and
    the same letters at each place. *)
Fixpoint equal_fold (s1 s2 : string) : Prop :=
  match s1, s2 with
  | EmptyString, EmptyString => True
  | String c1 r1, String c2 r2 => same_letter c1 c2 /\ equal_fold r1 r2
  | _, _ => False
  end.

#[export] Instance equal_fold_dec (s1 s2 : string) : Decision (equal_fold s1 s2).
Proof.
  revert s2. induction s1 as [|c1 r1 IH]; intros [|c2 r2]; simpl;
    unfold same_letter; apply _.
Defined.

(** The text has no capital letter. *)
Definition no_capital (s : string) : Prop :=
  Forall (fun c => ~ is_capital c) (list_ascii_of_string s).

(** [sub] occurs in [s], letter case aside: a piece of [s] is equal to it. *)
Definition occurs_in (sub s : string) : Prop :=
  exists before piece after,
    s = before +:+ piece +:+ after /\ equal_fold sub piece.

(** ** Observing a search *)

(** A record matches a query when the query occurs, letter case aside, in
    its description or in one of its tags. *)
Definition matches_query (query : string) (t : Todo) : Prop :=
  occurs_in query (Task t) \/ Exists (occurs_in query) (elems (Tags t)).

(** ** Text that the program lower-cases *)

(** The texts of a record that the program lower-cases (description,
    priority, tags) are ASCII; and so are those of the filters. *)
Definition ascii_todo (t : Todo) : Prop :=
  is_ascii (Task t) = true /\ is_ascii (Priority t) = true
  /\ Forall (fun tag => is_ascii tag = true) (elems (Tags t)).

Definition ascii_options (o : ListOptions) : Prop :=
  is_ascii (FilterPriority o) = true
  /\ Forall (fun tag => is_ascii tag = true) (elems (FilterTags o)).

(** The collection is small enough for [sort.Slice] to run its insertion
    sort, whatever the filters keep. *)
Definition small (tl : TodoList) : Prop := (length (todos tl) <= 12)%nat.

(** ** The calendar, as a reader sees it *)

(** The day after a day of the calendar. *)
Definition tomorrow (y m d : Z) : Time :=
  if d <? days_in y m then date y m (d + 1)
  else if m <? 12 then date y (m + 1) 1
  else date (y + 1) 1 1.

(** The reading of a clock and calendar, from the year down to the
    nanosecond, and the order of two readings: the first place where they
    differ decides. *)
Definition reading (t : Time) : list Z :=
  [year t; month t; day t; hour t; minute t; second t; nanosecond t].

Fixpoint reads_before (r1 r2 : list Z) : Prop :=
  match r1, r2 with
  | x :: r1', y :: r2' => x < y \/ (x = y /\ reads_before r1' r2')
  | _, _ => False
  end.

(** [t] is earlier than [u] on the calendar and the clock. *)
Definition earlier (t u : Time) : Prop := reads_before (reading t) (reading u).

(** ** What a save keeps of a collection *)

(** The collection with every text (description, priority, tag) as
    [json.Marshal] writes it: made valid UTF-8. *)
Definition restored_todo (t : Todo) : Todo :=
  mkTodo (ID t) (toValidUTF8 (Task t)) (Completed t) (CreatedAt t)
         (toValidUTF8 (Priority t)) (DueDate t)
         (fmap (M := list) toValidUTF8 <$> Tags t).

Definition restored (tl : TodoList) : TodoList :=
  mkTodoList (fmap (M := list) restored_todo <$> Todos tl) (NextID tl).

(** ** Observing the filters and the order of a listing *)

(** What the three filters of [List] ask of a record.  A status other than
    "completed" and "incomplete" asks nothing; a priority filter that
    names one of the three levels, letter case aside, asks for that level,
    and any other asks nothing; of the tags of a tag filter, one must be,
    letter case aside, a tag of the record. *)
Definition passes (o : ListOptions) (t : Todo) : Prop :=
  (FilterStatus o = "completed" -> Completed t = true)
  /\ (FilterStatus o = "incomplete" -> Completed t = false)
  /\ Forall (fun level => equal_fold (FilterPriority o) level -> Priority t = level)
            [PriorityHigh; PriorityMedium; PriorityLow]
  /\ (elems (FilterTags o) <> [] ->
      Exists (fun filterTag =>
                Exists (fun todoTag => equal_fold filterTag todoTag)
                       (elems (Tags t)))
             (elems (FilterTags o))).

#[export] Instance passes_dec o t : Decision (passes o t).
Proof. unfold passes. apply _. Defined.

(** [a] may stand before [b] in an ascending listing sorted by the given
    key; a key that is none of the five names sorts by identifier. *)
Definition in_order (sortBy : string) (a b : Todo) : Prop :=
  if String.eqb sortBy "due_date" then due_asc a b
  else if String.eqb sortBy "id" then ID a <= ID b
  else if String.eqb sortBy "task"
       then string_le (ToLower (Task a)) (ToLower (Task b))
  else if String.eqb sortBy "created_at"
       then unixNano (CreatedAt a) <= unixNano (CreatedAt b)
  else if String.eqb sortBy "priority"
       then string_le (ToLower (Priority a)) (ToLower (Priority b))
  else ID a <= ID b.

(** The options [o] with another direction of the sort. *)
Definition ordered (o : ListOptions) (order : string) : ListOptions :=
  mkListOptions (FilterStatus o) (FilterPriority o) (FilterTags o) (SortBy o) order.

(** The options of a plain [-list]: the defaults of its flags. *)
Definition by_id : ListOptions := mkListOptions "all" "" (Some []) "id" "asc".

(** ** Text: what cli.go uses of [strings], [strconv] and [time]

    These are library functions.  They are modelled on the bytes of a
    string, which is what they do for text in ASCII; for text outside ASCII
    Go's [strings.Fields], [strings.TrimSpace] and [strings.Title] also know
    the white space and the letters of Unicode. *)

(** The white space of ASCII: tab, line feed, vertical tab, form feed,
    carriage return, space. *)
Definition isSpace (c : ascii) : bool :=
  let n := N_of_ascii c in
  ((9 <=? n) && (n <=? 13) || (n =? 32))%N.

(** [strings.Fields]: the maximal runs of bytes that are not white space.
    [field] is the run that is being read. *)
Fixpoint fields_loop (s : string) (field : string) : list string :=
  match s with
  | EmptyString => if String.eqb field "" then [] else [field]
  | String c r =>
      if isSpace c
      then (if String.eqb field "" then [] else [field]) ++ fields_loop r ""
      else fields_loop r (field +:+ String c "")
  end.

Definition Fields (s : string) : list string := fields_loop s "".

(** [strings.TrimSpace]. *)
Fixpoint trim_left (s : string) : string :=
  match s with
  | EmptyString => ""
  | String c r => if isSpace c then trim_left r else s
  end.

Fixpoint trim_right (s : string) : string :=
  match s with
  | EmptyString => ""
  | String c r =>
      match trim_right r with
      | EmptyString => if isSpace c then "" else String c ""
      | r' => String c r'
      end
  end.

Definition TrimSpace (s : string) : string := trim_right (trim_left s).

(** [strings.Join]. *)
Definition Join (elems : list string) (sep : string) : string :=
  String.concat sep elems.

(** [strings.Split] at a separator of one byte: one piece more than there
    are separators.  [piece] is the piece that is being read. *)
Fixpoint split_loop (sep : ascii) (s : string) (piece : string) : list string :=
  match s with
  | EmptyString => [piece]
  | String c r =>
      if Ascii.eqb c sep then piece :: split_loop sep r ""
      else split_loop sep r (piece +:+ String c "")
  end.

Definition Split (s : string) (sep : ascii) : list string := split_loop sep s "".

(** [strconv.Atoi]: an optional sign and decimal digits, at least one, whose
    value is an [int]; [None] stands for its errors. *)
Fixpoint digits_value (s : string) (acc : Z) : option Z :=
  match s with
  | EmptyString => Some acc
  | String c r => d ← char_digit c; digits_value r (10 * acc + d)
  end.

Definition Atoi (s : string) : option Z :=
  match s with
  | EmptyString => None
  | String c r =>
      let digits := if Ascii.eqb c "-" || Ascii.eqb c "+" then r else s in
      if String.eqb digits "" then None
      else
        n ← digits_value digits 0;
        let n := if Ascii.eqb c "-" then - n else n in
        if (int_min <=? n) && (n <=? int_max) then Some n else None
  end.

(** [strconv.Itoa], which is also what the verb [%d] prints. *)
Fixpoint digits_of (fuel : nat) (n : Z) (acc : string) : string :=
  match fuel with
  | O => acc
  | S fuel' =>
      let acc' := String (digit_char (n mod 10)) acc in
      if n <? 10 then acc' else digits_of fuel' (n / 10) acc'
  end.

Definition Itoa (n : Z) : string :=
  if n <? 0 then String "-" (digits_of 20 (- n) "") else digits_of 20 n "".

(** How [Time.Format] writes a number in a field of a given width: with
    zeros in front, and a sign when it is negative. *)
Fixpoint zeros (n : nat) : string :=
  match n with
  | O => ""
  | S n' => String "0" (zeros n')
  end.

Definition appendInt (x : Z) (width : nat) : string :=
  let digits := digits_of 20 (Z.abs x) "" in
  let padded := zeros (width - String.length digits) +:+ digits in
  if x <? 0 then String "-" padded else padded.

(** [Format("2006-01-02")] and [Format("2006-01-02 15:04")]. *)
Definition formatDate (t : Time) : string :=
  String.concat ""
    [appendInt (year t) 4; "-"; appendInt (month t) 2; "-"; appendInt (day t) 2].

Definition formatMinute (t : Time) : string :=
  String.concat ""
    [formatDate t; " "; appendInt (hour t) 2; ":"; appendInt (minute t) 2].

(** [strings.Title]: the first letter of every word in upper case; a word
    starts after a byte that is no letter, digit or underscore. *)
Definition upper_byte (c : ascii) : ascii :=
  let n := N_of_ascii c in
  if ((97 <=? n) && (n <=? 122))%N then ascii_of_N (n - 32) else c.

Definition isSeparator (c : ascii) : bool :=
  let n := N_of_ascii c in
  negb (((48 <=? n) && (n <=? 57)) || ((97 <=? n) && (n <=? 122))
        || ((65 <=? n) && (n <=? 90)) || (n =? 95))%N.

Fixpoint title_loop (prev : ascii) (s : string) : string :=
  match s with
  | EmptyString => ""
  | String c r =>
      String (if isSeparator prev then upper_byte c else c) (title_loop c r)
  end.

Definition Title (s : string) : string := title_loop " " s.

(** ** Reading the input (cli.go) *)

(** [parseDueDate]: [time.Parse("2006-01-02", dateStr)] reads four digits,
    a hyphen, two digits, a hyphen and two digits, and nothing more, and
    wants a date of the calendar; the time is midnight UTC.  [None] stands
    for its errors. *)
Definition parseDueDate (dateStr : string) : option Time :=
  '(y, s) ← take_digits4 dateStr; s ← expect "-" s;
  '(m, s) ← take_digits2 s; s ← expect "-" s;
  '(d, s) ← take_digits2 s;
  if String.eqb s "" && calendar_ok (date y m d) then Some (date y m d) else None.

(** [getConfirmation], given the line that it reads. *)
Definition getConfirmation (input : string) : bool :=
  String.eqb (TrimSpace (ToLower input)) "y".

(** The local variables of the [add] case, and the loop over the words
    that follow the command. *)
Record addArgs := mkAddArgs {
  task_ : string;
  priority_ : string;
  dueDateStr : string;
  tags_ : list string
}.

Fixpoint parseAddArgs (parts : list string) (a : addArgs) : addArgs :=
  match parts with
  | [] => a
  | part :: rest =>
      let unflagged :=
        mkAddArgs (if String.eqb (task_ a) "" then part
                   else task_ a +:+ " " +:+ part)
                  (priority_ a) (dueDateStr a) (tags_ a) in
      match rest with
      | value :: rest' =>
          if String.eqb part "-p" then
            parseAddArgs rest' (mkAddArgs (task_ a) value (dueDateStr a) (tags_ a))
          else if String.eqb part "-d" then
            parseAddArgs rest' (mkAddArgs (task_ a) (priority_ a) value (tags_ a))
          else if String.eqb part "-t" then
            parseAddArgs rest'
              (mkAddArgs (task_ a) (priority_ a) (dueDateStr a)
                         (tags_ a ++ Split value ","))
          else parseAddArgs rest unflagged
      | [] => unflagged
      end
  end.

(** What the loop prints for a line that reaches no operation. *)
Inductive notice :=
  | UsageAdd | UsageEdit | UsageSearch | UsageComplete | UsageUncomplete
  | UsageDelete
  | InvalidID            (* "Invalid ID. Please provide a number." *)
  | InvalidDueDate       (* "Invalid due date format. Use YYYY-MM-DD." *)
  | HelpText
  | UnknownCommand.      (* "Unknown command. Type 'help' ..." *)

(** What a line of input asks for. *)
Inductive request :=
  | Nothing                         (* an empty line: the loop prompts again *)
  | Say (n : notice)                (* a message, and nothing else *)
  | Do (c : command)                (* an operation *)
  | Confirm (c : bool -> command)   (* an operation that asks [y/N] first *)
  | Quit.                           (* [exit] *)

(** An identifier argument: [strconv.Atoi] of the second word. *)
Definition with_id (usage : notice) (splitCommand : list string)
    (k : Z -> request) : request :=
  match splitCommand with
  | _ :: arg :: _ =>
      match Atoi arg with
      | None => Say InvalidID
      | Some id => k id
      end
  | _ => Say usage
  end.

(** The body of the loop of [runInteractiveMode] up to the call of the
    operation; [now] is the reading of the clock that an [add] takes. *)
Definition readCommand (input : string) (now : Time) : request :=
  let command := TrimSpace input in
  let splitCommand := Fields command in
  match splitCommand with
  | [] => Nothing
  | word :: parts =>
      let subCommand := ToLower word in
      if String.eqb subCommand "add" then
        let a := parseAddArgs parts (mkAddArgs "" "" "" []) in
        if String.eqb (task_ a) "" then Say UsageAdd
        else if String.eqb (dueDateStr a) "" then
          Do (CmdAdd (task_ a) (priority_ a) None (Some (tags_ a)) now)
        else
          match parseDueDate (dueDateStr a) with
          | None => Say InvalidDueDate
          | Some parsedDate =>
              Do (CmdAdd (task_ a) (priority_ a) (Some parsedDate)
                         (Some (tags_ a)) now)
          end
      else if String.eqb subCommand "edit" then
        if (length splitCommand <? 3)%nat then Say UsageEdit
        else with_id UsageEdit splitCommand
               (fun id => Do (CmdEdit id (Join (drop 2 splitCommand) " ")))
      else if String.eqb subCommand "clear-completed" then
        Confirm CmdClearCompleted
      else if String.eqb subCommand "search" then
        if (length splitCommand <? 2)%nat then Say UsageSearch
        else Do (CmdSearch (Join (drop 1 splitCommand) " "))
      else if String.eqb subCommand "complete" then
        with_id UsageComplete splitCommand (fun id => Do (CmdComplete id))
      else if String.eqb subCommand "uncomplete" then
        with_id UsageUncomplete splitCommand (fun id => Do (CmdUncomplete id))
      else if String.eqb subCommand "delete" then
        with_id UsageDelete splitCommand (fun id => Confirm (CmdDelete id))
      else if String.eqb subCommand "list" then Do CmdList
      else if String.eqb subCommand "help" then Say HelpText
      else if String.eqb subCommand "exit" then Quit
      else if String.eqb subCommand "undo" then Do CmdUndo
      else Say UnknownCommand
  end.

(** Standard input, as a terminal hands it over: line by line, each with
    its line feed.  A read at the end of the input gives the empty string
    (and an error, which the program drops). *)
Definition ReadString (stdin : list string) : string * list string :=
  match stdin with
  | [] => ("", [])
  | line :: rest => (line, rest)
  end.

(** [runInteractiveMode]: [fuel] bounds the number of turns of the loop,
    [None] is a loop that is still running when the fuel is spent;
    [clock k] is the reading of the clock in turn [k].  The result is the
    state at the [exit] and the input that is left. *)
Fixpoint runInteractiveMode (fuel : nat) (clock : nat -> Time) (turn : nat)
    (w : world) (stdin : list string) : option (world * list string) :=
  match fuel with
  | O => None
  | S fuel' =>
      let '(input, stdin) := ReadString stdin in
      match readCommand input (clock turn) with
      | Nothing | Say _ => runInteractiveMode fuel' clock (S turn) w stdin
      | Do c => runInteractiveMode fuel' clock (S turn) (step w c) stdin
      | Confirm c =>
          let '(answer, stdin) := ReadString stdin in
          runInteractiveMode fuel' clock (S turn)
            (step w (c (getConfirmation answer))) stdin
      | Quit => Some (w, stdin)
      end
  end.

(** ** Observing the input *)

(** A word: what [strings.Fields] returns. *)
Fixpoint no_space (s : string) : bool :=
  match s with
  | EmptyString => true
  | String c r => negb (isSpace c) && no_space r
  end.

Definition is_word (s : string) : Prop := s <> "" /\ no_space s = true.

(** The line is an [exit]; the line asks for a confirmation. *)
Definition exits (line : string) : Prop := readCommand line zeroTime = Quit.

Definition asks (line : string) : Prop :=
  exists c, readCommand line zeroTime = Confirm c.

(** The input leads the loop to an [exit]: a line that asks for a
    confirmation takes the line after it as the answer. *)
Inductive reaches_exit : list string -> Prop :=
  | exit_now line rest : exits line -> reaches_exit (line :: rest)
  | exit_after_answer line answer rest :
      asks line -> reaches_exit rest -> reaches_exit (line :: answer :: rest)
  | exit_later line rest :
      ~ exits line -> ~ asks line -> reaches_exit rest ->
      reaches_exit (line :: rest).

(** The field that is being read, when the text ends or a white space
    follows. *)
Definition flush (field : string) : list string :=
  if String.eqb field "" then [] else [field].

(** ** Observing how a line is read *)

(** A text made of words with single spaces between them; it is not empty. *)
Definition normal_text (s : string) : Prop :=
  s <> "" /\ Join (Fields s) " " = s.

(** The arguments of [add] as its usage line describes them: words of the
    description, and flags with their values. *)
Inductive addItem :=
  | Word (w : string)
  | Flag (flag value : string).

Definition is_flag (s : string) : bool :=
  String.eqb s "-p" || String.eqb s "-d" || String.eqb s "-t".

Definition item_parts (i : addItem) : list string :=
  match i with
  | Word w => [w]
  | Flag flag value => [flag; value]
  end.

Definition item_ok (i : addItem) : Prop :=
  match i with
  | Word w => is_flag w = false /\ w <> ""
  | Flag flag _ => is_flag flag = true
  end.

(** The words of the description, and the values given to a flag, in the
    order of the line. *)
Definition words_of (items : list addItem) : list string :=
  omap (fun i => match i with Word w => Some w | Flag _ _ => None end) items.

Definition values_of (flag : string) (items : list addItem) : list string :=
  omap (fun i => match i with
                 | Flag f value => if String.eqb f flag then Some value else None
                 | Word _ => None
                 end) items.

(** ** What [List] prints (models.go)

    The line of a record:
    ["%s %d. %s%s%s%s (Created: %s)"] of the status, the identifier, the
    description, the priority, the due date, the tags and the time of
    creation. *)
Definition todoLine (todo : Todo) : string :=
  let status := if Completed todo then "[x]" else "[ ]" in
  let priorityStr :=
    if negb (String.eqb (Priority todo) "")
    then String.concat "" [" (Priority: "; Title (Priority todo); ")"]
    else "" in
  let dueDateStr :=
    match DueDate todo with
    | Some d => String.concat "" [" (Due: "; formatDate d; ")"]
    | None => ""
    end in
  let tagsStr :=
    if (0 <? length (elems (Tags todo)))%nat
    then String.concat "" [" [Tags: "; Join (elems (Tags todo)) ", "; "]"]
    else "" in
  String.concat ""
    [status; " "; Itoa (ID todo); ". "; Task todo; priorityStr; dueDateStr;
     tagsStr; " (Created: "; formatMinute (CreatedAt todo); ")"].

Inductive output_line :=
  | NoTodosFound               (* "No todos found matching the criteria." *)
  | YourTodos                  (* "Your Todos:" *)
  | TodoLine (text : string).

(** The end of [List]: what it prints for the records that it has
    filtered and sorted. *)
Definition printTodos (filteredTodos : list Todo) : list output_line :=
  if (length filteredTodos =? 0)%nat then [NoTodosFound]
  else YourTodos :: ((fun todo => TodoLine (todoLine todo)) <$> filteredTodos).

(** ** Observing what a session keeps *)

(** A property of records holds of the records of the collection and of
    the record kept for the undo of a delete. *)
Definition kept_by (P : Todo -> Prop) (w : world) : Prop :=
  Forall P (todos (todoList w))
  /\ forall d, DeletedTodo (lastActionState w) = Some d -> P d.

(** The record that an [add] creates has the property, whatever its
    identifier and priority. *)
Definition adds_fit (P : Todo -> Prop) (c : command) : Prop :=
  match c with
  | CmdAdd task _ dueDate tags now =>
      forall id priority, P (mkTodo id task false now priority dueDate tags)
  | _ => True
  end.

(** A state that [SaveToFile] can write and [LoadFromFile] reads back: the
    identifiers are distinct and below the counter, which is an [int]; the
    texts are UTF-8; the time stamps are readings of the calendar in the
    years 0 to 9999. *)
Definition savable (w : world) : Prop :=
  consistent w /\ NextID (todoList w) <= int_max
  /\ sound w /\ kept_by marshalable_todo w.

(** ** The single command mode (cli.go) *)

(** The flags of the command line as [flag.Parse] leaves them, each with
    the value that was given or with its default, and the number of flags
    that were given. *)
Record flags := mkFlags {
  addPtr : string;
  completePtr : Z;
  deletePtr : Z;
  listPtr : bool;
  interactivePtr : bool;
  clearCompletedCmdPtr : bool;
  filterStatusPtr : string;
  filterPriorityPtr : string;
  filterTagsPtr : string;
  sortByPtr : string;
  sortOrderPtr : string;
  NFlag : nat
}.

(** No flag given: the defaults that [HandleCommands] declares. *)
Definition no_flags : flags :=
  mkFlags "" 0 0 false false false "all" "" "" "id" "asc" 0.

(** What a single command prints. *)
Inductive said :=
  | SaidUsage                 (* the usage text and the defaults of the flags *)
  | SaidUnknown               (* "Unknown command or invalid flag combination." *)
  | Said (m : message).

(** The options of the [-list] flag. *)
Definition listOptions (f : flags) : ListOptions :=
  let options :=
    mkListOptions (filterStatusPtr f) (filterPriorityPtr f)
                  (Some (Split (filterTagsPtr f) ","))
                  (sortByPtr f) (sortOrderPtr f) in
  match elems (FilterTags options) with
  | [tag] =>
      if String.eqb tag ""
      then mkListOptions (FilterStatus options) (FilterPriority options) (Some [])
                         (SortBy options) (SortOrder options)
      else options
  | _ => options
  end.

(** [processSingleCommand]: the collection, what was printed, and the
    input that is left. *)
Definition processSingleCommand (f : flags) (now : Time) (stdin : list string)
    (tl : TodoList) : TodoList * list said * list string :=
  if (NFlag f =? 0)%nat then (tl, [SaidUsage], stdin)
  else if negb (String.eqb (addPtr f) "") then
    (Add (addPtr f) (toCanonicalPriority PriorityMedium) None (Some []) now tl,
     [], stdin)
  else if negb (completePtr f =? 0) then
    match Complete (completePtr f) tl with
    | (tl', None) => (tl', [], stdin)
    | (tl', Some err) => (tl', [Said (MsgError err)], stdin)
    end
  else if negb (deletePtr f =? 0) then
    let '(answer, stdin) := ReadString stdin in
    if getConfirmation answer then
      match Delete (deletePtr f) tl with
      | (tl', inl deletedTodo) => (tl', [], stdin)
      | (tl', inr err) => (tl', [Said (MsgError err)], stdin)
      end
    else (tl, [Said (MsgDeleteCancelled (deletePtr f))], stdin)
  else if clearCompletedCmdPtr f then
    let '(answer, stdin) := ReadString stdin in
    if getConfirmation answer then
      let '(tl', m) := ClearCompleted tl in (tl', [Said m], stdin)
    else (tl, [Said MsgClearCancelled], stdin)
  else if listPtr f then
    (tl, [Said (MsgListing (List (listOptions f) tl))], stdin)
  else (tl, [SaidUnknown], stdin).

(** [HandleCommands], after [flag.Parse]: the interactive mode, which starts
    with nothing to undo, or the single command.  [None] is an interactive
    mode that is still running when the fuel is spent. *)
Definition HandleCommands (f : flags) (fuel : nat) (clock : nat -> Time)
    (stdin : list string) (tl : TodoList)
    : option (TodoList * list said * list string) :=
  if interactivePtr f then
    match runInteractiveMode fuel clock 0%nat (initial tl) stdin with
    | Some (w, stdin') => Some (todoList w, Said <$> printed w, stdin')
    | None => None
    end
  else Some (processSingleCommand f (clock 0%nat) stdin tl).

(** ** The configuration (utils.go) *)

(** A [Duration] is a number of nanoseconds, an [int64]. *)
Record Config := mkConfig {
  DataFile : string;
  AutoSaveInterval : Z;
  LogFilePath : string
}.

#[export] Instance Config_eq_dec : EqDecision Config.
Proof. solve_decision. Defined.

Definition Minute : Z := 60 * 1000000000.

Definition DefaultConfig : Config := mkConfig "todos.json" (1 * Minute) "".

(** [time.Duration.String], which [MarshalText] returns: hours, minutes and
    seconds as in "72h3m0.5s", the minutes also when they are zero and
    hours are shown; a duration below a second in the largest of the units
    ns, µs, ms in which it is at least one; zero as "0s".  The fraction
    has no trailing zeros. *)
Definition fmtFrac (v : Z) (prec : nat) : string :=
  let f := v mod 10 ^ Z.of_nat prec in
  if f =? 0 then "" else String "." (fraction_digits prec f).

Definition fmtInt (v : Z) : string := digits_of 20 v "".

Definition micro_sign : string := String (ascii_of_N 194) (String (ascii_of_N 181) "").

Definition DurationString (d : Z) : string :=
  let u := Z.abs d in
  let text :=
    if u <? 1000000000 then
      if u =? 0 then "0s"
      else if u <? 1000 then fmtInt u +:+ "ns"
      else if u <? 1000000
           then String.concat "" [fmtInt (u / 1000); fmtFrac u 3; micro_sign; "s"]
      else String.concat "" [fmtInt (u / 1000000); fmtFrac u 6; "ms"]
    else
      let seconds := u / 1000000000 in
      let minutes := seconds / 60 in
      let hours := minutes / 60 in
      String.concat ""
        [if 0 <? hours then fmtInt hours +:+ "h" else "";
         if 0 <? minutes then fmtInt (minutes mod 60) +:+ "m" else "";
         fmtInt (seconds mod 60); fmtFrac u 9; "s"] in
  if d <? 0 then String "-" text else text.

(** The errors of [LoadConfig] and [SaveConfig]. *)
Inductive decode_error :=
  | DecodeJSON (e : json_error)          (* an error of [encoding/json] *)
  | InvalidDuration (text : string).     (* the error of [time.ParseDuration] *)

Inductive config_error :=
  | ErrSaveConfigFile (e : os_error)  (* "failed to save config to file: %w" *)
  | ErrCreateDefault (e : config_error) (* "failed to create default config: %w" *)
  | ErrLoadConfig (e : os_error)      (* "failed to load config: %w" *)
  | ErrParseConfig (e : decode_error). (* "failed to parse config: %w" *)

(** What [json.MarshalIndent] writes for a configuration: the duration as
    the text that [MarshalText] returns. *)
Definition marshalConfig (config : Config) : json :=
  JObject [("data_file", marshalString (DataFile config));
           ("auto_save_interval", marshalString (DurationString (AutoSaveInterval config)));
           ("log_file_path", marshalString (LogFilePath config))].

(** [SaveConfig]: the file system after the call, and the error. *)
Definition SaveConfig (config : Config) (configPath : string)
    (fs : gmap string node) : gmap string node * option config_error :=
  match WriteFile fs configPath (Document (marshalConfig config)) with
  | (fs', Some err) => (fs', Some (ErrSaveConfigFile err))
  | (fs', None) => (fs', None)
  end.

Section config.

(** [time.ParseDuration] is library code that computes with [float64]; it
    is taken as it is.  [None] stands for its errors. *)
Variable ParseDuration : string -> option Z.

(** [json.Unmarshal] into a [Config].  A value of the wrong kind is an error
    that is kept while the other members are still read, and returned at
    the end (the first, if there are several); an error of
    [UnmarshalText] ends the reading at once.  The state is the
    configuration so far and the error that is kept. *)
Definition keep_error (field : string) (saved : option json_error)
    : option json_error :=
  match saved with
  | Some e => Some e
  | None => Some (UnmarshalTypeError field)
  end.

Definition unmarshalConfigMember (m : string * json)
    (st : Config * option json_error)
    : Config * option json_error + Config * decode_error :=
  let '(key, v) := m in
  let '(config, saved) := st in
  if key_is "data_file" key then
    match v with
    | JNull => inl (config, saved)
    | JString s =>
        inl (mkConfig s (AutoSaveInterval config) (LogFilePath config), saved)
    | _ => inl (config, keep_error "data_file" saved)
    end
  else if key_is "auto_save_interval" key then
    match v with
    | JNull => inl (config, saved)
    | JString s =>
        match ParseDuration s with
        | Some d => inl (mkConfig (DataFile config) d (LogFilePath config), saved)
        | None => inr (config, InvalidDuration s)
        end
    | _ => inl (config, keep_error "auto_save_interval" saved)
    end
  else if key_is "log_file_path" key then
    match v with
    | JNull => inl (config, saved)
    | JString s =>
        inl (mkConfig (DataFile config) (AutoSaveInterval config) s, saved)
    | _ => inl (config, keep_error "log_file_path" saved)
    end
  else inl (config, saved).

Fixpoint unmarshalConfigMembers (members : list (string * json))
    (st : Config * option json_error) : Config * option decode_error :=
  match members with
  | [] => (st.1, DecodeJSON <$> st.2)
  | m :: rest =>
      match unmarshalConfigMember m st with
      | inl st' => unmarshalConfigMembers rest st'
      | inr (config, err) => (config, Some err)
      end
  end.

Definition UnmarshalConfig (data : content) (config : Config)
    : Config * option decode_error :=
  match data with
  | NotJSON _ => (config, Some (DecodeJSON SyntaxError))
  | Document JNull => (config, None)
  | Document (JObject members) => unmarshalConfigMembers members (config, None)
  | Document _ => (config, Some (DecodeJSON (UnmarshalTypeError "Config")))
  end.

(** [LoadConfig]: the file system after the call, the configuration and
    the error. *)
Definition LoadConfig (configPath : string) (fs : gmap string node)
    : gmap string node * Config * option config_error :=
  let config := DefaultConfig in
  match ReadFile fs configPath with
  | inr err =>
      if IsNotExist err then
        match SaveConfig config configPath fs with
        | (fs', Some err) => (fs', config, Some (ErrCreateDefault err))
        | (fs', None) => (fs', config, None)
        end
      else (fs, config, Some (ErrLoadConfig err))
  | inl data =>
      match UnmarshalConfig data config with
      | (config', Some err) => (fs, config', Some (ErrParseConfig err))
      | (config', None) => (fs, config', None)
      end
  end.

End config.

(** ** Observing what a load returns *)

(** A time stamp as [LoadFromFile] can return it: a reading of the
    calendar in a year of four digits, with a zone of at most 24 hours and
    60 minutes. *)
Definition loaded_time (t : Time) : Prop :=
  calendar_ok t = true /\ 0 <= year t <= 9999 /\ -1500 <= zone t <= 1500.

Definition loaded_todo (t : Todo) : Prop :=
  in_int (ID t) /\ loaded_time (CreatedAt t)
  /\ forall d, DueDate t = Some d -> loaded_time d.

(** The zones of the time stamps of a record are within a day. *)
Definition within_a_day (t : Todo) : Prop :=
  -1440 < zone (CreatedAt t) < 1440
  /\ forall d, DueDate t = Some d -> -1440 < zone d < 1440.
(** * Properties *)

(** ** Letter case *)

Lemma is_capital_code (c : ascii) :
  is_capital c <-> (65 <= N_of_ascii c <= 90)%N.
Proof.
  split.
  - unfold is_capital, capitals. simpl. intros H.
    repeat (apply elem_of_cons in H as [->|H]; [simpl; lia|]).
    by apply elem_of_nil in H.
  - intros H. unfold is_capital. rewrite <- (ascii_N_embedding c).
    assert (Hn : exists k, N_of_ascii c = N.of_nat (65 + k) /\ (k < 26)%nat).
    { exists (N.to_nat (N_of_ascii c) - 65)%nat. lia. }
    destruct Hn as (k & -> & Hk).
    do 26 (destruct k as [|k]; [apply (bool_decide_unpack _); by vm_compute|]). lia.
Qed.

Lemma letter_pairs_code (c1 c2 : ascii) :
  (c1, c2) ∈ letter_pairs
  <-> (65 <= N_of_ascii c1 <= 90)%N /\ N_of_ascii c2 = (N_of_ascii c1 + 32)%N.
Proof.
  split.
  - unfold letter_pairs, capitals, smalls. simpl. intros H.
    repeat (apply elem_of_cons in H as [[= -> ->]|H]; [simpl; lia|]).
    by apply elem_of_nil in H.
  - intros [H1 H2]. rewrite <- (ascii_N_embedding c1), <- (ascii_N_embedding c2), H2.
    assert (Hn : exists k, N_of_ascii c1 = N.of_nat (65 + k) /\ (k < 26)%nat).
    { exists (N.to_nat (N_of_ascii c1) - 65)%nat. lia. }
    destruct Hn as (k & -> & Hk).
    do 26 (destruct k as [|k]; [apply (bool_decide_unpack _); by vm_compute|]). lia.
Qed.

(** [lower_byte] keeps a byte that is no capital, and maps a capital to
    its small letter. *)
Lemma lower_byte_cases (c : ascii) :
  (~ is_capital c /\ lower_byte c = c)
  \/ (is_capital c /\ (c, lower_byte c) ∈ letter_pairs).
Proof.
  unfold lower_byte.
  destruct ((65 <=? N_of_ascii c)%N && (N_of_ascii c <=? 90)%N) eqn:Hc.
  - right. apply andb_true_iff in Hc as [H1%N.leb_le H2%N.leb_le].
    split; [by apply is_capital_code|]. apply letter_pairs_code.
    split; [done|]. by rewrite N_ascii_embedding by lia.
  - left. split; [|done]. rewrite is_capital_code.
    apply andb_false_iff in Hc as [H%N.leb_gt|H%N.leb_gt]; lia.
Qed.

Lemma lower_byte_same (c : ascii) : same_letter c (lower_byte c).
Proof.
  destruct (lower_byte_cases c) as [[_ ->]|[_ H]]; [by left | by right; left].
Qed.

Lemma lower_byte_small (c : ascii) : ~ is_capital (lower_byte c).
Proof.
  destruct (lower_byte_cases c) as [[H ->]|[_ H]]; [done|].
  apply letter_pairs_code in H as [H1 H2]. rewrite is_capital_code. lia.
Qed.

Lemma lower_byte_eq (c1 c2 : ascii) :
  lower_byte c1 = lower_byte c2 <-> same_letter c1 c2.
Proof.
  assert (Hinj : forall a b : ascii, N_of_ascii a = N_of_ascii b -> a = b).
  { intros a b H. by rewrite <- (ascii_N_embedding a), <- (ascii_N_embedding b), H. }
  split.
  - intros Heq.
    destruct (lower_byte_cases c1) as [[H1 E1]|[H1 P1]],
             (lower_byte_cases c2) as [[H2 E2]|[H2 P2]].
    + left. congruence.
    + right; right. by rewrite <- E1, Heq.
    + right; left. by rewrite <- E2, <- Heq.
    + left. apply letter_pairs_code in P1 as [_ P1], P2 as [_ P2].
      apply Hinj. rewrite Heq in P1. lia.
  - intros [->|[H|H]]; [done| |].
    + destruct (lower_byte_cases c1) as [[H1 _]|[_ P1]].
      { apply letter_pairs_code in H as [H _]. by apply is_capital_code in H. }
      destruct (lower_byte_cases c2) as [[_ ->]|[H2 _]].
      * apply letter_pairs_code in H as [_ H], P1 as [_ P1]. apply Hinj. lia.
      * apply is_capital_code in H2. apply letter_pairs_code in H as [H H']. lia.
    + destruct (lower_byte_cases c2) as [[H2 _]|[_ P2]].
      { apply letter_pairs_code in H as [H _]. by apply is_capital_code in H. }
      destruct (lower_byte_cases c1) as [[_ ->]|[H1 _]].
      * apply letter_pairs_code in H as [_ H], P2 as [_ P2]. apply Hinj. lia.
      * apply is_capital_code in H1. apply letter_pairs_code in H as [H H']. lia.
Qed.

(** [ToLower s] is the text that is equal to [s], letter case aside, and
    has no capital letter. *)
Lemma ToLower_fold (s : string) : equal_fold s (ToLower s) /\ no_capital (ToLower s).
Proof.
  induction s as [|c s [IH1 IH2]]; simpl.
  - split; [done | constructor].
  - split; [split; [apply lower_byte_same | done]|].
    constructor; [apply lower_byte_small | done].
Qed.

Lemma ToLower_eq_fold (s1 s2 : string) :
  ToLower s1 = ToLower s2 <-> equal_fold s1 s2.
Proof.
  revert s2. induction s1 as [|c1 s1 IH]; intros [|c2 s2]; simpl; try done.
  rewrite <- IH, <- lower_byte_eq. split; [by intros [= -> ->] | by intros [-> ->]].
Qed.

Lemma ToLower_spec (s r : string) :
  ToLower s = r <-> equal_fold s r /\ no_capital r.
Proof.
  split; [intros <-; apply ToLower_fold|]. intros [Hf Hn].
  apply ToLower_eq_fold in Hf. rewrite Hf. clear Hf.
  induction r as [|c r IH]; [done|]. simpl.
  apply Forall_cons in Hn as [Hc Hn]. rewrite IH by done. f_equal.
  by destruct (lower_byte_cases c) as [[_ ->]|[H _]].
Qed.

Lemma ToLower_length (s : string) : String.length (ToLower s) = String.length s.
Proof. induction s as [|c s IH]; simpl; [done | by rewrite IH]. Qed.

Lemma ToLower_append (a b : string) : ToLower (a +:+ b) = ToLower a +:+ ToLower b.
Proof. induction a as [|c a IH]; simpl; [done | by rewrite IH]. Qed.

(** A lower-cased text splits where the text does. *)
Lemma ToLower_split (s x y : string) :
  ToLower s = x +:+ y ->
  exists s1 s2, s = s1 +:+ s2 /\ ToLower s1 = x /\ ToLower s2 = y.
Proof.
  revert s. induction x as [|c x IH]; intros s.
  - intros H. by exists "", s.
  - destruct s as [|c' s]; [done|]. simpl. intros [= Hc Hs].
    destruct (IH s Hs) as (s1 & s2 & -> & H1 & H2).
    exists (String c' s1), s2. simpl. by rewrite Hc, H1.
Qed.

(** ** Substrings *)

Lemma prefix_spec (sub s : string) :
  String.prefix sub s = true <-> exists after, s = sub +:+ after.
Proof.
  revert s. induction sub as [|c sub IH]; intros [|c' s]; simpl.
  - split; [intros _; by exists "" | done].
  - split; [intros _; by exists (String c' s) | done].
  - split; [done|]. by intros [after H].
  - destruct (Ascii.ascii_dec c c') as [->|Hne].
    + rewrite IH. split.
      * intros [after ->]. by exists after.
      * intros [after [= ->]]. by exists after.
    + split; [done|]. intros [after [= -> _]]. done.
Qed.

(** [Contains s sub] holds exactly when [sub] is a piece of [s]. *)
Lemma Contains_spec (s sub : string) :
  Contains s sub = true <-> exists before after, s = before +:+ sub +:+ after.
Proof.
  induction s as [|c s IH].
  - cbn [Contains]. rewrite orb_false_r, prefix_spec. split.
    + intros [after H]. by exists "", after.
    + intros (before & after & H). destruct before; [by exists after|done].
  - cbn [Contains]. rewrite orb_true_iff, prefix_spec, IH. split.
    + intros [[after H]|(before & after & ->)].
      * by exists "", after.
      * by exists (String c before), after.
    + intros (before & after & H). destruct before as [|c' before].
      * left. by exists after.
      * right. injection H as -> ->. by exists before, after.
Qed.

(** The match of [SearchTasks] and of the tag filter: the lower-cased
    query is a piece of the lower-cased text exactly when the query occurs
    in the text, letter case aside. *)
Lemma Contains_fold (s query : string) :
  Contains (ToLower s) (ToLower query) = true <-> occurs_in query s.
Proof.
  rewrite Contains_spec. unfold occurs_in. split.
  - intros (x & y & H).
    apply ToLower_split in H as (before & rest & -> & <- & H).
    apply ToLower_split in H as (piece & after & -> & H & <-).
    exists before, piece, after. split; [done|]. by apply ToLower_eq_fold.
  - intros (before & piece & after & -> & H%ToLower_eq_fold).
    exists (ToLower before), (ToLower after).
    by rewrite !ToLower_append, H.
Qed.

(** ** Instants and the calendar *)

Lemma new_year (y : Z) :
  days_from_civil (y + 1) 1 1
  = days_from_civil y 1 1 + 365 + (if is_leap y then 1 else 0).
Proof.
  unfold days_from_civil, is_leap. simpl.
  replace (y + 1 - 1) with y by lia.
  destruct (Z.eqb_spec (y mod 4) 0), (Z.eqb_spec (y mod 100) 0),
    (Z.eqb_spec (y mod 400) 0); simpl; Z.div_mod_to_equations; lia.
Qed.

(** The day [d] of the month [m] is the day of the first of January plus
    the days of the months before [m], plus [d - 1]. *)
Lemma days_from_civil_months (y m d : Z) :
  1 <= m <= 12 ->
  days_from_civil y m d
  = days_from_civil y 1 1
    + foldr Z.add 0 (days_in y <$> seqZ 1 (m - 1)) + d - 1.
Proof.
  intros Hm.
  assert (Hc : m = 1 \/ m = 2 \/ m = 3 \/ m = 4 \/ m = 5 \/ m = 6 \/ m = 7
               \/ m = 8 \/ m = 9 \/ m = 10 \/ m = 11 \/ m = 12) by lia.
  unfold days_from_civil, days_in, is_leap.
  repeat destruct Hc as [->|Hc]; try subst m; simpl;
    destruct (Z.eqb_spec (y mod 4) 0), (Z.eqb_spec (y mod 100) 0),
      (Z.eqb_spec (y mod 400) 0); simpl; Z.div_mod_to_equations; lia.
Qed.

Lemma calendar_ok_bounds (t : Time) :
  calendar_ok t = true ->
  1 <= month t <= 12 /\ 1 <= day t <= days_in (year t) (month t)
  /\ 0 <= hour t < 24 /\ 0 <= minute t < 60 /\ 0 <= second t < 60
  /\ 0 <= nanosecond t < 1000000000.
Proof.
  unfold calendar_ok. rewrite !andb_true_iff, !Z.leb_le, !Z.ltb_lt. lia.
Qed.

Lemma days_before_month (y m1 m2 : Z) :
  1 <= m1 -> m1 < m2 -> m2 <= 12 ->
  foldr Z.add 0 (days_in y <$> seqZ 1 (m1 - 1)) + days_in y m1
  <= foldr Z.add 0 (days_in y <$> seqZ 1 (m2 - 1)).
Proof.
  intros H1 H12 H2.
  assert (Hc1 : m1 = 1 \/ m1 = 2 \/ m1 = 3 \/ m1 = 4 \/ m1 = 5 \/ m1 = 6 \/ m1 = 7
               \/ m1 = 8 \/ m1 = 9 \/ m1 = 10 \/ m1 = 11) by lia.
  assert (Hc2 : m2 = 2 \/ m2 = 3 \/ m2 = 4 \/ m2 = 5 \/ m2 = 6 \/ m2 = 7
               \/ m2 = 8 \/ m2 = 9 \/ m2 = 10 \/ m2 = 11 \/ m2 = 12) by lia.
  unfold days_in.
  repeat destruct Hc1 as [->|Hc1]; try subst m1;
    repeat destruct Hc2 as [->|Hc2]; try subst m2; try lia;
    simpl; destruct (is_leap y); lia.
Qed.

Lemma days_of_year (y m d : Z) :
  1 <= m <= 12 -> 1 <= d <= days_in y m ->
  0 <= foldr Z.add 0 (days_in y <$> seqZ 1 (m - 1)) + d - 1
    < 365 + (if is_leap y then 1 else 0).
Proof.
  intros Hm Hd.
  assert (Hc : m = 1 \/ m = 2 \/ m = 3 \/ m = 4 \/ m = 5 \/ m = 6 \/ m = 7
               \/ m = 8 \/ m = 9 \/ m = 10 \/ m = 11 \/ m = 12) by lia.
  unfold days_in in *.
  repeat destruct Hc as [->|Hc]; try subst m; simpl in *;
    destruct (is_leap y); lia.
Qed.

Lemma new_years (y1 y2 : Z) :
  y1 <= y2 -> days_from_civil y1 1 1 + 365 * (y2 - y1) <= days_from_civil y2 1 1.
Proof.
  intros H. replace y2 with (y1 + Z.of_nat (Z.to_nat (y2 - y1))) by lia.
  generalize (Z.to_nat (y2 - y1)) as n. clear. intros n.
  induction n as [|n IH]; [rewrite Z.add_0_r; lia|].
  replace (y1 + Z.of_nat (S n)) with (y1 + Z.of_nat n + 1) by lia.
  rewrite new_year. destruct (is_leap _); lia.
Qed.

(** A later day of the calendar is a later day since the epoch. *)
Lemma days_from_civil_lt (y1 m1 d1 y2 m2 d2 : Z) :
  1 <= m1 <= 12 -> 1 <= d1 <= days_in y1 m1 ->
  1 <= m2 <= 12 -> 1 <= d2 <= days_in y2 m2 ->
  reads_before [y1; m1; d1] [y2; m2; d2] ->
  days_from_civil y1 m1 d1 < days_from_civil y2 m2 d2.
Proof.
  intros Hm1 Hd1 Hm2 Hd2 Hlt.
  rewrite (days_from_civil_months y1 m1 d1), (days_from_civil_months y2 m2 d2) by done.
  pose proof (days_of_year y1 m1 d1 Hm1 Hd1) as B1.
  pose proof (days_of_year y2 m2 d2 Hm2 Hd2) as B2.
  simpl in Hlt. destruct Hlt as [Hy|[-> [Hm|[-> [Hd|[_ []]]]]]].
  - pose proof (new_years (y1 + 1) y2 ltac:(lia)) as Hy2.
    rewrite new_year in Hy2. destruct (is_leap y1); lia.
  - pose proof (days_before_month y2 m1 m2 ltac:(lia) Hm ltac:(lia)). lia.
  - lia.
Qed.

Lemma reads_before_total (r1 r2 : list Z) :
  length r1 = length r2 -> reads_before r1 r2 \/ r1 = r2 \/ reads_before r2 r1.
Proof.
  revert r2. induction r1 as [|x r1 IH]; intros [|y r2]; simpl; try done.
  - by right; left.
  - intros [= Hlen]. destruct (Z.lt_total x y) as [?|[->|?]]; [by left; left| |by right; right; left].
    destruct (IH r2 Hlen) as [?|[->|?]]; [left|right; left|right; right]; auto.
Qed.

Lemma unixNano_lt (t u : Time) :
  calendar_ok t = true -> calendar_ok u = true -> zone t = zone u ->
  earlier t u -> unixNano t < unixNano u.
Proof.
  intros (Hm1 & Hd1 & ? & ? & ? & ?)%calendar_ok_bounds
         (Hm2 & Hd2 & ? & ? & ? & ?)%calendar_ok_bounds Hz Hlt.
  unfold unixNano. rewrite Hz. unfold earlier, reading in Hlt.
  assert (Hdays : reads_before [year t; month t; day t] [year u; month u; day u]
                  \/ (year t = year u /\ month t = month u /\ day t = day u)).
  { simpl in Hlt |- *. tauto. }
  destruct Hdays as [Hdays|(Hy & Hmo & Hd)].
  - pose proof (days_from_civil_lt _ _ _ _ _ _ Hm1 Hd1 Hm2 Hd2 Hdays). lia.
  - rewrite Hy, Hmo, Hd in *. simpl in Hlt. lia.
Qed.

(** For two readings in the same zone, the earlier instant is the earlier
    reading of calendar and clock. *)
Lemma unixNano_earlier (t u : Time) :
  calendar_ok t = true -> calendar_ok u = true -> zone t = zone u ->
  unixNano t < unixNano u <-> earlier t u.
Proof.
  intros Ht Hu Hz. split; [|by apply unixNano_lt].
  intros Hlt. destruct (reads_before_total (reading t) (reading u) eq_refl)
    as [?|[Heq|Hgt]]; [done| |].
  - injection Heq as ? ? ? ? ? ? ?. unfold unixNano in Hlt.
    destruct t, u; simpl in *; subst. lia.
  - apply (unixNano_lt u t) in Hgt; [lia|done..].
Qed.

(** The day after a day of the calendar is a day of the calendar, and is
    one day later. *)
Lemma tomorrow_next (y m d : Z) :
  calendar_ok (date y m d) = true ->
  calendar_ok (tomorrow y m d) = true
  /\ unixNano (tomorrow y m d) = unixNano (date y m d) + 86400 * 1000000000.
Proof.
  intros (Hm & Hd & _)%calendar_ok_bounds. simpl in Hm, Hd.
  assert (Hdays : 28 <= days_in y m <= 31).
  { unfold days_in. repeat destruct (_ =? _); simpl; try lia. destruct (is_leap y); lia. }
  unfold tomorrow. destruct (Z.ltb_spec d (days_in y m)).
  - split.
    + unfold calendar_ok. simpl. rewrite !andb_true_iff, !Z.leb_le. lia.
    + unfold unixNano. simpl.
      rewrite (days_from_civil_months y m (d + 1)), (days_from_civil_months y m d) by done.
      lia.
  - destruct (Z.ltb_spec m 12).
    + split.
      * unfold calendar_ok. simpl. rewrite !andb_true_iff, !Z.leb_le.
        assert (28 <= days_in y (m + 1)); [|lia].
        unfold days_in. repeat destruct (_ =? _); simpl; try lia.
        destruct (is_leap y); lia.
      * unfold unixNano. simpl.
        rewrite (days_from_civil_months y (m + 1) 1), (days_from_civil_months y m d) by lia.
        assert (Hc : m = 1 \/ m = 2 \/ m = 3 \/ m = 4 \/ m = 5 \/ m = 6 \/ m = 7
                     \/ m = 8 \/ m = 9 \/ m = 10 \/ m = 11) by lia.
        unfold days_in in *.
        repeat destruct Hc as [->|Hc]; try subst m; simpl in *;
          destruct (is_leap y); lia.
    + assert (m = 12) as -> by lia. assert (d = 31) as ->.
      { unfold days_in in *. simpl in *. lia. }
      split; [done|]. unfold unixNano. simpl year. simpl month. simpl day.
      rewrite new_year, (days_from_civil_months y 12 31) by lia.
      unfold days_in. simpl. destruct (is_leap y); lia.
Qed.

(** ** Locating a record *)

Lemma find_id_split (id : Z) (l : list Todo) (i : nat) (t : Todo) :
  find_id id l = Some (i, t) ->
  exists l1 l2, l = l1 ++ t :: l2 /\ length l1 = i /\ ID t = id
                /\ Forall (fun x => ID x <> id) l1.
Proof.
  unfold find_id. intros (Hi & Hid & Hleast)%list_find_Some.
  exists (take i l), (drop (S i) l). split_and!.
  - by rewrite take_drop_middle.
  - apply length_take_le. apply lookup_lt_Some in Hi. lia.
  - done.
  - apply Forall_lookup. intros j x Hj.
    apply lookup_take_Some in Hj as [Hj Hlt]. by eapply Hleast.
Qed.

Lemma find_id_none (id : Z) (l : list Todo) :
  find_id id l = None <-> Forall (fun x => ID x <> id) l.
Proof. unfold find_id. apply list_find_None. Qed.

Lemma find_id_some (id : Z) (l : list Todo) :
  Exists (fun x => ID x = id) l -> exists i t, find_id id l = Some (i, t).
Proof.
  intros (x & Hx & Hid)%Exists_exists.
  destruct (list_find_elem_of (fun t => ID t = id) l x Hx Hid) as [[i t] H].
  by exists i, t.
Qed.

Lemma take_drop_at {A} (l1 l2 : list A) (x : A) :
  take (length l1) (l1 ++ x :: l2) ++ drop (S (length l1)) (l1 ++ x :: l2)
  = l1 ++ l2.
Proof.
  rewrite take_app_length.
  replace (S (length l1)) with (length (l1 ++ [x])) by (rewrite length_app; simpl; lia).
  by rewrite (cons_middle x l1 l2), app_assoc, drop_app_length.
Qed.

Lemma alter_at {A} (f : A -> A) (l1 l2 : list A) (x : A) :
  list_alter f (length l1) (l1 ++ x :: l2) = l1 ++ f x :: l2.
Proof. induction l1 as [|y l1 IH]; simpl; [done | by rewrite IH]. Qed.

Lemma todos_has_slice (tl : TodoList) (t : Todo) :
  t ∈ todos tl -> Todos tl = Some (todos tl).
Proof.
  unfold todos. destruct (Todos tl) as [l|]; simpl; [done|].
  intros H. by apply elem_of_nil in H.
Qed.

(** ** Delete *)

Lemma Delete_found (tl : TodoList) (id : Z) :
  Exists (fun t => ID t = id) (todos tl) ->
  exists l1 d l2,
    todos tl = l1 ++ d :: l2 /\ ID d = id /\ Forall (fun t => ID t <> id) l1 /\
    Delete id tl = (mkTodoList (Some (l1 ++ l2)) (NextID tl), inl d).
Proof.
  intros (i & t & Hfind)%find_id_some.
  destruct (find_id_split _ _ _ _ Hfind) as (l1 & l2 & Hl & Hlen & Hid & Hbefore).
  exists l1, t, l2. split_and!; try done.
  unfold Delete. rewrite Hfind, Hl, <- Hlen. by rewrite take_drop_at.
Qed.

Lemma Delete_absent (tl : TodoList) (id : Z) :
  Forall (fun t => ID t <> id) (todos tl) ->
  Delete id tl = (tl, inr (ErrNotFound id)).
Proof. intros Hnone%find_id_none. unfold Delete. by rewrite Hnone. Qed.

(** C5. If some record has identifier [id], [Delete id] removes one record
    with that identifier (the first), keeps the others in their order, keeps
    the counter and returns the removed record; if no record has identifier
    [id], the collection is returned as it was, with the error NotFound. *)
Theorem Delete_removes_one_or_nothing (tl : TodoList) (id : Z) :
  (Exists (fun t => ID t = id) (todos tl) ->
   exists l1 d l2,
     todos tl = l1 ++ d :: l2 /\ ID d = id /\ Forall (fun t => ID t <> id) l1 /\
     Delete id tl = (mkTodoList (Some (l1 ++ l2)) (NextID tl), inl d))
  /\
  (Forall (fun t => ID t <> id) (todos tl) ->
   Delete id tl = (tl, inr (ErrNotFound id))).
Proof. split; [apply Delete_found | apply Delete_absent]. Qed.

Lemma Delete_removes_one_or_nothing_witness :
  (exists l1 d l2,
     todos three_tasks = l1 ++ d :: l2 /\ ID d = 2 /\ Forall (fun t => ID t <> 2) l1 /\
     Delete 2 three_tasks = (mkTodoList (Some (l1 ++ l2)) (NextID three_tasks), inl d))
  /\ Delete 99 three_tasks = (three_tasks, inr (ErrNotFound 99)).
Proof.
  split.
  - apply (proj1 (Delete_removes_one_or_nothing three_tasks 2)).
    apply Exists_cons_tl, Exists_cons_hd. reflexivity.
  - apply (proj2 (Delete_removes_one_or_nothing three_tasks 99)).
    repeat constructor; simpl; lia.
Defined.

(** The run of [TestDelete]. *)
Example Delete_test :
  Delete 2 three_tasks
  = (mkTodoList (Some [plain 1 "Task 1"; plain 3 "Task 3"]) 4, inl (plain 2 "Task 2")).
Proof. reflexivity. Qed.

(** ** EditTask *)

(** C10. When the collection has a record with identifier [id],
    [EditTask id newTask] succeeds and replaces the description of one such
    record (the first) by [newTask], the empty text included; the records
    before and after it, their number and order, the counter, and the other
    six fields of the edited record are as they were. *)
Theorem EditTask_changes_only_the_task (tl : TodoList) (id : Z) (newTask : string) :
  Exists (fun t => ID t = id) (todos tl) ->
  exists l1 d d' l2,
    todos tl = l1 ++ d :: l2 /\ ID d = id /\ Forall (fun t => ID t <> id) l1 /\
    EditTask id newTask tl
      = (mkTodoList (Some (l1 ++ d' :: l2)) (NextID tl), None) /\
    Task d' = newTask /\
    ID d' = ID d /\ Completed d' = Completed d /\ CreatedAt d' = CreatedAt d /\
    Priority d' = Priority d /\ DueDate d' = DueDate d /\ Tags d' = Tags d.
Proof.
  intros Hex. pose proof Hex as (i & t & Hfind)%find_id_some.
  destruct (find_id_split _ _ _ _ Hfind) as (l1 & l2 & Hl & Hlen & Hid & Hbefore).
  exists l1, t, (set_Task newTask t), l2. split_and!; try done.
  unfold EditTask. rewrite Hfind.
  assert (Hs : Todos tl = Some (todos tl)).
  { apply (todos_has_slice tl t). rewrite Hl. set_solver. }
  rewrite Hs. simpl. by rewrite Hl, <- Hlen, alter_at.
Qed.

Lemma EditTask_changes_only_the_task_witness :
  exists l1 d d' l2,
    todos three_tasks = l1 ++ d :: l2 /\ ID d = 2 /\ Forall (fun t => ID t <> 2) l1 /\
    EditTask 2 "" three_tasks
      = (mkTodoList (Some (l1 ++ d' :: l2)) (NextID three_tasks), None) /\
    Task d' = "" /\
    ID d' = ID d /\ Completed d' = Completed d /\ CreatedAt d' = CreatedAt d /\
    Priority d' = Priority d /\ DueDate d' = DueDate d /\ Tags d' = Tags d.
Proof.
  apply (EditTask_changes_only_the_task three_tasks 2 "").
  apply Exists_cons_tl, Exists_cons_hd. reflexivity.
Defined.

(** ** SearchTasks *)

Lemma elems_append {A} (s : slice A) (xs : list A) :
  elems (append s xs) = elems s ++ xs.
Proof. destruct s, xs; simpl; try done. Qed.

Lemma search_tags_elems (q : string) (t : Todo) (tags : list string) (m : slice Todo) :
  elems (search_tags q t tags m)
  = elems m ++ (if existsb (fun tag => Contains (ToLower tag) q) tags then [t] else []).
Proof.
  induction tags as [|tag tags IH]; simpl.
  - by rewrite app_nil_r.
  - destruct (Contains (ToLower tag) q); simpl; [apply elems_append | apply IH].
Qed.

#[export] Instance occurs_in_dec (query s : string) : Decision (occurs_in query s).
Proof.
  refine (cast_if (decide (Contains (ToLower s) (ToLower query) = true)));
    by rewrite <- Contains_fold.
Defined.

#[export] Instance matches_query_dec query t : Decision (matches_query query t).
Proof. unfold matches_query. apply _. Defined.

Lemma SearchTasks_loop (q : string) (l : list Todo) (m : slice Todo) :
  elems (foldl (fun matched todo =>
                  if Contains (ToLower (Task todo)) (ToLower q)
                  then append matched [todo]
                  else search_tags (ToLower q) todo (elems (Tags todo)) matched)
               m l)
  = elems m ++ filter (matches_query q) l.
Proof.
  revert m. induction l as [|t l IH]; intros m; simpl.
  - by rewrite app_nil_r.
  - rewrite IH, filter_cons.
    destruct (Contains (ToLower (Task t)) (ToLower q)) eqn:Htask.
    + rewrite elems_append, decide_True by (left; by apply Contains_fold).
      by rewrite <- app_assoc.
    + rewrite search_tags_elems.
      destruct (existsb _ (elems (Tags t))) eqn:Htags.
      * rewrite decide_True, <- app_assoc; [done|].
        right. apply existsb_exists in Htags as (tag & Hin & Hc).
        apply Exists_exists. exists tag. rewrite list_elem_of_In.
        split; [done|]. by apply Contains_fold.
      * rewrite decide_False, app_nil_r; [done|].
        intros [Hc%Contains_fold | (tag & Hin & Hc%Contains_fold)%Exists_exists];
          [congruence|].
        assert (existsb (fun tag => Contains (ToLower tag) (ToLower q)) (elems (Tags t)) = true);
          [|congruence].
        apply existsb_exists. exists tag. by rewrite <- list_elem_of_In.
Qed.

(** C9. [SearchTasks] leaves the collection it searches as it is, and the
    counter of its result is 1 whatever that of the source; the records of
    the result are records of the source in the order of the source.  For a
    query and records in ASCII they are exactly the matching records, each
    as often as the source holds it (once also when both the description
    and a tag match): a record matches when the query occurs, letter case
    aside, in its description or in one of its tags. *)
Theorem SearchTasks_filters (tl : TodoList) (query : string) :
  fst (SearchTasks query tl) = tl
  /\ NextID (snd (SearchTasks query tl)) = 1
  /\ todos (snd (SearchTasks query tl)) `sublist_of` todos tl
  /\ (is_ascii query = true -> Forall ascii_todo (todos tl) ->
      todos (snd (SearchTasks query tl)) = filter (matches_query query) (todos tl)).
Proof.
  assert (H : todos (snd (SearchTasks query tl))
              = filter (matches_query query) (todos tl)).
  { unfold SearchTasks, todos at 1; simpl. by rewrite SearchTasks_loop. }
  split_and!; try done.
  rewrite H. apply sublist_filter.
Qed.

(** The query "WORK" occurs in the description of the second record and in
    one of its tags, and in a tag of the third: both are found, the second
    once. *)
Lemma SearchTasks_filters_witness :
  todos (snd (SearchTasks "WORK" office))
  = [tagged 2 "Work on report" ["work"; "urgent"];
     tagged 3 "Review code" ["Work"; "code"]].
Proof.
  destruct (SearchTasks_filters office "WORK") as (_ & _ & _ & H).
  rewrite H.
  - reflexivity.
  - reflexivity.
  - repeat constructor.
Defined.

(** The second record matches "work" in its description and in a tag, and
    is listed once; the source has counter 7, the result 1. *)
Example SearchTasks_office :
  SearchTasks "work" office
  = (office,
     mkTodoList (Some [tagged 2 "Work on report" ["work"; "urgent"];
                       tagged 3 "Review code" ["Work"; "code"]]) 1).
Proof. reflexivity. Qed.

(** ** The runs of the unit tests of the repository *)

(** [TestAdd]: the priority is made canonical whatever its letter case. *)
Example Add_test :
  let tl := Add "Case-insensitive task" "hIgH" None None noon
              (Add "Buy groceries" "high" (Some (date 2024 12 25))
                   (Some ["personal"; "shopping"]) morning NewTodoList) in
  (fun t => (ID t, Task t, Priority t)) <$> todos tl
  = [(1, "Buy groceries", "high"); (2, "Case-insensitive task", "high")]
  /\ NextID tl = 3.
Proof. vm_compute. done. Qed.

(** [TestAdd_InvalidPriority]: an unknown priority becomes "medium". *)
Example Add_invalid_priority_test :
  let tl := Add "Task with invalid priority" "Urgent" (Some (date 2024 12 25))
              (Some ["test"]) morning NewTodoList in
  Priority <$> todos tl = ["medium"] /\ NextID tl = 2.
Proof. vm_compute. done. Qed.

(** [TestComplete] and [TestUncomplete]. *)
Example Complete_test :
  let tl1 := (Complete 1 three_tasks).1 in
  Completed <$> todos tl1 = [true; false; false]
  /\ (Complete 99 three_tasks).2 = Some (ErrNotFound 99)
  /\ Completed <$> todos (Uncomplete 1 tl1).1 = [false; false; false]
  /\ (Uncomplete 99 tl1).2 = Some (ErrNotFound 99).
Proof. vm_compute. done. Qed.

(** [TestEditTask]. *)
Example EditTask_test :
  Task <$> todos (EditTask 1 "Edited Task Description" three_tasks).1
  = ["Edited Task Description"; "Task 2"; "Task 3"]
  /\ (EditTask 99 "Nonexistent Task" three_tasks).2 = Some (ErrNotFound 99).
Proof. vm_compute. done. Qed.

(** [TestClearCompleted]: records 1 and 3 are completed and cleared; a
    collection without completed records, and an empty one, are left as
    they are. *)
Example ClearCompleted_test :
  let tl := (Complete 3 (Complete 1 three_tasks).1).1 in
  ID <$> todos (ClearCompleted tl).1 = [2]
  /\ (ClearCompleted tl).2 = MsgCleared 2
  /\ ClearCompleted three_tasks = (three_tasks, MsgNoCompleted)
  /\ ClearCompleted NewTodoList = (NewTodoList, MsgNoCompleted).
Proof. vm_compute. done. Qed.

(** [TestListWithFilteringAndSorting]: the filters. *)
Example List_filter_test :
  let tl := (Complete 1 test_list).1 in
  Task <$> List (mkListOptions "completed" "" None "" "") tl = ["Task B Low"]
  /\ Task <$> List (mkListOptions "" "hIgH" None "" "") tl = ["Task A High"]
  /\ Task <$> List (mkListOptions "" "" (Some ["urgent"]) "" "") tl = ["Task C Med"].
Proof. vm_compute. done. Qed.

(** ** What each operation does to the records and to the counter *)

Lemma elems_modify {A} (i : nat) (f : A -> A) (s : slice A) :
  elems (modify i f s) = list_alter f i (elems s).
Proof. by destruct s. Qed.

Lemma map_ID_alter (f : Todo -> Todo) (i : nat) (l : list Todo) :
  (forall t, ID (f t) = ID t) -> ID <$> list_alter f i l = ID <$> l.
Proof.
  intros Hf. revert i. induction l as [|t l IH]; intros [|i]; csimpl; try done.
  - by rewrite Hf.
  - f_equal. apply IH.
Qed.

Lemma Complete_ids (id : Z) (tl : TodoList) :
  ID <$> todos (Complete id tl).1 = ID <$> todos tl
  /\ NextID (Complete id tl).1 = NextID tl.
Proof.
  unfold Complete. destruct (find_id id (todos tl)) as [[i t]|]; simpl; [|done].
  unfold todos; simpl. by rewrite elems_modify, map_ID_alter.
Qed.

Lemma Uncomplete_ids (id : Z) (tl : TodoList) :
  ID <$> todos (Uncomplete id tl).1 = ID <$> todos tl
  /\ NextID (Uncomplete id tl).1 = NextID tl.
Proof.
  unfold Uncomplete. destruct (find_id id (todos tl)) as [[i t]|]; simpl; [|done].
  unfold todos; simpl. by rewrite elems_modify, map_ID_alter.
Qed.

Lemma EditTask_ids (id : Z) (s : string) (tl : TodoList) :
  ID <$> todos (EditTask id s tl).1 = ID <$> todos tl
  /\ NextID (EditTask id s tl).1 = NextID tl.
Proof.
  unfold EditTask. destruct (find_id id (todos tl)) as [[i t]|]; simpl; [|done].
  unfold todos; simpl. by rewrite elems_modify, map_ID_alter.
Qed.

Lemma Delete_cases (id : Z) (tl : TodoList) :
  Delete id tl = (tl, inr (ErrNotFound id)) \/
  exists l1 d l2, todos tl = l1 ++ d :: l2 /\ ID d = id /\
    Delete id tl = (mkTodoList (Some (l1 ++ l2)) (NextID tl), inl d).
Proof.
  destruct (decide (Exists (fun t => ID t = id) (todos tl))) as [Hex|Hno].
  - right. apply Delete_found in Hex as (l1 & d & l2 & ? & ? & ? & ?).
    by exists l1, d, l2.
  - left. apply Delete_absent. apply Forall_forall. intros t Ht Hid.
    apply Hno, Exists_exists. by exists t.
Qed.

Lemma filter_full {A} (P : A -> Prop) `{forall x, Decision (P x)} (l : list A) :
  (length l <= length (filter P l))%nat -> filter P l = l.
Proof.
  induction l as [|x l IH]; [done|]. rewrite filter_cons.
  destruct (decide (P x)); simpl; intros Hlen.
  - f_equal. apply IH. lia.
  - pose proof (length_filter P l). lia.
Qed.

Lemma active_loop (l : list Todo) (acc : slice Todo) :
  elems (foldl (fun active todo =>
                  if negb (Completed todo) then append active [todo] else active)
               acc l)
  = elems acc ++ filter (fun t => Completed t = false) l.
Proof.
  revert acc. induction l as [|t l IH]; intros acc; simpl.
  - by rewrite app_nil_r.
  - rewrite IH, filter_cons.
    destruct (decide (Completed t = false)) as [Hc|Hc].
    + by rewrite Hc; simpl; rewrite elems_append, <- app_assoc.
    + by apply not_false_is_true in Hc; rewrite Hc.
Qed.

Lemma ClearCompleted_todos (tl : TodoList) :
  todos (ClearCompleted tl).1 = filter (fun t => Completed t = false) (todos tl)
  /\ NextID (ClearCompleted tl).1 = NextID tl.
Proof.
  unfold ClearCompleted. pose proof (active_loop (todos tl) None) as H. simpl in H.
  destruct (_ <? _)%nat eqn:Hlt; simpl.
  - by unfold todos at 1.
  - split; [|done]. rewrite H in Hlt. apply Nat.ltb_ge in Hlt.
    symmetry. by apply filter_full.
Qed.

(** ** The identifiers of a session *)

Lemma wrap_small (z : Z) : int_min <= z <= int_max -> wrap z = z.
Proof.
  unfold wrap, int_min, int_max. intros H.
  rewrite Z.mod_small by lia. lia.
Qed.

Lemma consistent_shrink (w : world) (tl' : TodoList) (st' : lastAction)
    (out : list message) :
  consistent w ->
  ids tl' `sublist_of` ids (todoList w) ->
  NextID tl' = NextID (todoList w) ->
  st' = lastActionState w \/ Type_ st' <> ActionDelete ->
  consistent (mkWorld tl' st' out).
Proof.
  intros [Hpos Hnd Hbelow Hundo] Hsub Hnext Hst.
  split; simpl; rewrite ?Hnext.
  - done.
  - by eapply sublist_NoDup.
  - apply Forall_forall. intros i Hi. rewrite Forall_forall in Hbelow.
    apply Hbelow. by eapply elem_of_sublist.
  - intros d Hty Hd. destruct Hst as [-> | Hne]; [|done].
    destruct (Hundo d Hty Hd) as [Hfresh Hrange]. split; [|done].
    intros Hin. apply Hfresh. by eapply elem_of_sublist.
Qed.

Lemma consistent_say (w : world) (m : message) :
  consistent w -> consistent (say m w).
Proof. intros H. apply (consistent_shrink w); [done..|by left]. Qed.

Lemma consistent_forget (w : world) (out : list message) :
  consistent w -> consistent (mkWorld (todoList w) noAction out).
Proof. intros H. apply (consistent_shrink w); [done..|by right]. Qed.

Lemma ids_Delete_found (l1 l2 : list Todo) (n : Z) :
  ids (mkTodoList (Some (l1 ++ l2)) n) = (ID <$> l1) ++ (ID <$> l2).
Proof. unfold ids, todos; simpl. apply fmap_app. Qed.

Lemma ids_split (tl : TodoList) (l1 l2 : list Todo) (d : Todo) :
  todos tl = l1 ++ d :: l2 -> ids tl = (ID <$> l1) ++ ID d :: (ID <$> l2).
Proof. unfold ids. intros ->. by rewrite fmap_app. Qed.

Lemma ids_append (tl : TodoList) (t : Todo) (n : Z) :
  ids (mkTodoList (append (Todos tl) [t]) n) = ids tl ++ [ID t].
Proof. unfold ids, todos; simpl. by rewrite elems_append, fmap_app. Qed.

(** Appending a record whose identifier is new, in one of the two ways the
    program does: with the counter as its identifier, or from the undo
    record of a delete. *)
Lemma consistent_append (w : world) (t : Todo) (n : Z) (st' : lastAction)
    (out : list message) :
  consistent w ->
  ~ ID t ∈ ids (todoList w) -> 1 <= ID t < n -> NextID (todoList w) <= n ->
  Type_ st' <> ActionDelete ->
  consistent (mkWorld (mkTodoList (append (Todos (todoList w)) [t]) n) st' out).
Proof.
  intros [Hpos Hnd Hbelow Hundo] Hfresh Hrange Hn Hst.
  split; simpl; rewrite ?ids_append.
  - lia.
  - apply NoDup_app. split_and!; [done| |apply NoDup_singleton].
    intros i Hi ->%list_elem_of_singleton. done.
  - apply Forall_app. split; [|by apply Forall_singleton].
    eapply Forall_impl; [exact Hbelow|]. simpl. intros; lia.
  - done.
Qed.

Lemma consistent_Delete (w : world) (id : Z) (tl' : TodoList) (r : Todo + error)
    (out : list message) :
  consistent w -> Delete id (todoList w) = (tl', r) ->
  consistent (mkWorld tl'
    match r with
    | inl deletedTodo => mkLastAction ActionDelete id (Some deletedTodo) false
    | inr _ => lastActionState w
    end out)
  /\ NextID tl' = NextID (todoList w)
  /\ ids tl' `sublist_of` ids (todoList w).
Proof.
  intros Hc Hdel. destruct (Delete_cases id (todoList w)) as [Hno | (l1 & d & l2 & Hl & Hid & Hyes)].
  - rewrite Hno in Hdel. injection Hdel as <- <-. split_and!; [|done..].
    apply (consistent_shrink w); auto.
  - rewrite Hyes in Hdel. injection Hdel as <- <-.
    pose proof (ids_split _ _ _ _ Hl) as Hids.
    assert (Hsub : ids (mkTodoList (Some (l1 ++ l2)) (NextID (todoList w)))
                   `sublist_of` ids (todoList w)).
    { rewrite ids_Delete_found, Hids.
      apply sublist_app; [done|]. by apply sublist_cons. }
    split_and!; [|done..].
    destruct Hc as [Hpos Hnd Hbelow Hundo]. split; simpl.
    + done.
    + by eapply sublist_NoDup.
    + apply Forall_forall. intros i Hi. rewrite Forall_forall in Hbelow.
      apply Hbelow. by eapply elem_of_sublist.
    + intros d' _ [= <-]. rewrite Hids in Hnd, Hbelow.
      apply NoDup_app in Hnd as (Hnd1 & Hdisj & Hnd2).
      apply NoDup_cons in Hnd2 as [Hd2 Hnd2].
      split.
      * rewrite ids_Delete_found. intros [Hin|Hin]%elem_of_app; [|done].
        apply (Hdisj _ Hin). by left.
      * rewrite Forall_app, Forall_cons in Hbelow. tauto.
Qed.

Lemma consistent_same_ids (w : world) (tl' : TodoList) (st' : lastAction)
    (out : list message) :
  consistent w ->
  ID <$> todos tl' = ID <$> todos (todoList w) /\ NextID tl' = NextID (todoList w) ->
  st' = lastActionState w \/ Type_ st' <> ActionDelete ->
  consistent (mkWorld tl' st' out).
Proof.
  intros Hc [Hids Hnext] Hst. apply (consistent_shrink w); try done.
  unfold ids. by rewrite Hids.
Qed.

Lemma undo_consistent (w : world) :
  consistent w ->
  consistent (undo w) /\ NextID (todoList (undo w)) = NextID (todoList w).
Proof.
  intros Hc. unfold undo.
  destruct (Type_ (lastActionState w)) eqn:Hty.
  - (* nothing to undo *)
    split; [|done]. by apply consistent_forget, consistent_say.
  - (* undo of an add *)
    destruct (Delete _ (todoList w)) as [tl' r] eqn:Hdel.
    destruct (consistent_Delete w _ _ _ [] Hc Hdel) as (_ & Hnext & Hsub).
    assert (Hc' : consistent (mkWorld tl' noAction [])).
    { apply (consistent_shrink w); try done. by right. }
    destruct r; (split; [by apply (consistent_forget (mkWorld tl' noAction [])) | done]).
  - (* undo of a complete *)
    destruct (Uncomplete _ (todoList w)) as [tl' r] eqn:Hop.
    pose proof (Uncomplete_ids (ActionID (lastActionState w)) (todoList w)) as Hids.
    rewrite Hop in Hids. simpl in Hids.
    assert (Hc' : consistent (mkWorld tl' noAction [])).
    { apply (consistent_same_ids w); try done. by right. }
    destruct r; (split; [by apply (consistent_forget (mkWorld tl' noAction [])) | tauto]).
  - (* undo of a delete *)
    destruct (DeletedTodo (lastActionState w)) as [d|] eqn:Hd.
    + destruct (undo_fresh w Hc d Hty Hd) as [Hfresh Hrange].
      split; [|done]. simpl.
      apply (consistent_append w); try done; lia.
    + split; [|done]. by apply consistent_forget, consistent_say.
  - (* undo of an uncomplete *)
    destruct (Complete _ (todoList w)) as [tl' r] eqn:Hop.
    pose proof (Complete_ids (ActionID (lastActionState w)) (todoList w)) as Hids.
    rewrite Hop in Hids. simpl in Hids.
    assert (Hc' : consistent (mkWorld tl' noAction [])).
    { apply (consistent_same_ids w); try done. by right. }
    destruct r; (split; [by apply (consistent_forget (mkWorld tl' noAction [])) | tauto]).
Qed.

Lemma step_consistent (w : world) (c : command) :
  consistent w ->
  NextID (todoList w) + (if is_add c then 1 else 0) <= int_max ->
  consistent (step w c)
  /\ NextID (todoList (step w c)) = NextID (todoList w) + (if is_add c then 1 else 0).
Proof.
  intros Hc Hmax. destruct c as [task p due tags now|id s|[]|q|id|id|id []| |]; simpl in Hmax.
  - (* add *)
    simpl.
    pose proof (counter_pos w Hc) as Hpos.
    assert (Hw : wrap (NextID (todoList w) + 1) = NextID (todoList w) + 1)
      by (apply wrap_small; unfold int_min, int_max in *; lia).
    unfold Add; simpl. rewrite Hw. split; [|done].
    apply (consistent_append w); simpl; try done; try lia.
    intros Hin. pose proof (ids_below w Hc) as Hb. rewrite Forall_forall in Hb.
    specialize (Hb _ Hin). lia.
  - (* edit *)
    simpl.
    destruct (EditTask id s (todoList w)) as [tl' r] eqn:Hop.
    pose proof (EditTask_ids id s (todoList w)) as Hids. rewrite Hop in Hids. simpl in Hids.
    assert (consistent (mkWorld tl' (lastActionState w) (printed w)))
      by (apply (consistent_same_ids w); try done; by left).
    destruct r; simpl; (split; [try apply consistent_say; done | lia]).
  - (* clear-completed, confirmed *)
    simpl.
    destruct (ClearCompleted (todoList w)) as [tl' m] eqn:Hop.
    pose proof (ClearCompleted_todos (todoList w)) as [Hl Hn]. rewrite Hop in Hl, Hn.
    simpl in Hl, Hn. split; [|simpl; lia].
    apply consistent_say, (consistent_shrink w); try done; [|by left].
    unfold ids. rewrite Hl. apply fmap_sublist, sublist_filter.
  - (* clear-completed, declined *)
    simpl.
    split; [by apply consistent_say | lia].
  - (* search *)
    simpl.
    split; [|destruct (_ =? _)%nat; simpl; lia].
    destruct (_ =? _)%nat; apply consistent_say; by destruct w.
  - (* complete *)
    simpl.
    destruct (Complete id (todoList w)) as [tl' r] eqn:Hop.
    pose proof (Complete_ids id (todoList w)) as Hids. rewrite Hop in Hids. simpl in Hids.
    destruct r; simpl; (split; [|lia]).
    + apply consistent_say, (consistent_same_ids w); try done. by left.
    + apply (consistent_same_ids w); try done. by right.
  - (* uncomplete *)
    simpl.
    destruct (Uncomplete id (todoList w)) as [tl' r] eqn:Hop.
    pose proof (Uncomplete_ids id (todoList w)) as Hids. rewrite Hop in Hids. simpl in Hids.
    destruct r; simpl; (split; [|lia]).
    + apply consistent_say, (consistent_same_ids w); try done. by left.
    + apply (consistent_same_ids w); try done. by right.
  - (* delete, confirmed *)
    simpl.
    destruct (Delete id (todoList w)) as [tl' r] eqn:Hdel.
    destruct (consistent_Delete w _ _ _ (printed w) Hc Hdel) as (Hc' & Hnext & _).
    destruct r; simpl; (split; [|lia]); [done|].
    by apply (consistent_say (mkWorld tl' (lastActionState w) (printed w))).
  - (* delete, declined *)
    simpl.
    split; [by apply consistent_say | lia].
  - (* list *)
    simpl.
    split; [by apply consistent_say | lia].
  - (* undo *)
    change (step w CmdUndo) with (undo w).
    destruct (undo_consistent w Hc) as [? H0]. split; [done | rewrite H0; simpl; lia].
Qed.

Lemma Add_last (task p : string) (due : option Time) (tags : slice string)
    (now : Time) (tl : TodoList) :
  exists t, last (todos (Add task p due tags now tl)) = Some t /\ ID t = NextID tl.
Proof.
  unfold Add, todos; simpl. rewrite elems_append, last_snoc. by eexists.
Qed.

Lemma run_cons (w : world) (c : command) (cs : list command) :
  run w (c :: cs) = run (step w c) cs.
Proof. done. Qed.

Lemma adds_app (cs1 cs2 : list command) :
  adds (cs1 ++ cs2) = (adds cs1 + adds cs2)%nat.
Proof. induction cs1 as [|c cs1 IH]; simpl; [done | rewrite IH; lia]. Qed.

(** The counter counts the [add] commands, and the k-th of them gives out
    the identifier that the counter had before it. *)
Lemma run_consistent (cs : list command) (w : world) :
  consistent w ->
  NextID (todoList w) + Z.of_nat (adds cs) <= int_max ->
  consistent (run w cs)
  /\ NextID (todoList (run w cs)) = NextID (todoList w) + Z.of_nat (adds cs)
  /\ assigned w cs
     = (fun k => NextID (todoList w) + Z.of_nat k) <$> seq 0 (adds cs).
Proof.
  revert w. induction cs as [|c cs IH]; intros w Hc Hmax.
  - simpl. split_and!; [done | lia | done].
  - rewrite run_cons. simpl adds in *.
    destruct (step_consistent w c Hc) as [Hc' Hnext].
    { destruct (is_add c); lia. }
    destruct (IH (step w c) Hc') as (Hc'' & Hnext' & Hass).
    { rewrite Hnext. destruct (is_add c); lia. }
    split_and!; [done | rewrite Hnext', Hnext; destruct (is_add c); lia |].
    simpl assigned. rewrite Hass, Hnext.
    destruct c; simpl; try (apply list_fmap_ext; intros; lia).
    destruct (Add_last task (toCanonicalPriority priority) dueDate tags now (todoList w))
      as (t & -> & ->).
    simpl. f_equal; [lia|]. rewrite <- fmap_S_seq, <- list_fmap_compose.
    apply list_fmap_ext. intros; simpl; lia.
Qed.

Lemma initial_consistent : consistent start.
Proof. split; simpl; [lia | constructor | constructor | done]. Qed.

(** C1. In every session that starts from the empty collection and has fewer
    than 2^63 - 1 [add] commands (so that the 64-bit counter cannot
    overflow), whatever its add, edit, complete, uncomplete, delete,
    clear-completed, undo, search and list commands: the identifiers of the
    records are distinct; each is below the counter; the counter is one
    more than the number of adds so far and never decreases; the [add]
    commands give out 1, 2, 3, ... in this order; and an
    identifier that a record has had at some point of the session is never
    given out by a later [add]. *)
Theorem identifiers_unique_and_increasing (cs : list command) :
  Z.of_nat (adds cs) < int_max ->
  let tl := todoList (run start cs) in
  NoDup (ID <$> todos tl)
  /\ Forall (fun t => ID t < NextID tl) (todos tl)
  /\ NextID tl = 1 + Z.of_nat (adds cs)
  /\ (forall cs1 cs2, cs = cs1 ++ cs2 ->
        NextID (todoList (run start cs1)) <= NextID tl)
  /\ assigned start cs = Z.of_nat <$> seq 1 (adds cs)
  /\ (forall cs1 cs2 t, cs = cs1 ++ cs2 ->
        t ∈ todos (todoList (run start cs1)) ->
        ~ ID t ∈ assigned (run start cs1) cs2).
Proof.
  intros Hmax tl.
  assert (Hprefix : forall cs1 cs2, cs = cs1 ++ cs2 ->
            consistent (run start cs1)
            /\ NextID (todoList (run start cs1)) = 1 + Z.of_nat (adds cs1)
            /\ (adds cs1 + adds cs2 = adds cs)%nat).
  { intros cs1 cs2 ->. rewrite adds_app in Hmax.
    destruct (run_consistent cs1 start initial_consistent) as (? & ? & _);
      [simpl; lia|].
    rewrite adds_app. done. }
  destruct (Hprefix cs [] (eq_sym (app_nil_r cs))) as (Hc & Hnext & _).
  fold tl in Hc, Hnext. split_and!.
  - apply (ids_distinct _ Hc).
  - pose proof (ids_below _ Hc) as Hb. unfold ids in Hb.
    apply Forall_fmap in Hb. eapply Forall_impl; [exact Hb|].
    simpl. intros t Ht. fold tl in Ht. lia.
  - done.
  - intros cs1 cs2 Hcs. destruct (Hprefix cs1 cs2 Hcs) as (_ & Hn1 & Hadds).
    rewrite Hn1, Hnext. lia.
  - destruct (run_consistent cs start initial_consistent) as (_ & _ & ->);
      [simpl; lia|].
    rewrite <- fmap_S_seq, <- list_fmap_compose.
    apply list_fmap_ext. intros; simpl; lia.
  - intros cs1 cs2 t Hcs Ht. destruct (Hprefix cs1 cs2 Hcs) as (Hc1 & Hn1 & Hadds).
    destruct (run_consistent cs2 (run start cs1) Hc1) as (_ & _ & ->);
      [rewrite Hn1; lia|].
    intros (k & Hk & _)%list_elem_of_fmap.
    pose proof (ids_below _ Hc1) as Hb. unfold ids in Hb.
    rewrite Forall_fmap, Forall_forall in Hb. specialize (Hb t Ht). simpl in Hb. lia.
Qed.

Lemma identifiers_unique_and_increasing_witness :
  NoDup (ID <$> todos (todoList (run start busy_session)))
  /\ assigned start busy_session = [1; 2; 3; 4].
Proof.
  destruct (identifiers_unique_and_increasing busy_session) as (H1 & _ & _ & _ & H4 & _).
  - vm_compute. reflexivity.
  - split; [exact H1 | exact H4].
Defined.

(** The identifiers of [busy_session]: record 1 is deleted and comes back
    behind record 2, record 2 is cleared, record 3 is deleted; the last add
    still gives out 4. *)
Example busy_session_ids :
  ID <$> todos (todoList (run start busy_session)) = [1; 4]
  /\ NextID (todoList (run start busy_session)) = 5.
Proof. vm_compute. done. Qed.

(** ** Undo *)

Lemma undo_after_Delete (w : world) (id : Z) :
  Exists (fun t => ID t = id) (todos (todoList w)) ->
  exists l1 d l2,
    todos (todoList w) = l1 ++ d :: l2 /\ ID d = id /\
    Forall (fun t => ID t <> id) l1 /\
    step w (CmdDelete id true)
    = mkWorld (mkTodoList (Some (l1 ++ l2)) (NextID (todoList w)))
              (mkLastAction ActionDelete id (Some d) false) (printed w) /\
    run w [CmdDelete id true; CmdUndo]
    = mkWorld (mkTodoList (Some (l1 ++ l2 ++ [d])) (NextID (todoList w)))
              noAction (printed w ++ [MsgUndidDelete id (ID d) (Task d)]).
Proof.
  intros (l1 & d & l2 & Hl & Hid & Hbefore & Hdel)%Delete_found.
  exists l1, d, l2. split_and!; try done.
  - simpl. by rewrite Hdel.
  - unfold run. simpl. rewrite Hdel. unfold undo; simpl.
    by rewrite <- app_assoc.
Qed.

(** C6. An undo right after a successful delete puts the stored copy of
    the removed record, identifier included, back at the end of the
    sequence, behind the records that followed it, and leaves the counter
    as it was.  After Add("A"); Add("B"); Delete(1); Undo the collection
    holds "B" with identifier 2, then "A" with identifier 1. *)
Theorem undo_of_delete_appends :
  (forall (w : world) (id : Z),
     Exists (fun t => ID t = id) (todos (todoList w)) ->
     exists l1 d l2,
       todos (todoList w) = l1 ++ d :: l2 /\ ID d = id /\
       Forall (fun t => ID t <> id) l1 /\
       todos (todoList (step w (CmdDelete id true))) = l1 ++ l2 /\
       todos (todoList (run w [CmdDelete id true; CmdUndo])) = l1 ++ l2 ++ [d] /\
       NextID (todoList (run w [CmdDelete id true; CmdUndo])) = NextID (todoList w))
  /\
  todos (todoList (run start delete_then_undo))
  = [mkTodo 2 "B" false morning PriorityMedium None (Some []);
     mkTodo 1 "A" false morning PriorityMedium None (Some [])].
Proof.
  split.
  - intros w id (l1 & d & l2 & Hl & Hid & Hbefore & Hstep & Hrun)%undo_after_Delete.
    exists l1, d, l2. rewrite Hstep, Hrun. by split_and!.
  - vm_compute. reflexivity.
Qed.

Lemma undo_of_delete_appends_witness :
  exists l1 d l2,
    todos three_tasks = l1 ++ d :: l2 /\ ID d = 2 /\
    Forall (fun t => ID t <> 2) l1 /\
    todos (todoList (step (initial three_tasks) (CmdDelete 2 true))) = l1 ++ l2 /\
    todos (todoList (run (initial three_tasks) [CmdDelete 2 true; CmdUndo]))
    = l1 ++ l2 ++ [d] /\
    NextID (todoList (run (initial three_tasks) [CmdDelete 2 true; CmdUndo])) = 4.
Proof.
  apply (proj1 undo_of_delete_appends (initial three_tasks) 2).
  apply Exists_cons_tl, Exists_cons_hd. reflexivity.
Defined.

(** ** The scenario of the two adds, the complete, the clear and the undo *)

(** C4, as the specification states it, fails: the undo that follows
    clear-completed does not report that there is nothing to undo. *)
Lemma undo_after_clear_is_not_silent :
  last (printed (run start (two_adds_and_a_complete
                            ++ [CmdClearCompleted true; CmdUndo])))
  <> Some MsgNoUndo.
Proof. vm_compute. discriminate. Qed.

(** C4, amended.  After the two adds and Complete(1), the listing of the
    incomplete records shows record 2 alone; clear-completed removes
    record 1 and reports one record cleared.  Clear-completed does not touch
    the undo record, which still holds Complete(1): the undo that follows
    tries to uncomplete record 1, which is gone, reports that the undo
    failed with NotFound and leaves the collection as it is.  Only a second
    undo reports that there is nothing to undo. *)
Theorem scenario_clear_then_undo :
  let w3 := run start two_adds_and_a_complete in
  let w4 := step w3 (CmdClearCompleted true) in
  let w5 := step w4 CmdUndo in
  let w6 := step w5 CmdUndo in
  todos (todoList w3) = [set_Completed true buy_milk; ship_release]
  /\ List only_incomplete (todoList w3) = [ship_release]
  /\ todos (todoList w4) = [ship_release]
  /\ printed w4 = [MsgCleared 1]
  /\ lastActionState w4 = mkLastAction ActionComplete 1 None false
  /\ printed w5 = [MsgCleared 1; MsgUndoFailed (ErrNotFound 1)]
  /\ todoList w5 = todoList w4
  /\ lastActionState w5 = noAction
  /\ printed w6 = [MsgCleared 1; MsgUndoFailed (ErrNotFound 1); MsgNoUndo].
Proof. vm_compute. by repeat split. Qed.

(** ** The sort *)

Section insertion.
Context {A : Type} (less : A -> A -> bool).

Lemma insert_back_perm (x : A) (p : list A) : insert_back less x p ≡ₚ x :: p.
Proof.
  induction p as [|y p IH]; simpl; [done|].
  destruct (less x y); [|done]. rewrite IH. apply perm_swap.
Qed.

Lemma sort_loop_perm (l acc : list A) :
  foldl (fun p x => insert_back less x p) acc l ≡ₚ acc ++ l.
Proof.
  revert acc. induction l as [|x l IH]; intros acc; simpl.
  - by rewrite app_nil_r.
  - rewrite IH, insert_back_perm. simpl. apply Permutation_middle.
Qed.

Lemma sortSlice_perm (l : list A) : sortSlice less l ≡ₚ l.
Proof. unfold sortSlice. by rewrite reverse_Permutation, sort_loop_perm. Qed.

(** [le x y]: [x] may stand before [y].  The comparison decides it one way
    or the other. *)
Context (le : relation A) `{!Transitive le}.
Hypothesis less_le : forall x y, less x y = true -> le x y.
Hypothesis not_less_le : forall x y, less x y = false -> le y x.

Lemma insert_back_sorted (x : A) (p : list A) :
  StronglySorted (flip le) p -> StronglySorted (flip le) (insert_back less x p).
Proof.
  induction p as [|y p IH]; simpl; intros Hp.
  - repeat constructor.
  - apply StronglySorted_cons in Hp as [Hy Hp].
    destruct (less x y) eqn:Hxy.
    + apply StronglySorted_cons. split; [|by apply IH].
      rewrite insert_back_perm. constructor; [by apply less_le | done].
    + apply StronglySorted_cons. split; [|by apply StronglySorted_cons].
      constructor; [by apply not_less_le|].
      eapply Forall_impl; [exact Hy|]. unfold flip. intros z Hz.
      etrans; [exact Hz | by apply not_less_le].
Qed.

Lemma sort_loop_sorted (l acc : list A) :
  StronglySorted (flip le) acc ->
  StronglySorted (flip le) (foldl (fun p x => insert_back less x p) acc l).
Proof.
  revert acc. induction l as [|x l IH]; intros acc Hacc; simpl; [done|].
  by apply IH, insert_back_sorted.
Qed.

Lemma StronglySorted_reverse (R : relation A) (l : list A) :
  StronglySorted (flip R) l -> StronglySorted R (reverse l).
Proof.
  induction l as [|x l IH]; [intros _; rewrite reverse_nil; constructor|].
  intros [Hx Hl]%StronglySorted_cons. rewrite reverse_cons.
  apply StronglySorted_app. split_and!; [|by apply IH|repeat constructor].
  intros y z Hy ->%list_elem_of_singleton.
  rewrite Forall_forall in Hx. apply Hx. by apply elem_of_reverse.
Qed.

Lemma sortSlice_sorted (l : list A) : StronglySorted le (sortSlice less l).
Proof. apply StronglySorted_reverse, sort_loop_sorted. constructor. Qed.
End insertion.

(** A record that the comparison never puts before another one keeps its
    place among its like. *)
Lemma insert_back_filter {A} (less : A -> A -> bool) (P : A -> Prop)
    `{forall x, Decision (P x)} (x : A) (p : list A) :
  (forall a b, P a -> less a b = false) ->
  filter P (insert_back less x p) = filter P (x :: p).
Proof.
  intros Hlast. induction p as [|y p IH]; simpl; [done|].
  destruct (less x y) eqn:Hxy; [|done].
  rewrite filter_cons, IH, !filter_cons.
  destruct (decide (P x)) as [Hx|Hx]; [|done].
  rewrite Hlast in Hxy by done. done.
Qed.

Lemma sortSlice_filter {A} (less : A -> A -> bool) (P : A -> Prop)
    `{forall x, Decision (P x)} (l : list A) :
  (forall a b, P a -> less a b = false) ->
  filter P (sortSlice less l) = filter P l.
Proof.
  intros Hlast. unfold sortSlice. rewrite filter_reverse.
  assert (Hloop : forall acc,
    filter P (foldl (fun p x => insert_back less x p) acc l)
    = reverse (filter P l) ++ filter P acc).
  { induction l as [|x l IH]; intros acc; simpl; [done|].
    rewrite IH, insert_back_filter, !filter_cons by done.
    destruct (decide (P x)); [|done].
    by rewrite reverse_cons, <- app_assoc. }
  by rewrite Hloop, filter_nil, app_nil_r, reverse_involutive.
Qed.

(** ** The order of strings *)

Lemma string_leb_trans (s1 s2 s3 : string) :
  String.leb s1 s2 = true -> String.leb s2 s3 = true -> String.leb s1 s3 = true.
Proof.
  unfold String.leb. revert s2 s3.
  induction s1 as [|a s1 IH]; intros [|b s2] [|c s3]; simpl; try done.
  unfold Ascii.compare.
  destruct (N.compare_spec (N_of_ascii a) (N_of_ascii b)),
           (N.compare_spec (N_of_ascii b) (N_of_ascii c)),
           (N.compare_spec (N_of_ascii a) (N_of_ascii c));
    try done; try lia; eauto.
Qed.

Lemma string_ltb_leb (s1 s2 : string) :
  String.ltb s1 s2 = true -> String.leb s1 s2 = true.
Proof. unfold String.ltb, String.leb. by destruct (String.compare s1 s2). Qed.

Lemma string_not_ltb_leb (s1 s2 : string) :
  String.ltb s1 s2 = false -> String.leb s2 s1 = true.
Proof.
  unfold String.ltb, String.leb. rewrite (String.compare_antisym s2 s1).
  by destruct (String.compare s1 s2).
Qed.

Lemma string_leb_not_ltb (s1 s2 : string) :
  String.leb s2 s1 = true -> String.ltb s1 s2 = false.
Proof.
  unfold String.ltb, String.leb. rewrite (String.compare_antisym s2 s1).
  by destruct (String.compare s1 s2).
Qed.

(** ** Listings *)

Lemma filter_loop (o : ListOptions) (l acc : list Todo) :
  foldl (fun filtered todo => if keep o todo then filtered ++ [todo] else filtered)
        acc l
  = acc ++ filter (fun t => keep o t = true) l.
Proof.
  revert acc. induction l as [|t l IH]; intros acc; simpl.
  - by rewrite app_nil_r.
  - rewrite IH, filter_cons. destruct (keep o t); simpl.
    + by rewrite <- app_assoc.
    + done.
Qed.

Lemma ListWith_sorted sort_Slice (o : ListOptions) (tl : TodoList) :
  SortBy o <> "" -> ListWith sort_Slice o tl = sort_Slice (less o) (kept o tl).
Proof.
  intros Hs. unfold ListWith. rewrite filter_loop. simpl.
  by apply String.eqb_neq in Hs as ->.
Qed.

Lemma List_sorted (o : ListOptions) (tl : TodoList) :
  SortBy o <> "" -> List o tl = sortSlice (less o) (kept o tl).
Proof. apply ListWith_sorted. Qed.

Lemma StronglySorted_mono {A} (R1 R2 : relation A) (l : list A) :
  (forall a b, R1 a b -> R2 a b) -> StronglySorted R1 l -> StronglySorted R2 l.
Proof.
  intros HR. induction 1 as [|x l Hl IH Hx]; constructor; [done|].
  eapply Forall_impl; eauto.
Qed.

(** The insertion sort keeps the promise of [sort.Slice]. *)
Lemma sortSlice_sorts {A} : sorts (@sortSlice A).
Proof.
  intros less l. split; [apply sortSlice_perm|].
  intros (Hasym & Htrans & Hneg). apply sortSlice_sorted.
  - intros a b c Hab Hbc. by apply (Hneg c b a).
  - apply Hasym.
  - done.
Qed.

Lemma due_asc_ordering (o : ListOptions) : ordering (less (by_due_date o "asc")).
Proof.
  unfold ordering, less, Before; simpl. split_and!.
  - intros a b. destruct (DueDate a), (DueDate b); try done. lia.
  - intros a b c. destruct (DueDate a), (DueDate b), (DueDate c); try done. lia.
  - intros a b c. destruct (DueDate a), (DueDate b), (DueDate c); try done. lia.
Qed.

Lemma due_desc_ordering (o : ListOptions) : ordering (less (by_due_date o "desc")).
Proof.
  unfold ordering, less, After; simpl. split_and!.
  - intros a b. destruct (DueDate a), (DueDate b); try done. lia.
  - intros a b c. destruct (DueDate a), (DueDate b), (DueDate c); try done. lia.
  - intros a b c. destruct (DueDate a), (DueDate b), (DueDate c); try done. lia.
Qed.

Lemma StronglySorted_lookup {A} (R : relation A) (l : list A) (i j : nat) (a b : A) :
  StronglySorted R l -> l !! i = Some a -> l !! j = Some b -> (i < j)%nat -> R a b.
Proof.
  intros Hl. revert i j. induction Hl as [|x l Hl IH Hx]; intros i j Hi Hj Hij.
  - done.
  - destruct j as [|j]; [lia|]. simpl in Hj. destruct i as [|i]; simpl in Hi.
    + injection Hi as ->. rewrite Forall_forall in Hx.
      apply Hx. by eapply list_elem_of_lookup_2.
    + eapply IH; eauto. lia.
Qed.

Lemma ListWith_due_asc sort_Slice (o : ListOptions) (tl : TodoList) :
  sorts sort_Slice ->
  StronglySorted due_asc (ListWith sort_Slice (by_due_date o "asc") tl).
Proof.
  intros Hsort. rewrite ListWith_sorted by done.
  destruct (Hsort (less (by_due_date o "asc")) (kept (by_due_date o "asc") tl))
    as [_ Hs].
  eapply StronglySorted_mono; [|apply Hs, due_asc_ordering].
  intros a b. unfold less, due_asc, Before; simpl.
  destruct (DueDate a), (DueDate b); try done. lia.
Qed.

Lemma ListWith_due_desc sort_Slice (o : ListOptions) (tl : TodoList) :
  sorts sort_Slice ->
  StronglySorted due_desc (ListWith sort_Slice (by_due_date o "desc") tl).
Proof.
  intros Hsort. rewrite ListWith_sorted by done.
  destruct (Hsort (less (by_due_date o "desc")) (kept (by_due_date o "desc") tl))
    as [_ Hs].
  eapply StronglySorted_mono; [|apply Hs, due_desc_ordering].
  intros a b. unfold less, due_desc, After; simpl.
  destruct (DueDate a), (DueDate b); try done. lia.
Qed.

Lemma dated_first (R : relation Todo) (r : list Todo) (i j : nat) (a b : Todo) :
  (forall a b, R a b -> ~ dated a -> ~ dated b) ->
  StronglySorted R r ->
  r !! i = Some a -> r !! j = Some b -> dated a -> ~ dated b -> (i < j)%nat.
Proof.
  intros HR Hr Hi Hj Ha Hb.
  destruct (Nat.lt_trichotomy i j) as [?|[->|Hji]]; [done| |].
  { rewrite Hi in Hj. injection Hj as ->. done. }
  exfalso. by apply (HR b a (StronglySorted_lookup R r j i b a Hr Hj Hi Hji)).
Qed.

Lemma due_instants_sorted (R : relation Todo) (RZ : relation Z) (r : list Todo) :
  (forall a b x y, DueDate a = Some x -> DueDate b = Some y -> R a b ->
                   RZ (unixNano x) (unixNano y)) ->
  StronglySorted R r -> StronglySorted RZ (due_instants r).
Proof.
  intros HR. induction 1 as [|a r Hr IH Ha]; [constructor|].
  unfold due_instants in *. cbn [omap list_omap].
  destruct (DueDate a) as [x|] eqn:Hx; simpl; [|done].
  constructor; [done|]. apply Forall_forall. intros z Hz.
  apply list_elem_of_omap in Hz as (b & Hb & Hz).
  destruct (DueDate b) as [y|] eqn:Hy; simpl in Hz; [|done].
  injection Hz as <-. rewrite Forall_forall in Ha. by eapply HR; eauto.
Qed.

Lemma ListWith_perm sort_Slice (o : ListOptions) (tl : TodoList) :
  sorts sort_Slice -> SortBy o <> "" -> ListWith sort_Slice o tl ≡ₚ kept o tl.
Proof.
  intros Hsort Hs. rewrite ListWith_sorted by done. apply Hsort.
Qed.


(** Two lists of the same numbers, one ascending and one descending, are
    the reverse of one another. *)
Lemma descending_is_reverse (l1 l2 : list Z) :
  StronglySorted Z.le l1 -> StronglySorted (flip Z.le) l2 -> l1 ≡ₚ l2 ->
  l2 = reverse l1.
Proof.
  intros H1 H2 Hp.
  apply (StronglySorted_unique_strong (flip Z.le)); try done.
  - unfold flip. intros; lia.
  - apply StronglySorted_reverse. exact H1.
  - by rewrite reverse_Permutation.
Qed.

Lemma due_instants_filter (l : list Todo) :
  due_instants l = instant_of <$> filter dated l.
Proof.
  unfold due_instants.
  induction l as [|t l IH]; [done|]. cbn [omap list_omap].
  rewrite filter_cons, IH.
  destruct (decide (dated t)) as [Hd|Hd]; unfold dated, instant_of in *;
    destruct (DueDate t) eqn:Ht; csimpl; try done.
  - by rewrite Ht.
  - by destruct Hd.
Qed.

(** Two arrangements of the same records that show the same keys, all
    distinct, are the same list. *)
Lemma perm_fmap_inj {A B} (f : A -> B) (l1 l2 : list A) :
  l1 ≡ₚ l2 -> f <$> l1 = f <$> l2 -> NoDup (f <$> l1) -> l1 = l2.
Proof.
  revert l2. induction l1 as [|x l1 IH]; intros l2 Hp Hf Hnd.
  - by apply Permutation_nil in Hp.
  - destruct l2 as [|y l2]; [by apply Permutation_nil_r in Hp|].
    csimpl in *. injection Hf as Hxy Hf.
    apply NoDup_cons in Hnd as [Hx Hnd].
    assert (y = x) as ->.
    { assert (Hy : y ∈ x :: l1) by (rewrite Hp; apply elem_of_cons; by left).
      apply elem_of_cons in Hy as [?|Hy]; [done|].
      exfalso. apply Hx. rewrite Hxy. by apply list_elem_of_fmap_2. }
    f_equal. apply IH; try done. by apply (inj (x ::.)).
Qed.

(** C3. Whatever sort the library runs, as long as it keeps the promise of
    [sort.Slice]: a listing sorted by due date, ascending or descending,
    shows the records that pass the filters, and every record with a due
    date stands before every record without one.  Ascending, the due dates
    never decrease along the listing; descending, they never increase, and
    they are those of the ascending listing in reverse order; when no two
    records are due at the same instant, the dated records themselves stand
    in reverse order.  On a collection of up to twelve records, where the
    library runs its insertion sort, the records without a due date stand
    in the same order in both listings, that of the collection.

    The order of the due dates is that of the calendar: of two readings in
    the same zone (the due dates that are typed are all at midnight UTC)
    the one that is earlier on calendar and clock is the earlier instant;
    the day after a day of the calendar is 86400 seconds later, the epoch
    is 1 January 1970, and a reading in a zone east of UTC is earlier by
    the offset of the zone.  The filters and the tags are ASCII. *)
Theorem due_date_sort_keeps_undated_last
    (sort_Slice : (Todo -> Todo -> bool) -> list Todo -> list Todo)
    (tl : TodoList) (o : ListOptions) :
  sorts sort_Slice -> ascii_options o -> Forall ascii_todo (todos tl) ->
  let up := ListWith sort_Slice (by_due_date o "asc") tl in
  let down := ListWith sort_Slice (by_due_date o "desc") tl in
  up ≡ₚ kept o tl /\ down ≡ₚ kept o tl
  /\ (forall r, r = up \/ r = down ->
      forall i j a b, r !! i = Some a -> r !! j = Some b ->
                      dated a -> ~ dated b -> (i < j)%nat)
  /\ StronglySorted Z.le (due_instants up)
  /\ StronglySorted (flip Z.le) (due_instants down)
  /\ due_instants down = reverse (due_instants up)
  /\ (NoDup (due_instants up) -> filter dated down = reverse (filter dated up))
  /\ (small tl ->
      filter (fun t => ~ dated t) (List (by_due_date o "desc") tl)
      = filter (fun t => ~ dated t) (kept o tl)
      /\ filter (fun t => ~ dated t) (List (by_due_date o "asc") tl)
         = filter (fun t => ~ dated t) (kept o tl))
  /\ (forall t u,
        calendar_ok t = true -> calendar_ok u = true -> zone t = zone u ->
        unixNano t < unixNano u <-> earlier t u)
  /\ (forall y m d,
        calendar_ok (date y m d) = true ->
        calendar_ok (tomorrow y m d) = true
        /\ unixNano (tomorrow y m d) = unixNano (date y m d) + 86400 * 1000000000)
  /\ unixNano (date 1970 1 1) = 0
  /\ (forall y m d h mi s ns z,
        unixNano (mkTime y m d h mi s ns z)
        = unixNano (mkTime y m d h mi s ns 0) - z * 60 * 1000000000).
Proof.
  intros Hsort _ _ up down.
  assert (Hup : StronglySorted due_asc up) by (by apply ListWith_due_asc).
  assert (Hdown : StronglySorted due_desc down) by (by apply ListWith_due_desc).
  assert (Hpu : up ≡ₚ kept o tl)
    by (by apply (ListWith_perm sort_Slice (by_due_date o "asc"))).
  assert (Hpd : down ≡ₚ kept o tl)
    by (by apply (ListWith_perm sort_Slice (by_due_date o "desc"))).
  assert (Hiu : StronglySorted Z.le (due_instants up)).
  { apply (due_instants_sorted due_asc); [|done].
    intros a b x y Ha Hb. unfold due_asc. by rewrite Ha, Hb. }
  assert (Hid : StronglySorted (flip Z.le) (due_instants down)).
  { apply (due_instants_sorted due_desc); [|done].
    intros a b x y Ha Hb. unfold due_desc. by rewrite Ha, Hb. }
  assert (Hrev : due_instants down = reverse (due_instants up)).
  { apply descending_is_reverse; try done.
    unfold due_instants. by rewrite Hpu, Hpd. }
  split_and!; try done.
  - intros r [-> | ->] i j a b Hi Hj Ha Hb.
    + apply (dated_first due_asc up i j a b); try done.
      unfold due_asc, dated. intros a' b'.
      destruct (DueDate a'), (DueDate b'); naive_solver.
    + apply (dated_first due_desc down i j a b); try done.
      unfold due_desc, dated. intros a' b'.
      destruct (DueDate a'), (DueDate b'); naive_solver.
  - intros Hnd. apply (perm_fmap_inj instant_of).
    + by rewrite reverse_Permutation, Hpu, Hpd.
    + by rewrite fmap_reverse, <- !due_instants_filter.
    + rewrite <- due_instants_filter, Hrev. by rewrite reverse_Permutation.
  - intros _. split.
    + rewrite List_sorted by done. apply sortSlice_filter.
      intros a b; unfold dated, less; simpl; destruct (DueDate a), (DueDate b);
        naive_solver.
    + rewrite List_sorted by done. apply sortSlice_filter.
      intros a b; unfold dated, less; simpl; destruct (DueDate a), (DueDate b);
        naive_solver.
  - apply unixNano_earlier.
  - apply tomorrow_next.
  - intros y m d h mi s ns z. unfold unixNano. simpl. lia.
Qed.

Lemma due_date_sort_keeps_undated_last_witness :
  filter dated (List (by_due_date no_filter "desc") test_list)
  = reverse (filter dated (List (by_due_date no_filter "asc") test_list)).
Proof.
  apply (due_date_sort_keeps_undated_last sortSlice test_list no_filter).
  - apply sortSlice_sorts.
  - split; [reflexivity | constructor].
  - repeat constructor.
  - apply (bool_decide_unpack _). vm_compute. exact I.
Defined.

(** The listings of [TestListWithFilteringAndSorting] by due date: "Task A"
    is due on 1 January, "Task B" on 2 January, "Task C" has no due date. *)
Example due_date_sort_test :
  Task <$> List (by_due_date no_filter "asc") test_list
    = ["Task A High"; "Task B Low"; "Task C Med"]
  /\ Task <$> List (by_due_date no_filter "desc") test_list
    = ["Task B Low"; "Task A High"; "Task C Med"].
Proof. vm_compute. done. Qed.

(** ** The sort by priority *)

#[local] Instance string_le_trans : Transitive string_le.
Proof. intros s1 s2 s3. apply string_leb_trans. Qed.






(** The listing of [TestListWithFilteringAndSorting] by priority. *)
Example priority_sort_test :
  Task <$> List (by_priority no_filter "asc") test_list
  = ["Task A High"; "Task B Low"; "Task C Med"].
Proof. vm_compute. done. Qed.

(** ** Text that survives a save *)

Lemma coerce_valid (s : string) (pending : nat) :
  valid_from pending s = true -> coerce pending s = s.
Proof.
  revert pending. induction s as [|c r IH]; intros pending; [done|].
  cbn [valid_from coerce]. destruct pending as [|k].
  - destruct (rune_len (String c r)); [done|]. intros H. by rewrite IH.
  - intros H. by rewrite IH.
Qed.

Lemma toValidUTF8_valid (s : string) : ValidString s = true -> toValidUTF8 s = s.
Proof. apply coerce_valid. Qed.

Lemma char_digit_char (d : Z) : 0 <= d <= 9 -> char_digit (digit_char d) = Some d.
Proof.
  intros H.
  assert (d = 0 \/ d = 1 \/ d = 2 \/ d = 3 \/ d = 4 \/ d = 5 \/ d = 6 \/ d = 7
          \/ d = 8 \/ d = 9) as Hd by lia.
  repeat destruct Hd as [->|Hd]; try reflexivity. by subst.
Qed.

Lemma take_digit_char (d : Z) (rest : string) :
  0 <= d <= 9 -> take_digit (String (digit_char d) rest) = Some (d, rest).
Proof. intros H. unfold take_digit. by rewrite char_digit_char. Qed.

Lemma append_cons (c : ascii) (s1 s2 : string) :
  String.append (String c s1) s2 = String c (String.append s1 s2).
Proof. reflexivity. Qed.

Lemma append_nil (s : string) : String.append "" s = s.
Proof. reflexivity. Qed.

Lemma take_digits2_digits2 (n : Z) (rest : string) :
  0 <= n < 100 ->
  take_digits2 (String.append (digits2 n) rest) = Some (n, rest).
Proof.
  intros H. unfold take_digits2, digits2. rewrite !append_cons, append_nil.
  rewrite take_digit_char by (Z.div_mod_to_equations; lia).
  cbn [mbind option_bind]. rewrite take_digit_char by (Z.div_mod_to_equations; lia).
  cbn [mbind option_bind]. do 2 f_equal. Z.div_mod_to_equations; lia.
Qed.

Lemma append_assoc (s1 s2 s3 : string) :
  String.append (String.append s1 s2) s3 = String.append s1 (String.append s2 s3).
Proof. induction s1 as [|c s1 IH]; [done|]. by rewrite !append_cons, IH. Qed.

(** A rune is the byte at the head and the bytes that follow it; what
    comes after them does not matter. *)
Lemma rune_split (s : string) (k : nat) :
  rune_len s = S k ->
  exists c rune rest,
    s = String c (rune +:+ rest) /\ String.length rune = k
    /\ forall x, rune_len (String c (rune +:+ x)) = S k.
Proof.
  destruct s as [|c0 r]; [done|]. unfold rune_len.
  destruct (byte_in 0 127 c0) eqn:H0.
  { intros [= <-]. exists c0, "", r. split_and!; try done.
    intros x. by rewrite H0. }
  destruct (byte_in 194 223 c0) eqn:H1.
  { destruct r as [|c1 r]; [done|]. destruct (byte_in 128 191 c1) eqn:H2; [|done].
    intros [= <-]. exists c0, (String c1 ""), r. split_and!; try done.
    intros x. simpl. by rewrite H0, H1, H2. }
  destruct (byte_in 224 239 c0) eqn:H2.
  { destruct r as [|c1 [|c2 r]]; try done.
    destruct (_ && _) eqn:H3; [|done].
    intros [= <-]. exists c0, (String c1 (String c2 "")), r. split_and!; try done.
    intros x. simpl. by rewrite H0, H1, H2, H3. }
  destruct (byte_in 240 244 c0) eqn:H3; [|done].
  destruct r as [|c1 [|c2 [|c3 r]]]; try done.
  destruct (_ && _) eqn:H4; [|done].
  intros [= <-]. exists c0, (String c1 (String c2 (String c3 ""))), r.
  split_and!; try done.
  intros x. simpl. by rewrite H0, H1, H2, H3, H4.
Qed.

Lemma coerce_copy (rune rest : string) :
  coerce (String.length rune) (rune +:+ rest) = rune +:+ coerce 0 rest.
Proof. induction rune as [|c rune IH]; simpl; [done | by rewrite IH]. Qed.

Lemma valid_from_copy (rune rest : string) :
  valid_from (String.length rune) (rune +:+ rest) = valid_from 0 rest.
Proof.
  induction rune as [|c rune IH]; simpl; [|done].
  destruct rest; [done|]. reflexivity.
Qed.

Lemma string_length_ind (P : string -> Prop) :
  (forall s, (forall r, (String.length r < String.length s)%nat -> P r) -> P s) ->
  forall s, P s.
Proof.
  intros IH s. remember (String.length s) as n eqn:Hn.
  revert s Hn. induction n as [n IHn] using lt_wf_ind.
  intros s ->. apply IH. intros r Hr. by apply (IHn (String.length r)).
Qed.

Lemma append_length (a b : string) :
  String.length (a +:+ b) = (String.length a + String.length b)%nat.
Proof. induction a as [|c a IH]; simpl; [done | by rewrite IH]. Qed.

(** What [json.Marshal] writes is UTF-8. *)
Lemma toValidUTF8_is_valid (s : string) : ValidString (toValidUTF8 s) = true.
Proof.
  unfold ValidString, toValidUTF8.
  induction s as [s IH] using string_length_ind.
  destruct s as [|c r]; [done|]. cbn [coerce].
  destruct (rune_len (String c r)) as [|k] eqn:Hr.
  - change (valid_from 0 (coerce 0 r) = true). apply IH. simpl. lia.
  - destruct (rune_split _ _ Hr) as (c' & rune & rest & [= <- ->] & <- & Hx).
    rewrite coerce_copy. cbn [valid_from]. rewrite Hx, valid_from_copy.
    apply IH. simpl. rewrite append_length. lia.
Qed.

(** The valid text before a byte that starts no rune is kept, and the byte
    becomes U+FFFD. *)
Lemma coerce_append (v x : string) :
  valid_from 0 v = true -> coerce 0 (v +:+ x) = v +:+ coerce 0 x.
Proof.
  induction v as [v IH] using string_length_ind.
  destruct v as [|c r]; [done|]. cbn [valid_from].
  destruct (rune_len (String c r)) as [|k] eqn:Hr; [done|].
  destruct (rune_split _ _ Hr) as (c' & rune & rest & [= <- ->] & <- & Hx).
  rewrite valid_from_copy. intros Hv.
  rewrite append_cons, append_assoc. cbn [coerce]. rewrite Hx, coerce_copy.
  rewrite IH; [by rewrite append_cons, append_assoc| |done].
  simpl. rewrite append_length. lia.
Qed.

Lemma toValidUTF8_offending (v : string) (c : ascii) (r : string) :
  ValidString v = true -> rune_len (String c r) = 0%nat ->
  toValidUTF8 (v +:+ String c r) = v +:+ replacement +:+ toValidUTF8 r.
Proof.
  intros Hv Hc. unfold toValidUTF8. rewrite coerce_append by done.
  cbn [coerce]. by rewrite Hc.
Qed.

Lemma toValidUTF8_idemp (s : string) : toValidUTF8 (toValidUTF8 s) = toValidUTF8 s.
Proof. apply toValidUTF8_valid, toValidUTF8_is_valid. Qed.

Lemma take_digits4_digits4 (n : Z) (rest : string) :
  0 <= n < 10000 ->
  take_digits4 (String.append (digits4 n) rest) = Some (n, rest).
Proof.
  intros H. unfold take_digits4, digits4. rewrite append_assoc.
  rewrite take_digits2_digits2 by (Z.div_mod_to_equations; lia).
  cbn [mbind option_bind]. rewrite take_digits2_digits2 by (Z.div_mod_to_equations; lia).
  cbn [mbind option_bind]. do 2 f_equal. Z.div_mod_to_equations; lia.
Qed.

Lemma take_fraction_digits (n : nat) (f acc : Z) (rest : string) :
  0 <= f < 10 ^ Z.of_nat n -> no_digit rest ->
  take_fraction n (String.append (fraction_digits n f) rest) acc
  = (acc * 10 ^ Z.of_nat n + f, rest).
Proof.
  revert f acc. induction n as [|n IH]; intros f acc Hf Hrest.
  - cbn in *. f_equal. lia.
  - cbn [fraction_digits]. destruct (Z.eqb_spec f 0) as [->|Hne].
    + rewrite append_nil. cbn [take_fraction]. rewrite Hrest. f_equal. lia.
    + assert (Hpow : 10 ^ Z.of_nat (S n) = 10 * 10 ^ Z.of_nat n).
      { rewrite Nat2Z.inj_succ, Z.pow_succ_r; lia. }
      assert (0 < 10 ^ Z.of_nat n) by (apply Z.pow_pos_nonneg; lia).
      rewrite append_cons. cbn [take_fraction].
      rewrite take_digit_char.
      2:{ assert (f / 10 ^ Z.of_nat n < 10) by (apply Z.div_lt_upper_bound; lia).
          assert (0 <= f / 10 ^ Z.of_nat n) by (apply Z.div_pos; lia). lia. }
      rewrite IH; [|apply Z.mod_pos_bound; lia|done].
      f_equal. rewrite Hpow. pose proof (Z.div_mod f (10 ^ Z.of_nat n)). lia.
Qed.

Lemma expect_cons (c : ascii) (rest : string) : expect c (String c rest) = Some rest.
Proof. unfold expect. by rewrite Ascii.eqb_refl. Qed.

Lemma take_zone_text (z : Z) :
  -1440 < z < 1440 -> take_zone (zone_text z) = Some z.
Proof.
  intros Hz. unfold zone_text. destruct (Z.eqb_spec z 0) as [->|Hne]; [done|].
  assert (Hh : 0 <= Z.abs z / 60 < 24) by (Z.div_mod_to_equations; lia).
  assert (Hm : 0 <= Z.abs z mod 60 < 60) by (Z.div_mod_to_equations; lia).
  assert (Hrest : take_digits2 (String.append (digits2 (Z.abs z / 60))
                     (String ":" (digits2 (Z.abs z mod 60))))
                  = Some (Z.abs z / 60, String ":" (digits2 (Z.abs z mod 60))))
    by (apply take_digits2_digits2; lia).
  assert (Hmin : take_digits2 (digits2 (Z.abs z mod 60)) = Some (Z.abs z mod 60, "")).
  { pose proof (take_digits2_digits2 (Z.abs z mod 60) "") as H.
    unfold digits2 in *. rewrite !append_cons, append_nil in H. apply H. lia. }
  destruct (Z.ltb_spec z 0) as [Hneg|Hpos];
    cbn [String.concat take_zone]; rewrite ?append_nil;
    change (String.append ":" ?s) with (String ":" s);
    rewrite ?append_cons, ?append_nil;
    cbn [take_zone]; rewrite Hrest; cbn [mbind option_bind];
    rewrite expect_cons; cbn [mbind option_bind]; rewrite Hmin;
    cbn [mbind option_bind];
    destruct (Z.leb_spec (Z.abs z / 60) 24); try lia;
    destruct (Z.leb_spec (Z.abs z mod 60) 60); try lia;
    cbn; f_equal; Z.div_mod_to_equations; lia.
Qed.

Lemma zone_text_no_digit (z : Z) : no_digit (zone_text z).
Proof.
  unfold zone_text, no_digit.
  destruct (z =? 0); [done|]. by destruct (z <? 0).
Qed.

Lemma zone_text_no_dot (z : Z) :
  take_nanoseconds (zone_text z) = Some (0, zone_text z).
Proof.
  unfold zone_text.
  destruct (z =? 0); [done|]. by destruct (z <? 0).
Qed.

Lemma skip_digits_none (s : string) : no_digit s -> skip_digits s = s.
Proof.
  unfold no_digit. destruct s as [|c r]; [done|]. simpl.
  by destruct (char_digit c).
Qed.

Lemma take_hour_digits2 (n : Z) (rest : string) :
  0 <= n < 100 -> take_hour (String.append (digits2 n) rest) = Some (n, rest).
Proof.
  intros H. unfold take_hour, digits2. rewrite !append_cons, append_nil.
  rewrite take_digit_char by (Z.div_mod_to_equations; lia).
  cbn [mbind option_bind]. rewrite take_digit_char by (Z.div_mod_to_equations; lia).
  do 2 f_equal. Z.div_mod_to_equations; lia.
Qed.

Lemma take_nanoseconds_text (ns z : Z) :
  0 <= ns < 1000000000 ->
  take_nanoseconds (String.append (fraction_text ns) (zone_text z))
  = Some (ns, zone_text z).
Proof.
  intros Hns. unfold fraction_text. destruct (Z.eqb_spec ns 0) as [->|Hne].
  - rewrite append_nil. apply zone_text_no_dot.
  - repeat (rewrite append_cons || rewrite append_nil). cbn [take_nanoseconds].
    change (Ascii.eqb "." "." || Ascii.eqb "." ",") with true. cbv iota.
    rewrite take_fraction_digits; [|done|apply zone_text_no_digit].
    assert (Hd : is_Some (take_digit (String.append (fraction_digits 9 ns) (zone_text z)))).
    { cbn [fraction_digits]. apply Z.eqb_neq in Hne as ->. rewrite append_cons.
      rewrite take_digit_char; [done|]. cbn. Z.div_mod_to_equations; lia. }
    destruct Hd as [x ->]. rewrite Z.mul_0_l.
    by rewrite skip_digits_none by apply zone_text_no_digit.
Qed.

Lemma parse_format (t : Time) :
  calendar_ok t = true -> marshalable t = true ->
  parseRFC3339 (formatRFC3339Nano t) = Some t.
Proof.
  destruct t as [y mo d h mi s ns z]. unfold calendar_ok, marshalable; simpl.
  intros Hcal Hm. pose proof Hcal as Hcal'.
  repeat (apply andb_prop in Hcal as [Hcal ?]).
  repeat (apply andb_prop in Hm as [Hm ?]).
  assert (d <= 31).
  { assert (days_in y mo <= 31); [|lia].
    unfold days_in. repeat destruct (_ =? _); simpl; try lia. destruct (is_leap y); lia. }
  unfold formatRFC3339Nano, parseRFC3339. cbn [String.concat year month day hour minute second nanosecond zone].
  rewrite !append_nil.
  repeat match goal with
         | |- context [String.append (String ?c EmptyString) ?r] =>
             change (String.append (String c EmptyString) r) with (String c r)
         end.
  rewrite take_digits4_digits4 by lia. cbn [mbind option_bind]. rewrite expect_cons.
  cbn [mbind option_bind]. rewrite take_digits2_digits2 by lia.
  cbn [mbind option_bind]. rewrite expect_cons.
  cbn [mbind option_bind]. rewrite take_digits2_digits2 by lia.
  cbn [mbind option_bind]. rewrite expect_cons.
  cbn [mbind option_bind]. rewrite take_hour_digits2 by lia.
  cbn [mbind option_bind]. rewrite expect_cons.
  cbn [mbind option_bind]. rewrite take_digits2_digits2 by lia.
  cbn [mbind option_bind]. rewrite expect_cons.
  cbn [mbind option_bind]. rewrite take_digits2_digits2 by lia.
  cbn [mbind option_bind]. rewrite take_nanoseconds_text by lia.
  cbn [mbind option_bind]. rewrite take_zone_text by lia.
  cbn [mbind option_bind]. unfold calendar_ok; simpl. by rewrite Hcal'.
Qed.

(** ** What is saved is what is loaded *)

Lemma unmarshalInt_in_int (field : string) (n old : Z) :
  in_int n -> unmarshalInt field (JInt n) old = Ok n.
Proof.
  intros [H1 H2]. unfold unmarshalInt.
  apply Z.leb_le in H1, H2. by rewrite H1, H2.
Qed.

Lemma unmarshalTime_marshalTime (field : string) (t old : Time) (j : json) :
  calendar_ok t = true -> marshalTime t = Ok j -> unmarshalTime field j old = Ok t.
Proof.
  intros Hcal. unfold marshalTime. destruct (marshalable t) eqn:Hm; [|done].
  intros [= <-]. simpl. by rewrite parse_format.
Qed.

Lemma unmarshalStrings_marshal (field : string) (tags : list string) :
  Forall (fun tag => ValidString tag = true) tags ->
  mapM (fun item => unmarshalString field item "") (marshalString <$> tags) = Ok tags.
Proof.
  induction 1 as [|tag tags Htag _ IH]; [done|].
  csimpl. rewrite IH. unfold marshalString. simpl. by rewrite toValidUTF8_valid.
Qed.

(** Decoding the seven members that [marshalTodo] writes, in its order. *)
Lemma unmarshalTodo_members (vid vtask vcompleted vcreated vpriority vdue vtags : json)
    (t : Todo) :
  unmarshalInt "id" vid 0 = Ok (ID t) ->
  unmarshalString "task" vtask "" = Ok (Task t) ->
  unmarshalBool "completed" vcompleted false = Ok (Completed t) ->
  unmarshalTime "created_at" vcreated zeroTime = Ok (CreatedAt t) ->
  unmarshalString "priority" vpriority "" = Ok (Priority t) ->
  unmarshalTimePtr "due_date" vdue None = Ok (DueDate t) ->
  unmarshalStrings "tags" vtags = Ok (Tags t) ->
  unmarshalTodo
    (JObject [("id", vid); ("task", vtask); ("completed", vcompleted);
              ("created_at", vcreated); ("priority", vpriority);
              ("due_date", vdue); ("tags", vtags)]) zeroTodo
  = Ok t.
Proof.
  intros H1 H2 H3 H4 H5 H6 H7. destruct t. simpl in *.
  rewrite H1; simpl. rewrite H2; simpl. rewrite H3; simpl. rewrite H4; simpl.
  rewrite H5; simpl. rewrite H6; simpl. rewrite H7; simpl.
  done.
Qed.

Lemma unmarshalTodo_marshalTodo (t : Todo) (j : json) :
  go_todo t -> utf8_todo t -> marshalTodo t = Ok j ->
  unmarshalTodo j zeroTodo = Ok t.
Proof.
  intros (Hid & Hcreated & Hdue) (Htask & Hprio & Htags). unfold marshalTodo.
  destruct (marshalTime (CreatedAt t)) as [created|] eqn:Hc; [|done].
  apply (unmarshalTime_marshalTime "created_at" _ zeroTime) in Hc; [|done].
  assert (Hd : forall vdue,
    match DueDate t with Some d => marshalTime d | None => Ok JNull end = Ok vdue ->
    unmarshalTimePtr "due_date" vdue None = Ok (DueDate t)).
  { intros vdue. destruct (DueDate t) as [d|] eqn:Hdd; [|by intros [= <-]].
    intros Hm. pose proof Hm as Hm'.
    apply (unmarshalTime_marshalTime "due_date" _ zeroTime) in Hm; [|by apply Hdue].
    unfold marshalTime in Hm'. destruct (marshalable d); [|done].
    injection Hm' as <-. unfold unmarshalTimePtr. simpl in *. by rewrite Hm. }
  destruct (match DueDate t with Some d => marshalTime d | None => Ok JNull end)
    as [vdue|] eqn:Hdue'; [|done].
  simpl. intros [= <-]. apply unmarshalTodo_members; try done.
  - by apply unmarshalInt_in_int.
  - unfold marshalString. simpl. by rewrite toValidUTF8_valid.
  - unfold marshalString. simpl. by rewrite toValidUTF8_valid.
  - by apply Hd.
  - destruct (Tags t) as [tags|]; [|done]. simpl in *.
    by rewrite unmarshalStrings_marshal.
Qed.

Lemma unmarshal_marshal_todos (l : list Todo) (js : list json) :
  Forall go_todo l -> Forall utf8_todo l -> mapM marshalTodo l = Ok js ->
  mapM (fun item => unmarshalTodo item zeroTodo) js = Ok l.
Proof.
  intros Hgo. revert js. induction Hgo as [|t l Ht _ IH]; intros js Hutf.
  - by intros [= <-].
  - apply Forall_cons in Hutf as [Hu Hutf]. cbn [mapM].
    destruct (marshalTodo t) as [j|] eqn:Hj; [|done]. cbn.
    destruct (mapM marshalTodo l) as [js'|] eqn:Hjs; [|done]. cbn.
    intros [= <-]. cbn [mapM].
    rewrite (unmarshalTodo_marshalTodo t j) by done. cbn.
    by rewrite (IH js').
Qed.

Lemma unmarshalTodoList_members (vtodos vnext : json) (tl old : TodoList) :
  unmarshalTodos vtodos = Ok (Todos tl) ->
  unmarshalInt "next_id" vnext (NextID old) = Ok (NextID tl) ->
  unmarshalTodoList (JObject [("todos", vtodos); ("next_id", vnext)]) old = Ok tl.
Proof.
  intros H1 H2. destruct tl. simpl in *. rewrite H1; simpl. by rewrite H2.
Qed.

Lemma unmarshal_marshal (tl : TodoList) (j : json) (old : TodoList) :
  go_value tl -> utf8_texts tl -> marshalTodoList tl = Ok j ->
  unmarshalTodoList j old = Ok tl.
Proof.
  intros [Hnext Hgo] Hutf. unfold marshalTodoList, go_value, utf8_texts, todos in *.
  destruct (Todos tl) as [l|] eqn:Hl; simpl in *.
  - destruct (mapM marshalTodo l) as [js|] eqn:Hjs; [|done]. cbn.
    intros [= <-]. apply unmarshalTodoList_members.
    + rewrite Hl. unfold unmarshalTodos.
      by rewrite (unmarshal_marshal_todos l js).
    + by apply unmarshalInt_in_int.
  - intros [= <-]. apply unmarshalTodoList_members.
    + by rewrite Hl.
    + by apply unmarshalInt_in_int.
Qed.

(** A collection and the collection with its texts made UTF-8 are written
    as the same document. *)
Lemma marshalTodo_restored (t : Todo) : marshalTodo (restored_todo t) = marshalTodo t.
Proof.
  unfold marshalTodo, restored_todo, marshalString. simpl.
  rewrite !toValidUTF8_idemp.
  destruct (Tags t) as [tags|]; simpl; [|done].
  rewrite <- list_fmap_compose.
  assert (Heq : (fun s => JString (toValidUTF8 s)) ∘ toValidUTF8 <$> tags
                = (fun s => JString (toValidUTF8 s)) <$> tags).
  { apply list_fmap_ext. intros i s _. simpl. by rewrite toValidUTF8_idemp. }
  by rewrite Heq.
Qed.

Lemma marshalTodoList_restored (tl : TodoList) :
  marshalTodoList (restored tl) = marshalTodoList tl.
Proof.
  unfold marshalTodoList, restored. simpl.
  destruct (Todos tl) as [l|]; simpl; [|done].
  replace (mapM marshalTodo (restored_todo <$> l)) with (mapM marshalTodo l); [done|].
  induction l as [|t l IH]; [done|]. csimpl. cbn [mapM].
  by rewrite marshalTodo_restored, IH.
Qed.

Lemma restored_fit (tl : TodoList) :
  go_value tl -> go_value (restored tl) /\ utf8_texts (restored tl).
Proof.
  intros [Hn Hgo]. unfold go_value, utf8_texts, restored, todos in *. simpl.
  destruct (Todos tl) as [l|]; simpl in *;
    [|split; [split; [done|constructor]|constructor]].
  split; [split; [done|]|].
  - apply Forall_fmap. eapply Forall_impl; [exact Hgo|]. by intros t (? & ? & ?).
  - apply Forall_fmap, Forall_forall. intros t _. unfold utf8_todo. simpl.
    rewrite !toValidUTF8_is_valid. split_and!; try done.
    destruct (Tags t) as [tags|]; simpl; [|constructor].
    apply Forall_fmap, Forall_forall. intros s _. apply toValidUTF8_is_valid.
Qed.

Lemma restored_valid (tl : TodoList) : utf8_texts tl -> restored tl = tl.
Proof.
  unfold utf8_texts, restored, todos. destruct tl as [[l|] n]; simpl; [|done].
  intros Hl. do 2 f_equal. induction Hl as [|t l (Ht & Hp & Htags) _ IH]; [done|].
  csimpl. rewrite IH. f_equal. unfold restored_todo.
  rewrite !toValidUTF8_valid by done. destruct t as [? ? ? ? ? ? [tags|]]; simpl in *; [|done].
  do 2 f_equal. induction Htags as [|s tags Hs _ IHt]; [done|].
  csimpl. by rewrite IHt, toValidUTF8_valid.
Qed.

Lemma marshalTodo_succeeds (t : Todo) :
  marshalable_todo t -> exists j, marshalTodo t = Ok j.
Proof.
  intros [Hc Hd]. unfold marshalTodo, marshalTime. rewrite Hc. cbn.
  destruct (DueDate t) as [d|]; [rewrite (Hd d) by done|]; cbn; by eexists.
Qed.

Lemma marshalTodoList_succeeds (tl : TodoList) :
  Forall marshalable_todo (todos tl) -> exists j, marshalTodoList tl = Ok j.
Proof.
  unfold marshalTodoList, todos. destruct (Todos tl) as [l|]; simpl; [|by eexists].
  intros Hl. assert (exists js, mapM marshalTodo l = Ok js) as [js ->].
  { induction Hl as [|t l Ht _ [js IH]]; [by eexists|].
    destruct (marshalTodo_succeeds t Ht) as [j Hj].
    cbn [mapM]. rewrite Hj, IH. cbn. by eexists. }
  cbn. by eexists.
Qed.

Lemma ReadFile_WriteFile (fs fs' : gmap string node) (name : string) (data : content) :
  WriteFile fs name data = (fs', None) -> ReadFile fs' name = inl data.
Proof.
  unfold WriteFile, ReadFile.
  destruct (fs !! name) as [[old|e]|]; intros [= <-]; by rewrite lookup_insert_eq.
Qed.

Lemma SaveToFile_writes (filename : string) (tl : TodoList) (fs fs' : gmap string node) :
  SaveToFile filename tl fs = (fs', None) ->
  exists j, marshalTodoList tl = Ok j /\ ReadFile fs' filename = inl (Document j).
Proof.
  unfold SaveToFile, MarshalIndent.
  destruct (marshalTodoList tl) as [j|]; cbn; [|done].
  destruct (WriteFile fs filename (Document j)) as [fs1 [e|]] eqn:Hw; [done|].
  intros [= <-]. exists j. split; [done|]. by eapply ReadFile_WriteFile.
Qed.


(** ** The collections of a session are fit to be saved *)

Lemma canonical_priority_valid (p : PriorityLevel) :
  ValidString (if isValidPriority p then p else PriorityMedium) = true.
Proof.
  unfold isValidPriority.
  destruct (bool_decide_reflect (p = PriorityHigh)) as [->|_]; [done|].
  destruct (bool_decide_reflect (p = PriorityMedium)) as [->|_]; [done|].
  by destruct (bool_decide_reflect (p = PriorityLow)) as [->|_].
Qed.

Lemma sound_alter (f : Todo -> Todo) (i : nat) (s : slice Todo) :
  (forall t, sound_todo t -> sound_todo (f t)) ->
  Forall sound_todo (elems s) -> Forall sound_todo (elems (modify i f s)).
Proof.
  intros Hf Hs. rewrite elems_modify. apply Forall_alter; [done|]. eauto.
Qed.

Lemma sound_set_Completed (b : bool) (t : Todo) :
  sound_todo t -> sound_todo (set_Completed b t).
Proof. by intros (? & ? & ? & ? & ?). Qed.

Lemma sound_set_Task (s : string) (t : Todo) :
  ValidString s = true -> sound_todo t -> sound_todo (set_Task s t).
Proof. by intros ? (? & ? & ? & ? & ?). Qed.

Lemma sound_Complete (id : Z) (tl : TodoList) :
  Forall sound_todo (todos tl) -> Forall sound_todo (todos (Complete id tl).1).
Proof.
  unfold Complete. destruct (find_id id (todos tl)) as [[i t]|]; [|done].
  apply sound_alter, sound_set_Completed.
Qed.

Lemma sound_Uncomplete (id : Z) (tl : TodoList) :
  Forall sound_todo (todos tl) -> Forall sound_todo (todos (Uncomplete id tl).1).
Proof.
  unfold Uncomplete. destruct (find_id id (todos tl)) as [[i t]|]; [|done].
  apply sound_alter, sound_set_Completed.
Qed.

Lemma sound_EditTask (id : Z) (s : string) (tl : TodoList) :
  ValidString s = true ->
  Forall sound_todo (todos tl) -> Forall sound_todo (todos (EditTask id s tl).1).
Proof.
  intros Hs. unfold EditTask. destruct (find_id id (todos tl)) as [[i t]|]; [|done].
  apply sound_alter. intros t'. by apply sound_set_Task.
Qed.

Lemma sound_Delete (id : Z) (tl : TodoList) :
  Forall sound_todo (todos tl) ->
  Forall sound_todo (todos (Delete id tl).1)
  /\ (forall d, (Delete id tl).2 = inl d -> sound_todo d).
Proof.
  intros Hs. destruct (Delete_cases id tl) as [-> | (l1 & d & l2 & Hl & _ & ->)].
  - by split.
  - rewrite Hl in Hs. apply Forall_app in Hs as [H1 [Hd H2]%Forall_cons].
    split; [by apply Forall_app | by intros d' [= <-]].
Qed.

Lemma sound_ClearCompleted (tl : TodoList) :
  Forall sound_todo (todos tl) -> Forall sound_todo (todos (ClearCompleted tl).1).
Proof.
  intros Hs. destruct (ClearCompleted_todos tl) as [-> _].
  apply Forall_forall. intros t [_ Ht]%list_elem_of_filter.
  rewrite Forall_forall in Hs. by apply Hs.
Qed.

Lemma sound_append (tl : TodoList) (t : Todo) (n : Z) :
  Forall sound_todo (todos tl) -> sound_todo t ->
  Forall sound_todo (todos (mkTodoList (append (Todos tl) [t]) n)).
Proof.
  intros Hs Ht. unfold todos; simpl. rewrite elems_append.
  apply Forall_app. split; [done | by apply Forall_singleton].
Qed.

Lemma undo_sound (w : world) : sound w -> sound (undo w).
Proof.
  intros [Hs Hu]. unfold undo. split; [|done]. simpl.
  destruct (Type_ (lastActionState w)).
  - done.
  - pose proof (sound_Delete (ActionID (lastActionState w)) (todoList w) Hs) as [H _].
    by destruct (Delete _ (todoList w)) as [tl' [d|e]].
  - pose proof (sound_Uncomplete (ActionID (lastActionState w)) (todoList w) Hs) as H.
    by destruct (Uncomplete _ (todoList w)) as [tl' [e|]].
  - destruct (DeletedTodo (lastActionState w)) as [d|] eqn:Hd; [|done].
    simpl. apply sound_append; [done | by apply Hu].
  - pose proof (sound_Complete (ActionID (lastActionState w)) (todoList w) Hs) as H.
    by destruct (Complete _ (todoList w)) as [tl' [e|]].
Qed.

Lemma step_sound (w : world) (c : command) :
  sound w -> command_ok c -> sound (step w c).
Proof.
  intros Hw Hc. pose proof Hw as [Hs Hu].
  destruct c as [task p due tags now|id s|[]|q|id|id|id []| |]; simpl in Hc.
  - destruct Hc as (Htask & Htags & Hnow & Hdue). split; [|done]. simpl.
    apply sound_append; [done|]. unfold sound_todo, utf8_todo; simpl.
    split_and!; try done. apply canonical_priority_valid.
  - simpl. pose proof (sound_EditTask id s (todoList w) Hc Hs) as H.
    by destruct (EditTask id s (todoList w)) as [tl' [e|]].
  - simpl. pose proof (sound_ClearCompleted (todoList w) Hs) as H.
    by destruct (ClearCompleted (todoList w)) as [tl' m].
  - done.
  - simpl. by destruct (_ =? _)%nat.
  - simpl. pose proof (sound_Complete id (todoList w) Hs) as H.
    by destruct (Complete id (todoList w)) as [tl' [e|]].
  - simpl. pose proof (sound_Uncomplete id (todoList w) Hs) as H.
    by destruct (Uncomplete id (todoList w)) as [tl' [e|]].
  - simpl. pose proof (sound_Delete id (todoList w) Hs) as [H Hd].
    destruct (Delete id (todoList w)) as [tl' [d|e]]; [|done].
    split; [done|]. simpl. intros d' [= <-]. by apply Hd.
  - done.
  - done.
  - by apply undo_sound.
Qed.

Lemma run_sound (cs : list command) (w : world) :
  sound w -> Forall command_ok cs -> sound (run w cs).
Proof.
  revert w. induction cs as [|c cs IH]; intros w Hw Hcs; [done|].
  apply Forall_cons in Hcs as [Hc Hcs]. rewrite run_cons.
  apply IH; [by apply step_sound | done].
Qed.

(** The collection of a session with fewer than 2^63 - 1 adds, whose
    arguments are readings of the calendar and texts in UTF-8, is a value
    of the program whose texts are UTF-8. *)
Lemma session_fit_to_save (cs : list command) :
  Z.of_nat (adds cs) < int_max -> Forall command_ok cs ->
  go_value (todoList (run start cs)) /\ utf8_texts (todoList (run start cs)).
Proof.
  intros Hmax Hcs.
  destruct (run_consistent cs start initial_consistent) as (Hc & Hnext & _);
    [simpl; lia|].
  assert (Hs : sound (run start cs)).
  { apply run_sound; [|done]. split; [constructor | done]. }
  destruct Hs as [Hs _]. destruct Hc as [Hpos _ Hbelow _].
  simpl in Hnext. unfold go_value, utf8_texts, in_int.
  unfold ids in Hbelow. rewrite Forall_fmap, Forall_forall in Hbelow.
  rewrite Forall_forall in Hs.
  split_and!.
  - unfold int_min. lia.
  - lia.
  - apply Forall_forall. intros t Ht. specialize (Hbelow t Ht). simpl in Hbelow.
    destruct (Hs t Ht) as (? & ? & _). split_and!; try done.
    unfold in_int, int_min. lia.
  - apply Forall_forall. intros t Ht. by destruct (Hs t Ht) as (_ & _ & ?).
Qed.

(** C2, amended.  A collection of an interactive session whose texts are
    UTF-8, saved by a [SaveToFile] that succeeds, is what [LoadFromFile]
    then returns from the same path: the same records with the same
    identifiers, descriptions, completion flags, creation time stamps,
    priorities, due dates and tags, and the same counter.  [SaveToFile]
    succeeds when the years of the time stamps are within 0..9999, their
    zones within a day, and the path can be written.  The collection of
    every session with fewer than 2^63 - 1 adds whose texts are UTF-8 and
    whose dates are readings of the calendar is such a collection.

    Whatever the texts, a save that succeeds is loaded as the collection
    with its texts made UTF-8: a description, priority or tag that is
    UTF-8 comes back as it is, and in one that is not, the valid text
    before a byte that starts no rune is kept, the byte becomes U+FFFD, and
    the text after it is treated the same way; what comes back is UTF-8. *)
Theorem save_then_load_restores :
  (forall (filename : string) (tl : TodoList) (fs fs' : gmap string node),
     go_value tl -> utf8_texts tl ->
     SaveToFile filename tl fs = (fs', None) ->
     LoadFromFile filename fs' = (Some tl, None))
  /\ (forall (filename : string) (tl : TodoList) (fs : gmap string node),
       Forall marshalable_todo (todos tl) ->
       (forall e, fs !! filename <> Some (Fails e)) ->
       (SaveToFile filename tl fs).2 = None)
  /\ (forall cs : list command,
       Z.of_nat (adds cs) < int_max -> Forall command_ok cs ->
       go_value (todoList (run start cs)) /\ utf8_texts (todoList (run start cs)))
  /\ (forall (filename : string) (tl : TodoList) (fs fs' : gmap string node),
       go_value tl ->
       SaveToFile filename tl fs = (fs', None) ->
       LoadFromFile filename fs' = (Some (restored tl), None))
  /\ (forall s : string,
       ValidString (toValidUTF8 s) = true
       /\ (ValidString s = true -> toValidUTF8 s = s))
  /\ (forall (v : string) (c : ascii) (r : string),
       ValidString v = true -> rune_len (String c r) = 0%nat ->
       toValidUTF8 (v +:+ String c r) = v +:+ replacement +:+ toValidUTF8 r).
Proof.
  split_and!.
  - intros filename tl fs fs' Hgo Hutf (j & Hj & Hread)%SaveToFile_writes.
    unfold LoadFromFile, Unmarshal. rewrite Hread.
    by rewrite (unmarshal_marshal tl j NewTodoList).
  - intros filename tl fs Hm Hw. unfold SaveToFile, MarshalIndent.
    destruct (marshalTodoList_succeeds tl Hm) as [j ->]. cbn.
    unfold WriteFile. destruct (fs !! filename) as [[old|e]|] eqn:Hf; try done.
    by destruct (Hw e).
  - apply session_fit_to_save.
  - intros filename tl fs fs' Hgo (j & Hj & Hread)%SaveToFile_writes.
    unfold LoadFromFile, Unmarshal. rewrite Hread.
    destruct (restored_fit tl Hgo) as [Hgo' Hutf'].
    rewrite <- marshalTodoList_restored in Hj.
    by rewrite (unmarshal_marshal (restored tl) j NewTodoList).
  - intros s. split; [apply toValidUTF8_is_valid | apply toValidUTF8_valid].
  - apply toValidUTF8_offending.
Qed.

Lemma save_then_load_restores_witness :
  let tl := todoList (run start two_adds_and_a_complete) in
  let tl' := todoList (run start [CmdAdd cafe_latin1 "" None (Some [cafe_latin1]) morning]) in
  LoadFromFile "todos.json" (SaveToFile "todos.json" tl ∅).1 = (Some tl, None)
  /\ LoadFromFile "todos.json" (SaveToFile "todos.json" tl' ∅).1
     = (Some (mkTodoList
                (Some [mkTodo 1 ("caf" +:+ replacement) false morning PriorityMedium
                              None (Some ["caf" +:+ replacement])]) 2), None).
Proof.
  intros tl tl'. destruct save_then_load_restores as (Hload & _ & Hfit & Hany & _).
  split.
  - destruct (Hfit two_adds_and_a_complete) as [Hgo Hutf].
    + vm_compute. reflexivity.
    + repeat (apply Forall_cons; split); [..|apply Forall_nil]; simpl; try done;
        (split_and!; [reflexivity | repeat constructor | reflexivity |]);
        intros d [= <-]; reflexivity.
    + apply (Hload "todos.json" tl ∅); [done..|]. reflexivity.
  - rewrite (Hany "todos.json" tl' ∅ (SaveToFile "todos.json" tl' ∅).1).
    + reflexivity.
    + split; [by vm_compute|]. repeat constructor; try done; by vm_compute.
    + reflexivity.
Defined.

(** C2, as the specification states it, fails: a description that is not
    UTF-8 (here "café" in Latin-1, typed at the prompt) is saved without an
    error, and comes back with U+FFFD in the place of its last byte. *)
Lemma latin1_description_is_not_restored :
  let tl := todoList (run start latin1_session) in
  (SaveToFile "todos.json" tl ∅).2 = None
  /\ LoadFromFile "todos.json" (SaveToFile "todos.json" tl ∅).1 <> (Some tl, None)
  /\ (todos <$> (LoadFromFile "todos.json" (SaveToFile "todos.json" tl ∅).1).1)
     = Some [mkTodo 1 (String.append "caf" replacement) false morning
                    PriorityMedium None (Some [])].
Proof.
  split_and!.
  - vm_compute. reflexivity.
  - vm_compute. discriminate.
  - vm_compute. reflexivity.
Qed.

(** ** Load *)

(** C7. Loading from a path that does not exist gives a new empty
    collection (no records, counter 1) and no error, and so does any read
    error that [os.IsNotExist] recognises; every other read error, and every
    failure to decode what was read, gives no collection and an error. *)
Theorem LoadFromFile_bootstrap_or_error (filename : string) (fs : gmap string node) :
  (fs !! filename = None ->
   LoadFromFile filename fs = (Some (mkTodoList (Some []) 1), None))
  /\ (forall e, ReadFile fs filename = inr e -> IsNotExist e = true ->
      LoadFromFile filename fs = (Some (mkTodoList (Some []) 1), None))
  /\ (forall e, ReadFile fs filename = inr e -> IsNotExist e = false ->
      LoadFromFile filename fs = (None, Some (ErrLoad e)))
  /\ (forall data e, ReadFile fs filename = inl data ->
      Unmarshal data NewTodoList = Err e ->
      LoadFromFile filename fs = (None, Some (ErrParse e))).
Proof.
  unfold LoadFromFile. split_and!.
  - intros Hnone. unfold ReadFile. by rewrite Hnone.
  - intros e -> ->. done.
  - intros e -> ->. done.
  - intros data e -> ->. done.
Qed.

Lemma LoadFromFile_bootstrap_or_error_witness :
  LoadFromFile "todos.json" ∅ = (Some (mkTodoList (Some []) 1), None)
  /\ LoadFromFile "todos.json" {["todos.json" := Fails ErrPermission]}
     = (None, Some (ErrLoad ErrPermission))
  /\ LoadFromFile "todos.json" {["todos.json" := File (NotJSON "{")]}
     = (None, Some (ErrParse SyntaxError))
  /\ LoadFromFile "todos.json"
       {["todos.json" := File (Document (JObject [("next_id", JString "7")]))]}
     = (None, Some (ErrParse (UnmarshalTypeError "next_id"))).
Proof.
  split_and!.
  - apply (proj1 (LoadFromFile_bootstrap_or_error "todos.json" ∅)). reflexivity.
  - destruct (LoadFromFile_bootstrap_or_error "todos.json"
                {["todos.json" := Fails ErrPermission]}) as (_ & _ & H & _).
    apply H; reflexivity.
  - destruct (LoadFromFile_bootstrap_or_error "todos.json"
                {["todos.json" := File (NotJSON "{")]}) as (_ & _ & _ & H).
    apply (H (NotJSON "{")); reflexivity.
  - destruct (LoadFromFile_bootstrap_or_error "todos.json"
                {["todos.json" := File (Document (JObject [("next_id", JString "7")]))]})
      as (_ & _ & _ & H).
    apply (H (Document (JObject [("next_id", JString "7")]))); reflexivity.
Defined.

(** [TestSaveAndLoad]: two records, one with a due date and tags, one with
    neither, are saved and loaded; then the file is removed and the load
    gives the empty collection. *)
Example SaveAndLoad_test :
  let tl1 := Add "Task B simple" "low" None None noon
               (Add "Task A with details" "high" (Some (date 2024 3 15))
                    (Some ["work"; "project"]) morning NewTodoList) in
  let fs := (SaveToFile "test_todos.json" tl1 ∅).1 in
  LoadFromFile "test_todos.json" fs = (Some tl1, None)
  /\ LoadFromFile "test_todos.json" (delete "test_todos.json" fs)
     = (Some NewTodoList, None).
Proof. vm_compute. done. Qed.

(** * Further properties of the collection (models.go) *)

(** ** Add *)

Lemma toCanonicalPriority_cases (p : PriorityLevel) :
  toCanonicalPriority p = if isValidPriority (ToLower p) then ToLower p else "".
Proof.
  unfold toCanonicalPriority, isValidPriority, priorityMap,
    PriorityHigh, PriorityMedium, PriorityLow.
  destruct (bool_decide_reflect (ToLower p = "high")) as [->|H1]; [done|].
  destruct (bool_decide_reflect (ToLower p = "medium")) as [->|H2]; [done|].
  destruct (bool_decide_reflect (ToLower p = "low")) as [->|H3]; [done|].
  rewrite !lookup_insert_ne by congruence.
  by rewrite lookup_empty, !bool_decide_eq_false_2.
Qed.

Lemma ToLower_idemp (s : string) : ToLower (ToLower s) = ToLower s.
Proof.
  induction s as [|c s IH]; simpl; [done|]. f_equal; [|done].
  unfold lower_byte.
  destruct ((65 <=? N_of_ascii c)%N && (N_of_ascii c <=? 90)%N) eqn:Hc.
  - apply andb_true_iff in Hc as [H1%N.leb_le H2%N.leb_le].
    rewrite N_ascii_embedding by lia.
    replace ((65 <=? N_of_ascii c + 32)%N && (N_of_ascii c + 32 <=? 90)%N)
      with false; [done|].
    symmetry. apply andb_false_iff. right. apply N.leb_gt. lia.
  - by rewrite Hc.
Qed.

Lemma isValidPriority_lower (p : PriorityLevel) :
  isValidPriority p = true -> ToLower p = p.
Proof.
  unfold isValidPriority.
  destruct (bool_decide_reflect (p = PriorityHigh)) as [->|_]; [done|].
  destruct (bool_decide_reflect (p = PriorityMedium)) as [->|_]; [done|].
  by destruct (bool_decide_reflect (p = PriorityLow)) as [->|_].
Qed.

(** The priority that [Add] stores: the given one in lower case when that is
    one of the three levels, and the medium level otherwise. *)
Lemma Add_priority (p : PriorityLevel) :
  let c := toCanonicalPriority p in
  (if isValidPriority c then c else PriorityMedium)
  = if isValidPriority (ToLower p) then ToLower p else PriorityMedium.
Proof.
  simpl. rewrite toCanonicalPriority_cases.
  by destruct (isValidPriority (ToLower p)) eqn:Hv; [rewrite Hv|].
Qed.

Lemma levels_small (level : PriorityLevel) :
  level ∈ [PriorityHigh; PriorityMedium; PriorityLow] ->
  isValidPriority level = true /\ no_capital level.
Proof.
  intros H. repeat (apply elem_of_cons in H as [->|H]);
    [split; [done|]; unfold no_capital, is_capital;
     apply (bool_decide_unpack _); by vm_compute..|].
  by apply elem_of_nil in H.
Qed.

Lemma isValidPriority_levels (p : PriorityLevel) :
  isValidPriority p = true <-> p ∈ [PriorityHigh; PriorityMedium; PriorityLow].
Proof.
  unfold isValidPriority. rewrite !orb_true_iff, !bool_decide_eq_true.
  rewrite !elem_of_cons, elem_of_nil. tauto.
Qed.

(** [Add] appends one record and touches no other: the new record has the
    identifier that the counter showed, is not completed, and carries the
    description, the due date, the tags and the reading of the clock that
    were given.  Its priority is always one of the three levels; for a
    priority given in ASCII it is the level that the given text names,
    letter case aside, and the medium level when the text names none, the
    empty one included.  The counter goes up by one. *)
Theorem Add_appends_one_valid_record (task : string) (priority : PriorityLevel)
    (dueDate : option Time) (tags : slice string) (now : Time) (tl : TodoList) :
  int_min <= NextID tl < int_max ->
  exists t,
    Add task priority dueDate tags now tl
      = mkTodoList (Some (todos tl ++ [t])) (NextID tl + 1)
    /\ ID t = NextID tl /\ Task t = task /\ Completed t = false
    /\ CreatedAt t = now /\ DueDate t = dueDate /\ Tags t = tags
    /\ Priority t ∈ [PriorityHigh; PriorityMedium; PriorityLow]
    /\ (is_ascii priority = true ->
        forall level, level ∈ [PriorityHigh; PriorityMedium; PriorityLow] ->
                      equal_fold priority level -> Priority t = level)
    /\ (is_ascii priority = true ->
        (forall level, level ∈ [PriorityHigh; PriorityMedium; PriorityLow] ->
                       ~ equal_fold priority level) ->
        Priority t = PriorityMedium).
Proof.
  intros Hn.
  exists (mkTodo (NextID tl) task false now
            (if isValidPriority (ToLower priority) then ToLower priority
             else PriorityMedium) dueDate tags).
  split_and!; try reflexivity.
  - unfold Add. rewrite wrap_small by (unfold int_min, int_max in *; lia).
    rewrite Add_priority. f_equal. unfold append, todos. by destruct (Todos tl).
  - simpl. destruct (isValidPriority (ToLower priority)) eqn:Hv.
    + by apply isValidPriority_levels.
    + apply elem_of_cons; right. apply elem_of_cons; by left.
  - intros _ level Hl Hf. simpl. destruct (levels_small level Hl) as [Hv Hc].
    assert (ToLower priority = level) as -> by (by apply ToLower_spec).
    by rewrite Hv.
  - intros _ Hnone. simpl.
    destruct (isValidPriority (ToLower priority)) eqn:Hv; [|done].
    apply isValidPriority_levels in Hv. destruct (Hnone _ Hv). apply ToLower_fold.
Qed.

Lemma Add_appends_one_valid_record_witness :
  exists t,
    Add "Call Bob" "HIGH" None (Some ["phone"]) noon three_tasks
      = mkTodoList (Some (todos three_tasks ++ [t])) 5
    /\ ID t = 4 /\ Priority t = PriorityHigh.
Proof.
  destruct (Add_appends_one_valid_record "Call Bob" "HIGH" None (Some ["phone"])
              noon three_tasks) as (t & H1 & H2 & _ & _ & _ & _ & _ & _ & H9 & _).
  { unfold int_min, int_max. simpl. lia. }
  exists t. split_and!; [exact H1 | exact H2 |].
  apply H9; [reflexivity | apply elem_of_cons; by left |].
  apply (bool_decide_unpack _). by vm_compute.
Defined.

(** ** Complete and Uncomplete *)

Lemma set_flag_found (tl : TodoList) (id : Z) :
  Exists (fun t => ID t = id) (todos tl) ->
  exists l1 d l2,
    todos tl = l1 ++ d :: l2 /\ ID d = id /\ Forall (fun t => ID t <> id) l1 /\
    Todos tl = Some (l1 ++ d :: l2) /\
    Complete id tl
      = (mkTodoList (Some (l1 ++ set_Completed true d :: l2)) (NextID tl), None) /\
    Uncomplete id tl
      = (mkTodoList (Some (l1 ++ set_Completed false d :: l2)) (NextID tl), None).
Proof.
  intros Hex. pose proof Hex as (i & t & Hfind)%find_id_some.
  destruct (find_id_split _ _ _ _ Hfind) as (l1 & l2 & Hl & Hlen & Hid & Hbefore).
  exists l1, t, l2.
  assert (Hs : Todos tl = Some (todos tl)).
  { apply (todos_has_slice tl t). rewrite Hl. set_solver. }
  split_and!; try done.
  - by rewrite Hs, Hl.
  - unfold Complete. rewrite Hfind, Hs. simpl. by rewrite Hl, <- Hlen, alter_at.
  - unfold Uncomplete. rewrite Hfind, Hs. simpl. by rewrite Hl, <- Hlen, alter_at.
Qed.

Lemma set_flag_absent (tl : TodoList) (id : Z) :
  Forall (fun t => ID t <> id) (todos tl) ->
  Complete id tl = (tl, Some (ErrNotFound id))
  /\ Uncomplete id tl = (tl, Some (ErrNotFound id)).
Proof.
  intros Hnone%find_id_none. unfold Complete, Uncomplete. by rewrite Hnone.
Qed.

(** [Complete id] and [Uncomplete id] set the flag of the first record whose
    identifier is [id], to true and to false, and change nothing else: not
    the other fields of that record, not the other records, their number or
    their order, not the counter.  When no record has the identifier, they
    return the error NotFound and the collection as it was. *)
Theorem Complete_sets_only_the_flag (tl : TodoList) (id : Z) :
  (Exists (fun t => ID t = id) (todos tl) ->
   exists l1 d l2,
     todos tl = l1 ++ d :: l2 /\ ID d = id /\ Forall (fun t => ID t <> id) l1 /\
     Complete id tl
       = (mkTodoList (Some (l1 ++ set_Completed true d :: l2)) (NextID tl), None) /\
     Uncomplete id tl
       = (mkTodoList (Some (l1 ++ set_Completed false d :: l2)) (NextID tl), None))
  /\
  (Forall (fun t => ID t <> id) (todos tl) ->
   Complete id tl = (tl, Some (ErrNotFound id))
   /\ Uncomplete id tl = (tl, Some (ErrNotFound id))).
Proof.
  split; [|apply set_flag_absent].
  intros (l1 & d & l2 & H1 & H2 & H3 & _ & H4 & H5)%set_flag_found.
  by exists l1, d, l2.
Qed.

Lemma Complete_sets_only_the_flag_witness :
  (exists l1 d l2,
     todos three_tasks = l1 ++ d :: l2 /\ ID d = 2 /\ Forall (fun t => ID t <> 2) l1 /\
     Complete 2 three_tasks
       = (mkTodoList (Some (l1 ++ set_Completed true d :: l2)) 4, None) /\
     Uncomplete 2 three_tasks
       = (mkTodoList (Some (l1 ++ set_Completed false d :: l2)) 4, None))
  /\ Complete 99 three_tasks = (three_tasks, Some (ErrNotFound 99)).
Proof.
  split.
  - apply (proj1 (Complete_sets_only_the_flag three_tasks 2)).
    apply Exists_cons_tl, Exists_cons_hd. reflexivity.
  - apply (proj2 (Complete_sets_only_the_flag three_tasks 99)).
    repeat constructor; simpl; lia.
Defined.

Lemma set_flag_again (b1 b2 : bool) (l1 l2 : list Todo) (d : Todo) (n : Z) :
  Forall (fun t => ID t <> ID d) l1 ->
  let tl := mkTodoList (Some (l1 ++ set_Completed b1 d :: l2)) n in
  (if b2 then Complete (ID d) tl else Uncomplete (ID d) tl)
  = (mkTodoList (Some (l1 ++ set_Completed b2 d :: l2)) n, None).
Proof.
  intros Hbefore tl.
  destruct (set_flag_found tl (ID d)) as (k1 & e & k2 & Hk & He & Hk1 & _ & HC & HU).
  { apply Exists_app. right. by apply Exists_cons_hd. }
  assert (Hsame : k1 = l1 /\ e = set_Completed b1 d /\ k2 = l2).
  { simpl in Hk. unfold todos in Hk; simpl in Hk.
    clear HC HU. revert k1 Hk Hk1. induction l1 as [|x l1 IH]; intros k1 Hk Hk1.
    - destruct k1 as [|y k1]; simpl in Hk.
      + by injection Hk as <- <-.
      + injection Hk as <- Hk. by apply Forall_cons_1 in Hk1 as [[] _].
    - apply Forall_cons_1 in Hbefore as [Hx Hbefore].
      destruct k1 as [|y k1]; simpl in Hk.
      + injection Hk as -> Hk. done.
      + injection Hk as <- Hk. apply Forall_cons_1 in Hk1 as [_ Hk1].
        destruct (IH Hbefore k1 Hk Hk1) as (-> & -> & ->). done. }
  destruct Hsame as (-> & -> & ->). destruct b2; [rewrite HC | rewrite HU]; done.
Qed.

(** Completing is idempotent, and what [Uncomplete] leaves does not depend
    on a [Complete] before it (nor the other way round).  In particular
    [Uncomplete] takes back the [Complete] of a record that was not
    completed: the collection is again what it was. *)
Theorem Uncomplete_takes_back_Complete (tl : TodoList) (id : Z) :
  Exists (fun t => ID t = id) (todos tl) ->
  Complete id (Complete id tl).1 = Complete id tl
  /\ Uncomplete id (Complete id tl).1 = Uncomplete id tl
  /\ Complete id (Uncomplete id tl).1 = Complete id tl
  /\ (forall i d, find_id id (todos tl) = Some (i, d) -> Completed d = false ->
        Uncomplete id (Complete id tl).1 = (tl, None))
  /\ (forall i d, find_id id (todos tl) = Some (i, d) -> Completed d = true ->
        (Uncomplete id (Complete id tl).1).1 <> tl).
Proof.
  intros Hex.
  destruct (set_flag_found tl id Hex) as (l1 & d & l2 & Hl & Hid & Hbefore & Hs & HC & HU).
  subst id. rewrite HC, HU. simpl.
  pose proof (set_flag_again true true l1 l2 d (NextID tl) Hbefore) as H1.
  pose proof (set_flag_again true false l1 l2 d (NextID tl) Hbefore) as H2.
  pose proof (set_flag_again false true l1 l2 d (NextID tl) Hbefore) as H3.
  simpl in H1, H2, H3. split_and!; try done.
  - intros i d' Hfind Hd'.
    destruct (find_id_split _ _ _ _ Hfind) as (k1 & k2 & Hk & _ & Hid' & Hk1).
    assert (d' = d) as ->.
    { rewrite Hl in Hk. clear -Hk Hbefore Hk1 Hid'.
      revert k1 Hk Hk1. induction l1 as [|x l1 IH]; intros [|y k1] Hk Hk1; simpl in Hk.
      - by injection Hk.
      - injection Hk as -> _. by apply Forall_cons_1 in Hk1 as [[] _].
      - injection Hk as -> _. by apply Forall_cons_1 in Hbefore as [[] _].
      - injection Hk as _ Hk. apply Forall_cons_1 in Hbefore as [_ Hbefore].
        apply Forall_cons_1 in Hk1 as [_ Hk1]. eauto. }
    rewrite H2. f_equal. destruct tl as [ts n]; simpl in *. subst ts.
    do 3 f_equal. by destruct d; simpl in *; subst.
  - intros i d' Hfind Hd'.
    destruct (find_id_split _ _ _ _ Hfind) as (k1 & k2 & Hk & _ & Hid' & Hk1).
    assert (d' = d) as ->.
    { rewrite Hl in Hk. clear -Hk Hbefore Hk1 Hid'.
      revert k1 Hk Hk1. induction l1 as [|x l1 IH]; intros [|y k1] Hk Hk1; simpl in Hk.
      - by injection Hk.
      - injection Hk as -> _. by apply Forall_cons_1 in Hk1 as [[] _].
      - injection Hk as -> _. by apply Forall_cons_1 in Hbefore as [[] _].
      - injection Hk as _ Hk. apply Forall_cons_1 in Hbefore as [_ Hbefore].
        apply Forall_cons_1 in Hk1 as [_ Hk1]. eauto. }
    rewrite H2. simpl. intros Heq. rewrite <- Heq in Hs. simpl in Hs.
    injection Hs as Hs. apply app_inv_head in Hs. injection Hs as Hs.
    rewrite <- Hs in Hd'. done.
Qed.

Lemma Uncomplete_takes_back_Complete_witness :
  Uncomplete 2 (Complete 2 three_tasks).1 = (three_tasks, None).
Proof.
  destruct (Uncomplete_takes_back_Complete three_tasks 2) as (_ & _ & _ & H & _).
  { apply Exists_cons_tl, Exists_cons_hd. reflexivity. }
  apply (H 1%nat (plain 2 "Task 2")); reflexivity.
Defined.

(** ** ClearCompleted *)

Lemma length_filter_flag (l : list Todo) :
  (length (filter (fun t => Completed t = false) l)
   + length (filter (fun t => Completed t = true) l))%nat = length l.
Proof.
  induction l as [|t l IH]; [done|]. rewrite !filter_cons.
  destruct (Completed t); simpl;
    repeat (destruct (decide _) as [?|?]; try done); simpl; lia.
Qed.

Lemma filter_flag_idemp (l : list Todo) :
  filter (fun t => Completed t = false) (filter (fun t => Completed t = false) l)
  = filter (fun t => Completed t = false) l.
Proof.
  induction l as [|t l IH]; [done|]. rewrite filter_cons.
  destruct (decide (Completed t = false)) as [Ht|Ht]; [|done].
  rewrite filter_cons. destruct (decide (Completed t = false)); [|done]. by f_equal.
Qed.

(** [ClearCompleted] keeps the records that are not completed, in their
    order, and the counter, and reports how many records it removed.  When
    no record is completed it reports that there is nothing to clear and
    leaves the collection as it is; that is what a second call right after
    the first always finds. *)
Theorem ClearCompleted_keeps_the_active (tl : TodoList) :
  let completed := length (filter (fun t => Completed t = true) (todos tl)) in
  todos (ClearCompleted tl).1 = filter (fun t => Completed t = false) (todos tl)
  /\ NextID (ClearCompleted tl).1 = NextID tl
  /\ (ClearCompleted tl).2
     = (if (completed =? 0)%nat then MsgNoCompleted
        else MsgCleared (Z.of_nat completed))
  /\ (completed = 0%nat -> (ClearCompleted tl).1 = tl)
  /\ ClearCompleted (ClearCompleted tl).1 = ((ClearCompleted tl).1, MsgNoCompleted).
Proof.
  intros completed.
  destruct (ClearCompleted_todos tl) as [Htodos Hnext].
  pose proof (length_filter_flag (todos tl)) as Hlen. fold completed in Hlen.
  pose proof (active_loop (todos tl) None) as Hloop. simpl in Hloop.
  assert (Hmsg : (ClearCompleted tl).2
                 = (if (completed =? 0)%nat then MsgNoCompleted
                    else MsgCleared (Z.of_nat completed))
                 /\ (completed = 0%nat -> (ClearCompleted tl).1 = tl)).
  { unfold ClearCompleted. rewrite Hloop.
    destruct (_ <? _)%nat eqn:Hlt; simpl.
    - apply Nat.ltb_lt in Hlt. split; [|lia].
      destruct (Nat.eqb_spec completed 0); [lia|]. f_equal. lia.
    - apply Nat.ltb_ge in Hlt. split; [|done].
      destruct (Nat.eqb_spec completed 0); [done|lia]. }
  destruct Hmsg as [Hmsg Hsame]. split_and!; try done.
  set (tl' := (ClearCompleted tl).1) in *.
  unfold ClearCompleted at 1.
  pose proof (active_loop (todos tl') None) as Hloop'. simpl in Hloop'.
  rewrite Hloop', Htodos, filter_flag_idemp.
  by rewrite Nat.ltb_irrefl.
Qed.

(** ** The filters of a listing *)

Lemma hasTag_exists (filterTags todoTags : list string) :
  hasTag filterTags todoTags = true <->
  Exists (fun filterTag =>
            Exists (fun todoTag => equal_fold filterTag todoTag) todoTags)
         filterTags.
Proof.
  unfold hasTag. rewrite existsb_exists, Exists_exists. split.
  - intros (ft & Hft & (tt & Htt & Heq%String.eqb_eq)%existsb_exists).
    exists ft. rewrite list_elem_of_In. split; [done|].
    apply Exists_exists. exists tt. rewrite list_elem_of_In.
    split; [done|]. by apply ToLower_eq_fold.
  - intros (ft & Hft & (tt & Htt & Heq%ToLower_eq_fold)%Exists_exists). exists ft.
    rewrite <- list_elem_of_In. split; [done|]. apply existsb_exists.
    exists tt. rewrite <- list_elem_of_In. by rewrite String.eqb_eq.
Qed.

Lemma keep_conditions (o : ListOptions) (t : Todo) :
  keep o t
  = negb (String.eqb (FilterStatus o) "completed" && negb (Completed t))
    && negb (String.eqb (FilterStatus o) "incomplete" && Completed t)
    && negb (negb (String.eqb (toCanonicalPriority (FilterPriority o)) "")
             && negb (String.eqb (Priority t)
                                 (toCanonicalPriority (FilterPriority o))))
    && ((length (elems (FilterTags o)) =? 0)%nat
        || hasTag (elems (FilterTags o)) (elems (Tags t))).
Proof.
  unfold keep.
  generalize (hasTag (elems (FilterTags o)) (elems (Tags t))) as h.
  generalize (length (elems (FilterTags o))) as n.
  intros n h.
  destruct (String.eqb (FilterStatus o) "completed" && negb (Completed t));
    destruct (String.eqb (FilterStatus o) "incomplete" && Completed t);
    destruct (negb (String.eqb (toCanonicalPriority (FilterPriority o)) "")
              && negb (String.eqb (Priority t)
                                  (toCanonicalPriority (FilterPriority o))));
    destruct n, h; done.
Qed.

(** The priority filter, as the code decides it and as a reader sees it. *)
Lemma priority_filter (filter priority : PriorityLevel) :
  (isValidPriority (ToLower filter) = true -> priority = ToLower filter)
  <-> Forall (fun level => equal_fold filter level -> priority = level)
             [PriorityHigh; PriorityMedium; PriorityLow].
Proof.
  rewrite Forall_forall. split.
  - intros H level Hl Hf. destruct (levels_small level Hl) as [Hv Hc].
    assert (ToLower filter = level) as Heq by (by apply ToLower_spec).
    rewrite <- Heq. apply H. by rewrite Heq.
  - intros H Hv. apply H; [by apply isValidPriority_levels | apply ToLower_fold].
Qed.

Lemma keep_passes (o : ListOptions) (t : Todo) : keep o t = true <-> passes o t.
Proof.
  rewrite keep_conditions, toCanonicalPriority_cases, !andb_true_iff.
  unfold passes. rewrite <- priority_filter. split.
  - intros (((H1 & H2) & H3) & H4). split_and!.
    + intros He. rewrite He in H1. simpl in H1. by destruct (Completed t).
    + intros He. rewrite He in H2. simpl in H2. by destruct (Completed t).
    + intros Hv. rewrite Hv in H3.
      destruct (String.eqb_spec (ToLower (FilterPriority o)) "") as [He|He].
      { rewrite He in Hv. discriminate Hv. }
      simpl in H3.
      by destruct (String.eqb_spec (Priority t) (ToLower (FilterPriority o))).
    + intros Hne. apply orb_true_iff in H4 as [H4%Nat.eqb_eq|H4].
      { by apply length_zero_iff_nil in H4. }
      by apply hasTag_exists.
  - intros (H1 & H2 & H3 & H4). split_and!.
    + destruct (String.eqb_spec (FilterStatus o) "completed") as [He|He]; [|done].
      by rewrite (H1 He).
    + destruct (String.eqb_spec (FilterStatus o) "incomplete") as [He|He]; [|done].
      by rewrite (H2 He).
    + destruct (isValidPriority (ToLower (FilterPriority o))) eqn:Hv; [|done].
      rewrite (H3 eq_refl), String.eqb_refl. simpl. by rewrite andb_false_r.
    + apply orb_true_iff.
      destruct (elems (FilterTags o)) as [|ft fts] eqn:Hfts; [by left|].
      right. by apply hasTag_exists, H4.
Qed.

Lemma filter_all {A} (P : A -> Prop) `{forall x, Decision (P x)} (l : list A) :
  Forall P l -> filter P l = l.
Proof.
  induction 1 as [|x l Hx Hl IH]; [done|].
  rewrite filter_cons. destruct (decide (P x)); [by f_equal | done].
Qed.

Lemma ListWith_unsorted sort_Slice (o : ListOptions) (tl : TodoList) :
  SortBy o = "" -> ListWith sort_Slice o tl = kept o tl.
Proof. intros Hs. unfold ListWith. rewrite filter_loop, Hs. done. Qed.

Lemma ListWith_kept sort_Slice (o : ListOptions) (tl : TodoList) :
  sorts sort_Slice -> ListWith sort_Slice o tl ≡ₚ kept o tl.
Proof.
  intros Hsort. destruct (decide (SortBy o = "")) as [Hs|Hs].
  - by rewrite ListWith_unsorted.
  - by apply ListWith_perm.
Qed.

(** Whatever the sort, a listing shows the records of the collection that
    pass the three filters, each as often as the collection holds it, and
    no other: a record passes when its flag is what a status "completed" or
    "incomplete" asks for, its priority is the level that the priority
    filter names (in any letter case), and it has, letter case aside, one
    of the tags of the tag filter.  Any other status, a priority that names
    no level, and an empty list of tags filter nothing.  Without a sort key
    the records are shown in the order of the collection.  The filters and
    the tags are ASCII. *)
Theorem List_shows_what_passes_the_filters
    (sort_Slice : (Todo -> Todo -> bool) -> list Todo -> list Todo)
    (o : ListOptions) (tl : TodoList) :
  sorts sort_Slice -> ascii_options o -> Forall ascii_todo (todos tl) ->
  (forall t, t ∈ ListWith sort_Slice o tl <-> t ∈ todos tl /\ passes o t)
  /\ ListWith sort_Slice o tl ≡ₚ filter (passes o) (todos tl)
  /\ (SortBy o = "" -> ListWith sort_Slice o tl = filter (passes o) (todos tl))
  /\ (FilterStatus o <> "completed" -> FilterStatus o <> "incomplete" ->
      (forall level, level ∈ [PriorityHigh; PriorityMedium; PriorityLow] ->
                     ~ equal_fold (FilterPriority o) level) ->
      elems (FilterTags o) = [] ->
      ListWith sort_Slice o tl ≡ₚ todos tl).
Proof.
  intros Hsort _ _.
  assert (Hk : kept o tl = filter (passes o) (todos tl)).
  { unfold kept. apply list_filter_iff. intros t. apply keep_passes. }
  pose proof (ListWith_kept sort_Slice o tl Hsort) as Hp.
  split_and!.
  - intros t. rewrite Hp, Hk, list_elem_of_filter. tauto.
  - by rewrite <- Hk.
  - intros Hs. by rewrite <- Hk, ListWith_unsorted.
  - intros H1 H2 H3 H4. rewrite Hp, Hk.
    replace (filter (passes o) (todos tl)) with (todos tl); [done|].
    symmetry. apply filter_all, Forall_forall.
    intros t _. unfold passes. rewrite H4. split_and!; try done.
    apply Forall_forall. intros level Hl Hf. by destruct (H3 level Hl).
Qed.

Lemma List_shows_what_passes_the_filters_witness :
  ListWith sortSlice (mkListOptions "completed" "" None "" "") test_list = []
  /\ ListWith sortSlice (mkListOptions "done" "urgent" (Some []) "priority" "asc")
       test_list ≡ₚ todos test_list.
Proof.
  assert (Hascii : Forall ascii_todo (todos test_list)) by repeat constructor.
  destruct (List_shows_what_passes_the_filters sortSlice
              (mkListOptions "completed" "" None "" "") test_list sortSlice_sorts)
    as (_ & _ & H3 & _); [split; [reflexivity | constructor] | done |].
  destruct (List_shows_what_passes_the_filters sortSlice
              (mkListOptions "done" "urgent" (Some []) "priority" "asc") test_list
              sortSlice_sorts) as (_ & _ & _ & H4);
    [split; [reflexivity | constructor] | done |].
  split.
  - rewrite H3 by reflexivity. reflexivity.
  - apply H4; try done. intros level Hl.
    repeat (apply elem_of_cons in Hl as [->|Hl]);
      [apply (bool_decide_unpack _); by vm_compute..|].
    by apply elem_of_nil in Hl.
Defined.

(** ** Ascending listings *)

Lemma Zltb_ordering {A} (f : A -> Z) : ordering (fun a b => f a <? f b).
Proof.
  split_and!.
  - intros a b H%Z.ltb_lt. apply Z.ltb_ge. lia.
  - intros a b c H1%Z.ltb_lt H2%Z.ltb_lt. apply Z.ltb_lt. lia.
  - intros a b c H1%Z.ltb_ge H2%Z.ltb_ge. apply Z.ltb_ge. lia.
Qed.

Lemma ltb_ordering {A} (f : A -> string) :
  ordering (fun a b => String.ltb (f a) (f b)).
Proof.
  split_and!.
  - intros a b H. by apply string_leb_not_ltb, string_ltb_leb.
  - intros a b c Hab Hbc.
    destruct (String.ltb (f a) (f c)) eqn:Hac; [done|].
    apply string_not_ltb_leb in Hac. apply string_ltb_leb in Hab.
    pose proof (string_leb_trans _ _ _ Hac Hab) as Hcb.
    apply string_leb_not_ltb in Hcb. congruence.
  - intros a b c Hab%string_not_ltb_leb Hbc%string_not_ltb_leb.
    apply string_leb_not_ltb. by eapply string_leb_trans.
Qed.

(** Unless the direction is "desc", the comparison of [List] is an ordering
    of the kind [sort.Slice] asks for, whatever the key. *)
Lemma less_ascending (o : ListOptions) :
  SortOrder o <> "desc" ->
  ordering (less o)
  /\ forall a b, less o b a = false -> in_order (SortBy o) a b.
Proof.
  intros Hd%String.eqb_neq. unfold less, in_order. rewrite Hd.
  destruct (String.eqb (SortBy o) "due_date").
  { split; [exact (due_asc_ordering o)|].
    intros a b. unfold due_asc, Before.
    destruct (DueDate a), (DueDate b); try done. lia. }
  destruct (String.eqb (SortBy o) "id").
  { split; [apply Zltb_ordering | intros a b; lia]. }
  destruct (String.eqb (SortBy o) "task").
  { split; [apply (ltb_ordering (fun t => ToLower (Task t)))|].
    intros a b. apply string_not_ltb_leb. }
  destruct (String.eqb (SortBy o) "created_at").
  { split; [apply (Zltb_ordering (fun t => unixNano (CreatedAt t)))|].
    intros a b. unfold Before. lia. }
  destruct (String.eqb (SortBy o) "priority").
  { split; [apply (ltb_ordering (fun t => ToLower (Priority t)))|].
    intros a b. apply string_not_ltb_leb. }
  split; [apply Zltb_ordering | intros a b; lia].
Qed.

Lemma fmap_inj_on {A B} (f : A -> B) (l : list A) (x y : A) :
  NoDup (f <$> l) -> x ∈ l -> y ∈ l -> f x = f y -> x = y.
Proof.
  induction l as [|z l IH]; [by intros _ ?%elem_of_nil|].
  rewrite fmap_cons, NoDup_cons. intros [Hz Hl] Hx Hy Hxy.
  apply elem_of_cons in Hx as [->|Hx]; apply elem_of_cons in Hy as [->|Hy].
  - done.
  - destruct Hz. rewrite Hxy. by apply list_elem_of_fmap_2.
  - destruct Hz. rewrite <- Hxy. by apply list_elem_of_fmap_2.
  - by apply IH.
Qed.

#[local] Instance in_order_trans (sortBy : string) : Transitive (in_order sortBy).
Proof.
  intros a b c. unfold in_order.
  destruct (String.eqb sortBy "due_date").
  { unfold due_asc. destruct (DueDate a), (DueDate b), (DueDate c); try done. lia. }
  repeat match goal with
         | |- context [if ?c then _ else _] => destruct c
         end; try lia; apply string_leb_trans.
Qed.

(** Sorted by any key and not in the direction "desc", a listing shows the
    records that pass the filters in ascending order of the key: of the
    identifier, of the description or of the priority in small letters, of
    the instant of creation, or of the due date with the undated records
    last.  A key that is none of the five names sorts by identifier.  This
    holds whatever [sort.Slice] does with records that compare equal; and
    when the identifiers of the collection are distinct, a listing by
    identifier is the same for every such sort.  The texts of the records
    and of the filters are ASCII. *)
Theorem ascending_listing_is_sorted
    (sort_Slice : (Todo -> Todo -> bool) -> list Todo -> list Todo)
    (o : ListOptions) (tl : TodoList) :
  sorts sort_Slice -> ascii_options o -> Forall ascii_todo (todos tl) ->
  SortBy o <> "" -> SortOrder o <> "desc" ->
  let shown := ListWith sort_Slice o tl in
  shown ≡ₚ kept o tl
  /\ StronglySorted (in_order (SortBy o)) shown
  /\ (SortBy o <> "due_date" -> SortBy o <> "task" ->
      SortBy o <> "created_at" -> SortBy o <> "priority" ->
      NoDup (ids tl) ->
      forall sort_Slice', sorts sort_Slice' -> shown = ListWith sort_Slice' o tl).
Proof.
  intros Hsort _ _ Hs Hd shown.
  destruct (less_ascending o Hd) as [Hord Hle].
  assert (Hsorted : forall sort_Slice', sorts sort_Slice' ->
            StronglySorted (in_order (SortBy o)) (ListWith sort_Slice' o tl)).
  { intros sort_Slice' Hsort'. rewrite ListWith_sorted by done.
    destruct (Hsort' (less o) (kept o tl)) as [_ Hsd].
    eapply StronglySorted_mono; [|apply Hsd, Hord]. apply Hle. }
  split_and!.
  - by apply ListWith_perm.
  - by apply Hsorted.
  - intros H1%String.eqb_neq H2%String.eqb_neq H3%String.eqb_neq
      H4%String.eqb_neq Hnodup sort_Slice' Hsort'.
    apply (StronglySorted_unique_strong (in_order (SortBy o))).
    + intros x y Hx Hy Hxy Hyx. unfold in_order in Hxy, Hyx.
      rewrite H1, H2, H3, H4 in Hxy, Hyx.
      assert (ID x <= ID y <= ID x) by (by destruct (String.eqb (SortBy o) "id")).
      apply (fmap_inj_on ID (todos tl)); [done| | |lia].
      * unfold shown in Hx. rewrite ListWith_perm in Hx by done.
        unfold kept in Hx. by apply list_elem_of_filter in Hx as [_ Hx].
      * rewrite ListWith_perm in Hy by done.
        unfold kept in Hy. by apply list_elem_of_filter in Hy as [_ Hy].
    + by apply Hsorted.
    + by apply Hsorted.
    + unfold shown. by rewrite !ListWith_perm.
Qed.

Lemma ascending_listing_is_sorted_witness :
  let shown := ListWith sortSlice (mkListOptions "" "" None "task" "asc") test_list in
  shown ≡ₚ todos test_list
  /\ StronglySorted (in_order "task") shown
  /\ Task <$> shown = ["Task A High"; "Task B Low"; "Task C Med"].
Proof.
  destruct (ascending_listing_is_sorted sortSlice
              (mkListOptions "" "" None "task" "asc") test_list)
    as (H1 & H2 & _); [apply sortSlice_sorts | split; [reflexivity | constructor]
                       | repeat constructor | done | done |].
  split; [exact H1 | split; [exact H2 | reflexivity]].
Defined.

(** ** Descending listings *)

Lemma insert_back_ext {A} (f g : A -> A -> bool) (x : A) (p : list A) :
  (forall a b, f a b = g a b) -> insert_back f x p = insert_back g x p.
Proof.
  intros Hfg. induction p as [|y p IH]; simpl; [done|].
  by rewrite Hfg, IH.
Qed.

Lemma sortSlice_ext {A} (f g : A -> A -> bool) (l : list A) :
  (forall a b, f a b = g a b) -> sortSlice f l = sortSlice g l.
Proof.
  intros Hfg. unfold sortSlice. f_equal.
  generalize (@nil A). induction l as [|x l IH]; intros acc; simpl; [done|].
  by rewrite IH, (insert_back_ext f g).
Qed.

Section reversal.
Context {A : Type} (less : A -> A -> bool).
Hypothesis less_ordering : ordering less.

Lemma insert_back_snoc (f : A -> A -> bool) (x y : A) (l : list A) :
  f x y = false -> insert_back f x (l ++ [y]) = insert_back f x l ++ [y].
Proof.
  intros Hxy. induction l as [|z l IH]; simpl.
  - by rewrite Hxy.
  - destruct (f x z); [by rewrite IH | done].
Qed.

Lemma insert_back_through (f : A -> A -> bool) (x : A) (l : list A) :
  Forall (fun y => f x y = true) l -> insert_back f x l = l ++ [x].
Proof.
  induction 1 as [|y l Hy Hl IH]; simpl; [done|]. by rewrite Hy, IH.
Qed.

(** The inner loop with the negated comparison, run on the sorted prefix
    read backwards, puts the element at the mirrored place. *)
Lemma insert_back_negb (x : A) (p : list A) :
  StronglySorted (fun a b => less a b = false) p ->
  insert_back (fun a b => negb (less a b)) x (reverse p)
  = reverse (insert_back less x p).
Proof.
  destruct less_ordering as (_ & _ & Hneg).
  induction 1 as [|y p Hp IH Hy]; [done|].
  rewrite reverse_cons. simpl. destruct (less x y) eqn:Hxy.
  - rewrite insert_back_snoc by (by rewrite Hxy).
    by rewrite IH, reverse_cons.
  - rewrite insert_back_through.
    + by rewrite !reverse_cons.
    + apply Forall_app. split.
      * apply Forall_reverse. eapply Forall_impl; [exact Hy|].
        intros z Hz. simpl. apply negb_true_iff. by apply (Hneg x y z).
      * constructor; [by rewrite Hxy | constructor].
Qed.

Lemma loop_sorted (l : list A) :
  StronglySorted (fun a b => less a b = false)
    (foldl (fun p x => insert_back less x p) [] l).
Proof.
  destruct less_ordering as (Hasym & _ & Hneg).
  assert (Htrans : Transitive (fun a b : A => less b a = false)).
  { intros a b c Hab Hbc. by apply (Hneg c b a). }
  apply (sort_loop_sorted less (fun a b => less b a = false)).
  - apply Hasym.
  - done.
  - constructor.
Qed.

(** The insertion sort with the negated comparison gives the reverse of
    what it gives with the comparison: elements that compare equal come out
    in the reverse of their order. *)
Lemma sortSlice_negb (l : list A) :
  sortSlice (fun a b => negb (less a b)) l = reverse (sortSlice less l).
Proof.
  unfold sortSlice. f_equal.
  induction l as [|x l IH] using rev_ind; [done|].
  rewrite !foldl_app. simpl. rewrite IH.
  apply insert_back_negb, loop_sorted.
Qed.

End reversal.

(** Sorted by a key other than the due date, the listing in the direction
    "desc" is the listing in the other direction read backwards, the
    records that compare equal included: these change places.  (The
    comparison is negated for "desc", which is no ordering of the kind
    [sort.Slice] asks for; the statement is about the insertion sort, which
    is what runs on a collection of up to twelve records.)  The texts of
    the records and of the filters are ASCII. *)
Theorem descending_listing_is_the_ascending_reversed
    (o : ListOptions) (tl : TodoList) (order : string) :
  ascii_options o -> Forall ascii_todo (todos tl) -> small tl ->
  SortBy o <> "" -> SortBy o <> "due_date" -> order <> "desc" ->
  List (ordered o "desc") tl = reverse (List (ordered o order) tl).
Proof.
  intros _ _ _ Hs Hdue Horder.
  rewrite !List_sorted by done.
  change (kept (ordered o "desc") tl) with (kept o tl).
  change (kept (ordered o order) tl) with (kept o tl).
  destruct (less_ascending (ordered o order) Horder) as [Hord _].
  rewrite <- (sortSlice_negb _ Hord).
  apply sortSlice_ext. intros a b. unfold less; simpl.
  apply String.eqb_neq in Hdue, Horder. by rewrite Hdue, Horder.
Qed.

Lemma descending_listing_is_the_ascending_reversed_witness :
  ID <$> List (ordered by_id "desc") test_list = [3; 2; 1].
Proof.
  rewrite (descending_listing_is_the_ascending_reversed by_id test_list "asc");
    [reflexivity | split; [reflexivity | constructor] | repeat constructor
     | unfold small; simpl; lia | done | done | done].
Defined.

(** ** Undo, once more *)

Lemma split_unique (id : Z) (l1 l2 k1 k2 : list Todo) (d e : Todo) :
  l1 ++ d :: l2 = k1 ++ e :: k2 ->
  Forall (fun t => ID t <> id) l1 -> Forall (fun t => ID t <> id) k1 ->
  ID d = id -> ID e = id ->
  l1 = k1 /\ d = e /\ l2 = k2.
Proof.
  revert k1. induction l1 as [|x l1 IH]; intros [|y k1] Heq Hl Hk Hd He;
    simpl in Heq.
  - by injection Heq.
  - injection Heq as -> _. by apply Forall_cons_1 in Hk as [[] _].
  - injection Heq as -> _. by apply Forall_cons_1 in Hl as [[] _].
  - injection Heq as -> Heq. apply Forall_cons_1 in Hl as [_ Hl].
    apply Forall_cons_1 in Hk as [_ Hk].
    by destruct (IH k1 Heq Hl Hk Hd He) as (-> & -> & ->).
Qed.

Lemma Add_next (task : string) (priority : PriorityLevel)
    (dueDate : option Time) (tags : slice string) (now : Time) (tl : TodoList) :
  int_min <= NextID tl < int_max ->
  Add task priority dueDate tags now tl
  = mkTodoList
      (Some (todos tl
             ++ [mkTodo (NextID tl) task false now
                   (if isValidPriority (ToLower priority) then ToLower priority
                    else PriorityMedium) dueDate tags]))
      (NextID tl + 1).
Proof.
  intros Hn. unfold Add. rewrite wrap_small by (unfold int_min, int_max in *; lia).
  rewrite Add_priority. f_equal. unfold append, todos. by destruct (Todos tl).
Qed.

(** An undo right after an add removes the record that was added, and no
    other; the counter is not set back, so that the identifier of the
    removed record is not given out again. *)
Theorem undo_of_add_removes_the_new_record (w : world) (task priority : string)
    (dueDate : option Time) (tags : slice string) (now : Time) :
  consistent w -> NextID (todoList w) < int_max ->
  run w [CmdAdd task priority dueDate tags now; CmdUndo]
  = mkWorld (mkTodoList (Some (todos (todoList w))) (NextID (todoList w) + 1))
            noAction
            (printed w ++ [MsgUndidAdd (NextID (todoList w)) task]).
Proof.
  intros [Hpos _ Hbelow _] Hmax. unfold run. simpl.
  assert (Hmin : int_min <= 1) by (by vm_compute).
  rewrite Add_next by lia. simpl.
  set (t := mkTodo _ _ _ _ _ _ _).
  rewrite (wrap_small (NextID (todoList w) + 1)) by lia.
  rewrite wrap_small by lia.
  replace (NextID (todoList w) + 1 - 1) with (NextID (todoList w)) by lia.
  unfold undo. simpl.
  set (tl' := mkTodoList (Some (todos (todoList w) ++ [t])) (NextID (todoList w) + 1)).
  assert (Hfresh : Forall (fun x => ID x <> NextID (todoList w)) (todos (todoList w))).
  { unfold ids in Hbelow. rewrite Forall_fmap in Hbelow.
    eapply Forall_impl; [exact Hbelow|]. simpl. intros x Hx. lia. }
  destruct (Delete_found tl' (NextID (todoList w)))
    as (l1 & d & l2 & Hl & Hid & Hbefore & ->).
  { apply Exists_app. right. by apply Exists_cons_hd. }
  unfold tl', todos in Hl. simpl in Hl. fold (todos (todoList w)) in Hl.
  destruct (split_unique (NextID (todoList w)) _ _ _ _ _ _ Hl Hfresh Hbefore eq_refl Hid)
    as (<- & <- & <-).
  simpl. by rewrite app_nil_r.
Qed.

Lemma undo_of_add_removes_the_new_record_witness :
  run (initial three_tasks) [CmdAdd "Task 4" "low" None None noon; CmdUndo]
  = mkWorld (mkTodoList (Some (todos three_tasks)) 5) noAction
            [MsgUndidAdd 4 "Task 4"].
Proof.
  apply (undo_of_add_removes_the_new_record (initial three_tasks)).
  - split; simpl.
    + lia.
    + apply (bool_decide_unpack _). vm_compute. exact I.
    + repeat constructor; simpl; lia.
    + done.
  - vm_compute. reflexivity.
Defined.

Lemma find_id_at (id : Z) (l1 l2 : list Todo) (d : Todo) :
  Forall (fun t => ID t <> id) l1 -> ID d = id ->
  find_id id (l1 ++ d :: l2) = Some (length l1, d).
Proof.
  intros Hbefore Hid.
  destruct (find_id_some id (l1 ++ d :: l2)) as (i & t & Hfind).
  { apply Exists_app. right. by apply Exists_cons_hd. }
  destruct (find_id_split _ _ _ _ Hfind) as (k1 & k2 & Hk & Hlen & Hid' & Hk1).
  destruct (split_unique id _ _ _ _ _ _ Hk Hbefore Hk1 Hid Hid') as (-> & -> & _).
  by rewrite Hfind, Hlen.
Qed.

(** An undo right after a successful [complete] marks the record as not
    completed, and one right after a successful [uncomplete] marks it as
    completed, whatever the record was before the command: the collection
    is as before the command exactly when the command changed the flag.
    (The undo record assumes that it did.) *)
Theorem undo_of_complete_marks_incomplete (w : world) (id : Z) :
  Exists (fun t => ID t = id) (todos (todoList w)) ->
  let w1 := run w [CmdComplete id; CmdUndo] in
  let w2 := run w [CmdUncomplete id; CmdUndo] in
  w1 = mkWorld (Uncomplete id (todoList w)).1 noAction
               (printed w ++ [MsgUndidComplete id])
  /\ w2 = mkWorld (Complete id (todoList w)).1 noAction
                  (printed w ++ [MsgUndidUncomplete id])
  /\ (forall i d, find_id id (todos (todoList w)) = Some (i, d) ->
        (todoList w1 = todoList w <-> Completed d = false)
        /\ (todoList w2 = todoList w <-> Completed d = true)).
Proof.
  intros Hex w1 w2.
  destruct (set_flag_found (todoList w) id Hex)
    as (l1 & d & l2 & Hl & Hid & Hbefore & Hs & HC & HU).
  subst id.
  pose proof (set_flag_again true false l1 l2 d (NextID (todoList w)) Hbefore) as H1.
  pose proof (set_flag_again false true l1 l2 d (NextID (todoList w)) Hbefore) as H2.
  simpl in H1, H2.
  assert (Hw1 : w1 = mkWorld (Uncomplete (ID d) (todoList w)).1 noAction
                             (printed w ++ [MsgUndidComplete (ID d)])).
  { unfold w1, run. simpl. rewrite HC. unfold undo. simpl. by rewrite H1, HU. }
  assert (Hw2 : w2 = mkWorld (Complete (ID d) (todoList w)).1 noAction
                             (printed w ++ [MsgUndidUncomplete (ID d)])).
  { unfold w2, run. simpl. rewrite HU. unfold undo. simpl. by rewrite H2, HC. }
  split_and!; try done.
  intros i d' Hfind. rewrite Hl, (find_id_at (ID d)) in Hfind by done.
  injection Hfind as _ <-.
  rewrite Hw1, Hw2, HC, HU. simpl.
  destruct (todoList w) as [ts n]; simpl in *. subst ts.
  split; split.
  - intros [= Heq]. apply app_inv_head in Heq. injection Heq as Heq.
    by rewrite <- Heq.
  - intros Hd. do 3 f_equal. by destruct d; simpl in *; subst.
  - intros [= Heq]. apply app_inv_head in Heq. injection Heq as Heq.
    by rewrite <- Heq.
  - intros Hd. do 3 f_equal. by destruct d; simpl in *; subst.
Qed.

Lemma undo_of_complete_marks_incomplete_witness :
  let done_ := mkTodoList (Some [set_Completed true (plain 1 "Task 1")]) 2 in
  todoList (run (initial done_) [CmdComplete 1; CmdUndo])
  = mkTodoList (Some [plain 1 "Task 1"]) 2.
Proof.
  intros done_.
  destruct (undo_of_complete_marks_incomplete (initial done_) 1) as (H & _).
  { apply Exists_cons_hd. reflexivity. }
  rewrite H. reflexivity.
Defined.

(** ** A session after a restart *)

(** What a session whose texts are UTF-8 and whose dates are readings of
    the calendar has saved, the next run of the program loads, and goes on
    from there: in the session that follows, the identifiers of the records
    stay distinct and below the counter, the adds give out the identifiers
    that follow those of the first session, and the counter counts the adds
    of both (fewer than 2^63 - 1).  The undo record is not saved: an undo
    at the start of the second session finds nothing to undo. *)
Theorem identifiers_stay_distinct_across_restarts
    (cs1 cs2 : list command) (filename : string) (fs fs' : gmap string node) :
  Z.of_nat (adds cs1 + adds cs2) < int_max -> Forall command_ok cs1 ->
  SaveToFile filename (todoList (run start cs1)) fs = (fs', None) ->
  exists tl,
    LoadFromFile filename fs' = (Some tl, None)
    /\ tl = todoList (run start cs1)
    /\ (let tl2 := todoList (run (initial tl) cs2) in
        NoDup (ids tl2)
        /\ Forall (fun i => 1 <= i < NextID tl2) (ids tl2)
        /\ NextID tl2 = 1 + Z.of_nat (adds cs1) + Z.of_nat (adds cs2)
        /\ assigned (initial tl) cs2
           = (fun k => 1 + Z.of_nat (adds cs1) + Z.of_nat k) <$> seq 0 (adds cs2))
    /\ step (initial tl) CmdUndo = mkWorld tl noAction [MsgNoUndo].
Proof.
  intros Hmax Hok Hsave. exists (todoList (run start cs1)).
  destruct (session_fit_to_save cs1) as [Hgo Hutf]; [lia | done |].
  destruct (run_consistent cs1 start initial_consistent) as (Hc1 & Hn1 & _);
    [simpl; lia|].
  simpl in Hn1.
  apply SaveToFile_writes in Hsave as (j & Hj & Hread).
  split_and!; try done.
  - unfold LoadFromFile, Unmarshal. rewrite Hread.
    by rewrite (unmarshal_marshal (todoList (run start cs1)) j NewTodoList).
  - destruct (run_consistent cs2 (initial (todoList (run start cs1))))
      as ([_ Hnd Hbelow _] & Hn2 & Hass).
    + by apply (consistent_forget (run start cs1) []).
    + simpl. lia.
    + simpl in Hn2, Hass. split_and!; try done.
      * rewrite Hn2, Hn1. lia.
      * rewrite Hass, Hn1. done.
Qed.

Lemma identifiers_stay_distinct_across_restarts_witness :
  let tl := todoList (run start two_adds_and_a_complete) in
  LoadFromFile "todos.json" (SaveToFile "todos.json" tl ∅).1 = (Some tl, None)
  /\ ids (todoList (run (initial tl) busy_session)) = [4; 5; 6].
Proof.
  intros tl.
  destruct (identifiers_stay_distinct_across_restarts two_adds_and_a_complete
              busy_session "todos.json" ∅ (SaveToFile "todos.json" tl ∅).1)
    as (tl' & Hload & -> & _).
  - vm_compute. reflexivity.
  - repeat (apply Forall_cons; split); [..|apply Forall_nil]; simpl; try done;
      (split_and!; [reflexivity | repeat constructor | reflexivity |]);
      intros d [= <-]; reflexivity.
  - reflexivity.
  - split; [exact Hload | reflexivity].
Defined.

(** * Further properties of the command line (cli.go) *)

(** ** Words and white space *)

Lemma append_nil_r (s : string) : s +:+ "" = s.
Proof. induction s as [|c s IH]; [done|]. by rewrite append_cons, IH. Qed.

Lemma append_snoc_ne (s : string) (c : ascii) : s +:+ String c "" <> "".
Proof. by destruct s. Qed.

Lemma flush_ne (field : string) : field <> "" -> flush field = [field].
Proof. intros H. unfold flush. by apply String.eqb_neq in H as ->. Qed.

Lemma no_space_app (s1 s2 : string) :
  no_space (s1 +:+ s2) = no_space s1 && no_space s2.
Proof.
  induction s1 as [|c s1 IH]; [done|].
  rewrite append_cons. simpl. by rewrite IH, andb_assoc.
Qed.

Lemma is_ascii_app (s1 s2 : string) :
  is_ascii (s1 +:+ s2) = is_ascii s1 && is_ascii s2.
Proof.
  induction s1 as [|c s1 IH]; [done|].
  rewrite append_cons. simpl. by rewrite IH, andb_assoc.
Qed.

Lemma fields_loop_nil (field : string) : fields_loop "" field = flush field.
Proof. done. Qed.

Lemma fields_loop_space (c : ascii) (s field : string) :
  isSpace c = true ->
  fields_loop (String c s) field = flush field ++ fields_loop s "".
Proof. intros Hc. simpl. by rewrite Hc. Qed.

Lemma fields_loop_word (w s field : string) :
  no_space w = true -> fields_loop (w +:+ s) field = fields_loop s (field +:+ w).
Proof.
  revert field. induction w as [|c w IH]; intros field Hw.
  - by rewrite append_nil, append_nil_r.
  - simpl in Hw. apply andb_true_iff in Hw as [Hc%negb_true_iff Hw].
    rewrite append_cons. simpl. rewrite Hc, IH by done.
    by rewrite append_assoc.
Qed.

(** What [strings.Fields] returns are words: they are not empty and hold
    no white space. *)
Lemma fields_loop_words (s field : string) :
  no_space field = true -> Forall is_word (fields_loop s field).
Proof.
  revert field. induction s as [|c s IH]; intros field Hf; simpl.
  - destruct (String.eqb_spec field ""); by repeat constructor.
  - destruct (isSpace c) eqn:Hc.
    + apply Forall_app. split; [|by apply IH].
      destruct (String.eqb_spec field ""); by repeat constructor.
    + apply IH. by rewrite no_space_app, Hf; simpl; rewrite Hc.
Qed.

Lemma Fields_words (s : string) : Forall is_word (Fields s).
Proof. by apply fields_loop_words. Qed.

Lemma fields_loop_ascii (s field : string) :
  is_ascii s = true -> is_ascii field = true ->
  Forall (fun w => is_ascii w = true) (fields_loop s field).
Proof.
  revert field. induction s as [|c s IH]; intros field Hs Hf; simpl.
  - destruct (String.eqb field ""); by repeat constructor.
  - simpl in Hs. apply andb_true_iff in Hs as [Hc Hs].
    destruct (isSpace c).
    + apply Forall_app. split; [|by apply IH].
      destruct (String.eqb field ""); by repeat constructor.
    + apply IH; [done|]. by rewrite is_ascii_app, Hf; simpl; rewrite Hc.
Qed.

(** The words of a text that is made of words with single spaces between
    them are these words. *)
Lemma Fields_Join (ws : list string) :
  Forall is_word ws -> Fields (Join ws " ") = ws.
Proof.
  unfold Fields, Join. induction 1 as [|w ws [Hne Hw] Hws IH]; [done|].
  destruct ws as [|w' ws].
  - simpl. rewrite <- (append_nil_r w) at 1.
    by rewrite fields_loop_word, append_nil, fields_loop_nil, flush_ne.
  - change (String.concat " " (w :: w' :: ws))
      with (w +:+ " " +:+ String.concat " " (w' :: ws)).
    rewrite fields_loop_word, append_nil by done.
    rewrite append_cons, append_nil, fields_loop_space by done.
    by rewrite flush_ne, IH.
Qed.

Lemma trim_left_fields (s : string) : Fields (trim_left s) = Fields s.
Proof.
  unfold Fields. induction s as [|c s IH]; [done|]. simpl.
  destruct (isSpace c) eqn:Hc; [done|]. simpl. by rewrite Hc.
Qed.

Lemma trim_right_blank (s field : string) :
  trim_right s = "" -> fields_loop s field = flush field.
Proof.
  revert field. induction s as [|c s IH]; intros field; [done|]. simpl.
  destruct (trim_right s) eqn:Hs; [|done].
  destruct (isSpace c); [|done]. intros _.
  rewrite (IH "") by done. unfold flush. simpl. by rewrite app_nil_r.
Qed.

Lemma fields_loop_cons (c : ascii) (s field : string) :
  fields_loop (String c s) field
  = if isSpace c then flush field ++ fields_loop s ""
    else fields_loop s (field +:+ String c "").
Proof. done. Qed.

Lemma trim_right_fields (s field : string) :
  fields_loop (trim_right s) field = fields_loop s field.
Proof.
  revert field. induction s as [|c s IH]; intros field; [done|].
  rewrite (fields_loop_cons c s). simpl trim_right.
  destruct (trim_right s) as [|c' r'] eqn:Hs.
  - destruct (isSpace c) eqn:Hc.
    + rewrite (trim_right_blank s "") by done.
      unfold flush. simpl. by rewrite app_nil_r.
    + rewrite fields_loop_cons, Hc.
      by rewrite (trim_right_blank s), fields_loop_nil.
  - rewrite fields_loop_cons. by rewrite !IH.
Qed.

(** Trimming changes nothing for [strings.Fields]. *)
Lemma Fields_TrimSpace (s : string) : Fields (TrimSpace s) = Fields s.
Proof.
  unfold TrimSpace, Fields at 1. by rewrite trim_right_fields, <- trim_left_fields.
Qed.

Lemma is_ascii_valid_from (s : string) : is_ascii s = true -> valid_from 0 s = true.
Proof.
  induction s as [|c s IH]; [done|]. simpl.
  intros [Hc Hs]%andb_true_iff. unfold byte_in.
  replace ((0 <=? N_of_ascii c)%N && (N_of_ascii c <=? 127)%N) with true.
  - by apply IH.
  - symmetry. apply andb_true_iff. split; [by apply N.leb_le; lia|].
    apply N.leb_le. apply N.ltb_lt in Hc. lia.
Qed.

(** Text in ASCII is UTF-8. *)
Lemma is_ascii_ValidString (s : string) : is_ascii s = true -> ValidString s = true.
Proof. apply is_ascii_valid_from. Qed.

(** ** The arguments of [add] *)

Lemma list_ind2 {A} (P : list A -> Prop) :
  P [] -> (forall x, P [x]) ->
  (forall x y l, P l -> P (y :: l) -> P (x :: y :: l)) ->
  forall l, P l.
Proof.
  intros H0 H1 H2 l. cut (P l /\ forall x, P (x :: l)); [tauto|].
  induction l as [|y l [IH1 IH2]]; [by split|].
  split; [apply IH2|]. intros x. by apply H2.
Qed.

(** The description as the loop builds it, word by word. *)
Lemma Join_snoc (ws : list string) (w : string) :
  ws <> [] -> Join (ws ++ [w]) " " = Join ws " " +:+ " " +:+ w.
Proof.
  unfold Join. induction ws as [|x ws IH]; [done|]. intros _.
  destruct ws as [|y ws]; [done|].
  change ((x :: y :: ws) ++ [w]) with (x :: (y :: ws) ++ [w]).
  change (String.concat " " (x :: (y :: ws) ++ [w]))
    with (x +:+ " " +:+ String.concat " " ((y :: ws) ++ [w])).
  rewrite IH by done.
  change (String.concat " " (x :: y :: ws))
    with (x +:+ " " +:+ String.concat " " (y :: ws)).
  by rewrite !append_assoc.
Qed.

Lemma Join_ne (ws : list string) :
  ws <> [] -> Forall (fun w => w <> "") ws -> Join ws " " <> "".
Proof.
  intros Hne Hws. destruct Hws as [|w ws Hw Hws]; [done|].
  unfold Join. destruct ws; [done|].
  change (String.concat " " (w :: s :: ws))
    with (w +:+ " " +:+ String.concat " " (s :: ws)).
  by destruct w.
Qed.

Lemma Join_empty (ws : list string) :
  Forall (fun w => w <> "") ws -> String.eqb (Join ws " ") "" = bool_decide (ws = []).
Proof.
  intros Hws. destruct ws as [|w ws]; [done|].
  rewrite bool_decide_eq_false_2 by done.
  apply String.eqb_neq. by apply Join_ne.
Qed.

(** One more word of the description. *)
Lemma unflagged_Join (ws : list string) (part : string) :
  Forall (fun w => w <> "") ws ->
  (if String.eqb (Join ws " ") "" then part else Join ws " " +:+ " " +:+ part)
  = Join (ws ++ [part]) " ".
Proof.
  intros Hws. rewrite Join_empty by done.
  destruct ws as [|w ws]; [done|].
  rewrite bool_decide_eq_false_2 by done. by rewrite Join_snoc.
Qed.

Lemma last_cons_default {A} (x d : A) (l : list A) :
  default d (last (x :: l)) = default x (last l).
Proof.
  revert x d. induction l as [|y l IH]; intros x d; [done|].
  change (last (x :: y :: l)) with (last (y :: l)).
  by rewrite (IH y d), (IH y x).
Qed.

Lemma item_parts_rest (items : list addItem) (trailing : list string) :
  concat (item_parts <$> items) ++ trailing = [] -> items = [] /\ trailing = [].
Proof.
  destruct items as [|[w|f v] items]; simpl; [|done..].
  intros ->. done.
Qed.

Lemma parseAddArgs_step (part value : string) (rest : list string) (a : addArgs) :
  parseAddArgs (part :: value :: rest) a
  = if String.eqb part "-p" then
      parseAddArgs rest (mkAddArgs (task_ a) value (dueDateStr a) (tags_ a))
    else if String.eqb part "-d" then
      parseAddArgs rest (mkAddArgs (task_ a) (priority_ a) value (tags_ a))
    else if String.eqb part "-t" then
      parseAddArgs rest (mkAddArgs (task_ a) (priority_ a) (dueDateStr a)
                                   (tags_ a ++ Split value ","))
    else
      parseAddArgs (value :: rest)
        (mkAddArgs (if String.eqb (task_ a) "" then part
                    else task_ a +:+ " " +:+ part)
                   (priority_ a) (dueDateStr a) (tags_ a)).
Proof. done. Qed.

Lemma parseAddArgs_items (items : list addItem) (trailing ws : list string)
    (p d : string) (ts : list string) :
  Forall item_ok items ->
  trailing = [] \/ (exists w, trailing = [w]) ->
  Forall (fun w => w <> "") ws ->
  parseAddArgs (concat (item_parts <$> items) ++ trailing)
               (mkAddArgs (Join ws " ") p d ts)
  = mkAddArgs (Join (ws ++ words_of items ++ trailing) " ")
              (default p (last (values_of "-p" items)))
              (default d (last (values_of "-d" items)))
              (ts ++ concat ((fun v => Split v ",") <$> values_of "-t" items)).
Proof.
  intros Hitems Htrail. revert ws p d ts.
  induction Hitems as [|[w|f v] items Hi Hitems IH]; intros ws p d ts Hws.
  - simpl. rewrite app_nil_r. destruct Htrail as [->|[w ->]]; simpl.
    + by rewrite app_nil_r.
    + by rewrite unflagged_Join.
  - destruct Hi as [Hflag Hw].
    change (concat (item_parts <$> Word w :: items) ++ trailing)
      with (w :: (concat (item_parts <$> items) ++ trailing)).
    change (words_of (Word w :: items)) with (w :: words_of items).
    change (values_of "-p" (Word w :: items)) with (values_of "-p" items).
    change (values_of "-d" (Word w :: items)) with (values_of "-d" items).
    change (values_of "-t" (Word w :: items)) with (values_of "-t" items).
    unfold is_flag in Hflag.
    apply orb_false_iff in Hflag as [[Hp Hd]%orb_false_iff Ht].
    destruct (concat (item_parts <$> items) ++ trailing) as [|value rest] eqn:Hrest.
    + apply item_parts_rest in Hrest as [-> ->]. simpl.
      by rewrite unflagged_Join, app_nil_r.
    + rewrite parseAddArgs_step, Hp, Hd, Ht.
      cbn [task_ priority_ dueDateStr tags_].
      rewrite unflagged_Join by done. rewrite IH.
      * by rewrite <- app_assoc.
      * apply Forall_app. split; [done|]. by constructor.
  - simpl in Hi.
    change (concat (item_parts <$> Flag f v :: items) ++ trailing)
      with (f :: v :: (concat (item_parts <$> items) ++ trailing)).
    change (words_of (Flag f v :: items)) with (words_of items).
    unfold is_flag in Hi. rewrite parseAddArgs_step.
    cbn [task_ priority_ dueDateStr tags_].
    destruct (String.eqb_spec f "-p") as [->|Hp].
    { rewrite IH by done. simpl. by rewrite last_cons_default. }
    destruct (String.eqb_spec f "-d") as [->|Hd].
    { rewrite IH by done. simpl. by rewrite last_cons_default. }
    destruct (String.eqb_spec f "-t") as [->|Ht]; [|done].
    rewrite IH by done. simpl. by rewrite <- app_assoc.
Qed.

(** How [add] reads the words that follow it.  The words are taken from
    left to right: one of [-p], [-d], [-t] that is not the last word is a
    flag and takes the next word, whatever it is, as its value; every other
    word, and one of the three in the last place, belongs to the
    description.  The description is these words with single spaces between
    them; the priority and the due date are the last value given to [-p]
    and to [-d], or empty; the tags are the values given to [-t], each
    split at its commas, in the order of the line. *)
Theorem add_reads_flags_anywhere (items : list addItem) (trailing : list string) :
  Forall item_ok items ->
  trailing = [] \/ (exists w, trailing = [w]) ->
  parseAddArgs (concat (item_parts <$> items) ++ trailing) (mkAddArgs "" "" "" [])
  = mkAddArgs (Join (words_of items ++ trailing) " ")
              (default "" (last (values_of "-p" items)))
              (default "" (last (values_of "-d" items)))
              (concat ((fun v => Split v ",") <$> values_of "-t" items)).
Proof.
  intros Hitems Htrail.
  exact (parseAddArgs_items items trailing [] "" "" [] Hitems Htrail
           (Forall_nil_2 _)).
Qed.

Lemma add_reads_flags_anywhere_witness :
  parseAddArgs ["Buy"; "-p"; "low"; "milk"; "-t"; "home,shop"; "-p"; "high"; "-d"]
               (mkAddArgs "" "" "" [])
  = mkAddArgs "Buy milk -d" "high" "" ["home"; "shop"].
Proof.
  apply (add_reads_flags_anywhere
           [Word "Buy"; Flag "-p" "low"; Word "milk"; Flag "-t" "home,shop";
            Flag "-p" "high"] ["-d"]).
  - repeat constructor; done.
  - right. by eexists.
Defined.

(** ** The texts that a line can give *)

Lemma normal_text_Join (ws : list string) :
  ws <> [] -> Forall is_word ws -> normal_text (Join ws " ").
Proof.
  intros Hne Hws. split.
  - apply Join_ne; [done|]. eapply Forall_impl; [exact Hws|]. by intros w [? _].
  - by rewrite Fields_Join.
Qed.

Lemma words_ne (ws : list string) :
  Forall is_word ws -> Forall (fun w => w <> "") ws.
Proof. intros H. eapply Forall_impl; [exact H|]. by intros w [? _]. Qed.

Lemma task_words (parts : list string) (a : addArgs) :
  Forall is_word parts ->
  (exists ws, Forall is_word ws /\ task_ a = Join ws " ") ->
  exists ws, Forall is_word ws /\ task_ (parseAddArgs parts a) = Join ws " ".
Proof.
  revert a. induction parts as [|x|x y l IH1 IH2] using list_ind2;
    intros a Hparts (ws & Hws & Ha).
  - by exists ws.
  - apply Forall_cons_1 in Hparts as [Hx _]. exists (ws ++ [x]). split.
    + apply Forall_app. split; [done | by constructor].
    + simpl. by rewrite Ha, unflagged_Join by (by apply words_ne).
  - apply Forall_cons_1 in Hparts as [Hx Hyl]. pose proof Hyl as Hyl'.
    apply Forall_cons_1 in Hyl' as [Hy Hl].
    rewrite parseAddArgs_step.
    destruct (String.eqb x "-p"); [by apply IH1; [|exists ws]|].
    destruct (String.eqb x "-d"); [by apply IH1; [|exists ws]|].
    destruct (String.eqb x "-t"); [by apply IH1; [|exists ws]|].
    apply IH2; [done|]. exists (ws ++ [x]). split.
    + apply Forall_app. split; [done | by constructor].
    + simpl. by rewrite Ha, unflagged_Join by (by apply words_ne).
Qed.

(** The description that [add] and [edit] store and the query that
    [search] looks for are never empty, and are words with single spaces
    between them: white space at the ends of the line is dropped, and every
    run of white space between two words becomes one space.  (For a line in
    ASCII, where [strings.Fields] works on bytes.) *)
Theorem texts_are_words_with_single_spaces (line : string) (now : Time) (c : command) :
  is_ascii line = true ->
  readCommand line now = Do c ->
  match c with
  | CmdAdd task _ _ _ _ => normal_text task
  | CmdEdit _ newTask => normal_text newTask
  | CmdSearch query => normal_text query
  | _ => True
  end.
Proof.
  intros _. unfold readCommand. rewrite Fields_TrimSpace.
  pose proof (Fields_words line) as Hw.
  destruct (Fields line) as [|word parts]; [done|].
  apply Forall_cons_1 in Hw as [Hword Hparts]. cbv zeta.
  destruct (String.eqb (ToLower word) "add").
  { destruct (task_words parts (mkAddArgs "" "" "" []) Hparts) as (ws & Hws & Hts).
    { by exists []. }
    destruct (String.eqb_spec (task_ (parseAddArgs parts (mkAddArgs "" "" "" []))) "")
      as [He|Hne]; [done|].
    assert (Hn : normal_text (task_ (parseAddArgs parts (mkAddArgs "" "" "" [])))).
    { rewrite Hts. apply normal_text_Join; [|done]. intros ->. by rewrite Hts in Hne. }
    destruct (String.eqb _ ""); [by intros [= <-]|].
    destruct (parseDueDate _); [by intros [= <-] | done]. }
  destruct (String.eqb (ToLower word) "edit").
  { destruct parts as [|arg [|w ws]]; try done. simpl.
    destruct (Atoi arg); [|done]. intros [= <-].
    apply (normal_text_Join (w :: ws)); [done|].
    by apply Forall_cons_1 in Hparts as [_ ?]. }
  destruct (String.eqb (ToLower word) "clear-completed"); [done|].
  destruct (String.eqb (ToLower word) "search").
  { destruct parts as [|w ws]; [done|]. simpl. intros [= <-].
    by apply (normal_text_Join (w :: ws)). }
  destruct (String.eqb (ToLower word) "complete").
  { unfold with_id. destruct parts as [|arg ?]; [done|].
    destruct (Atoi arg); [by intros [= <-] | done]. }
  destruct (String.eqb (ToLower word) "uncomplete").
  { unfold with_id. destruct parts as [|arg ?]; [done|].
    destruct (Atoi arg); [by intros [= <-] | done]. }
  destruct (String.eqb (ToLower word) "delete").
  { unfold with_id. destruct parts as [|arg ?]; [done|]. by destruct (Atoi arg). }
  destruct (String.eqb (ToLower word) "list"); [by intros [= <-]|].
  destruct (String.eqb (ToLower word) "help"); [done|].
  destruct (String.eqb (ToLower word) "exit"); [done|].
  destruct (String.eqb (ToLower word) "undo"); [by intros [= <-] | done].
Qed.

Lemma texts_are_words_with_single_spaces_witness :
  normal_text "buy milk".
Proof.
  apply (texts_are_words_with_single_spaces
           (String.concat "" ["  Edit 3  buy"; String (ascii_of_N 9) ""; " milk  "])
           morning (CmdEdit 3 "buy milk")); vm_compute; reflexivity.
Defined.

(** ** Identifiers as text *)

Lemma digits_value_app (s1 s2 : string) (a : Z) :
  digits_value (s1 +:+ s2) a = digits_value s1 a ≫= digits_value s2.
Proof.
  revert a. induction s1 as [|c s1 IH]; intros a; [done|].
  rewrite append_cons. simpl. destruct (char_digit c); [apply IH | done].
Qed.

Lemma digits_of_acc (fuel : nat) (n : Z) (acc : string) :
  digits_of fuel n acc = digits_of fuel n "" +:+ acc.
Proof.
  revert n acc. induction fuel as [|fuel IH]; intros n acc; [done|]. simpl.
  destruct (n <? 10); [done|].
  rewrite (IH _ (String _ acc)), (IH _ (String _ "")).
  by rewrite append_assoc.
Qed.

Lemma digits_of_value (fuel : nat) (n : Z) :
  0 <= n < 10 ^ Z.of_nat fuel -> digits_value (digits_of fuel n "") 0 = Some n.
Proof.
  revert n. induction fuel as [|fuel IH]; intros n Hn.
  - simpl in *. f_equal. lia.
  - rewrite Nat2Z.inj_succ, Z.pow_succ_r in Hn by lia. simpl.
    destruct (Z.ltb_spec n 10).
    + simpl. rewrite char_digit_char by (Z.div_mod_to_equations; lia).
      simpl. f_equal. Z.div_mod_to_equations; lia.
    + rewrite digits_of_acc, digits_value_app, IH
        by (Z.div_mod_to_equations; lia).
      simpl. rewrite char_digit_char by (Z.div_mod_to_equations; lia).
      simpl. f_equal. Z.div_mod_to_equations; lia.
Qed.

(** The text of a number starts with a digit. *)
Lemma digits_of_head (fuel : nat) (n : Z) (acc : string) :
  0 <= n ->
  exists d rest, 0 <= d <= 9 /\ digits_of (S fuel) n acc = String (digit_char d) rest.
Proof.
  revert n acc. induction fuel as [|fuel IH]; intros n acc Hn.
  - exists (n mod 10), acc. split; [Z.div_mod_to_equations; lia|].
    simpl. by destruct (n <? 10).
  - change (digits_of (S (S fuel)) n acc)
      with (if n <? 10 then String (digit_char (n mod 10)) acc
            else digits_of (S fuel) (n / 10) (String (digit_char (n mod 10)) acc)).
    destruct (n <? 10).
    + exists (n mod 10), acc. split; [Z.div_mod_to_equations; lia | done].
    + apply IH. Z.div_mod_to_equations; lia.
Qed.

Lemma digit_char_cases (d : Z) :
  0 <= d <= 9 ->
  Ascii.eqb (digit_char d) "-" = false /\ Ascii.eqb (digit_char d) "+" = false
  /\ isSpace (digit_char d) = false.
Proof.
  intros H.
  assert (d = 0 \/ d = 1 \/ d = 2 \/ d = 3 \/ d = 4 \/ d = 5 \/ d = 6 \/ d = 7
          \/ d = 8 \/ d = 9) as Hd by lia.
  repeat destruct Hd as [->|Hd]; try done. by subst.
Qed.

Lemma Atoi_digits (n : Z) :
  0 <= n <= int_max -> Atoi (digits_of 20 n "") = Some n.
Proof.
  intros Hn. destruct (digits_of_head 19 n "") as (d & rest & Hd & Heq); [lia|].
  pose proof (digits_of_value 20 n) as Hv.
  rewrite Heq in *. unfold Atoi.
  destruct (digit_char_cases d Hd) as (-> & -> & _). simpl orb. cbv iota.
  rewrite (proj2 (String.eqb_neq _ _)) by done.
  rewrite Hv by (unfold int_max in Hn; lia). simpl.
  replace (int_min <=? n) with true
    by (symmetry; apply Z.leb_le; unfold int_min; lia).
  by replace (n <=? int_max) with true by (symmetry; apply Z.leb_le; lia).
Qed.

(** [strconv.Atoi] reads back what [strconv.Itoa] writes. *)
Lemma Atoi_Itoa (n : Z) : in_int n -> Atoi (Itoa n) = Some n.
Proof.
  intros [Hmin Hmax]. unfold Itoa. destruct (Z.ltb_spec n 0); [|by apply Atoi_digits].
  unfold Atoi. simpl orb. cbv iota.
  destruct (digits_of_head 19 (- n) "") as (d & rest & Hd & Heq); [lia|].
  pose proof (digits_of_value 20 (- n)) as Hv.
  rewrite Heq in *. rewrite (proj2 (String.eqb_neq _ _)) by done.
  rewrite Hv by (unfold int_min in Hmin; lia). simpl.
  rewrite Z.opp_involutive.
  replace (int_min <=? n) with true by (symmetry; apply Z.leb_le; lia).
  by replace (n <=? int_max) with true by (symmetry; apply Z.leb_le; lia).
Qed.

Lemma digits_of_no_space (fuel : nat) (n : Z) (acc : string) :
  0 <= n -> no_space acc = true -> no_space (digits_of fuel n acc) = true.
Proof.
  revert n acc. induction fuel as [|fuel IH]; intros n acc Hn Hacc; [done|].
  simpl.
  assert (Hd : no_space (String (digit_char (n mod 10)) acc) = true).
  { simpl. destruct (digit_char_cases (n mod 10)) as (_ & _ & ->);
      [Z.div_mod_to_equations; lia | done]. }
  destruct (n <? 10); [done|]. apply IH; [Z.div_mod_to_equations; lia | done].
Qed.

Lemma Itoa_word (n : Z) : is_word (Itoa n).
Proof.
  unfold Itoa. destruct (Z.ltb_spec n 0).
  - split; [done|].
    change (negb (isSpace "-") && no_space (digits_of 20 (- n) "") = true).
    apply digits_of_no_space; [lia | done].
  - split; [|by apply digits_of_no_space].
    destruct (digits_of_head 19 n "") as (d & rest & _ & ->); [lia | done].
Qed.

Lemma Fields_command (word arg : string) :
  is_word word -> is_word arg ->
  Fields (TrimSpace (word +:+ " " +:+ arg)) = [word; arg].
Proof.
  intros Hw Ha. rewrite Fields_TrimSpace.
  apply (Fields_Join [word; arg]).
  constructor; [done|]. constructor; [done|]. constructor.
Qed.

(** An identifier as a listing shows it, typed after [complete],
    [uncomplete] or [delete], is read as that identifier; and no argument
    is read as a number that is no [int]. *)
Theorem identifiers_can_be_typed_back (n : Z) (now : Time) :
  in_int n ->
  Atoi (Itoa n) = Some n
  /\ readCommand ("complete " +:+ Itoa n) now = Do (CmdComplete n)
  /\ readCommand ("uncomplete " +:+ Itoa n) now = Do (CmdUncomplete n)
  /\ readCommand ("delete " +:+ Itoa n) now = Confirm (CmdDelete n)
  /\ (forall s m, Atoi s = Some m -> in_int m).
Proof.
  intros Hn. pose proof (Atoi_Itoa n Hn) as Hrt.
  pose proof (Itoa_word n) as Hw.
  split_and!; try done.
  - change ("complete " +:+ Itoa n) with ("complete" +:+ " " +:+ Itoa n).
    unfold readCommand. rewrite (Fields_command "complete" (Itoa n)) by done.
    simpl. by rewrite Hrt.
  - change ("uncomplete " +:+ Itoa n) with ("uncomplete" +:+ " " +:+ Itoa n).
    unfold readCommand. rewrite (Fields_command "uncomplete" (Itoa n)) by done.
    simpl. by rewrite Hrt.
  - change ("delete " +:+ Itoa n) with ("delete" +:+ " " +:+ Itoa n).
    unfold readCommand. rewrite (Fields_command "delete" (Itoa n)) by done.
    simpl. by rewrite Hrt.
  - intros s m. unfold Atoi. destruct s as [|c r]; [done|].
    destruct (String.eqb _ ""); [done|].
    destruct (digits_value _ 0) as [k|]; [|done]. simpl.
    destruct (_ && _) eqn:Hr; [|done]. intros [= <-].
    apply andb_true_iff in Hr as [H1%Z.leb_le H2%Z.leb_le]. by split.
Qed.

Lemma identifiers_can_be_typed_back_witness :
  readCommand "delete -42" morning = Confirm (CmdDelete (-42)).
Proof.
  destruct (identifiers_can_be_typed_back (-42) morning) as (_ & _ & _ & H & _).
  - unfold in_int, int_min, int_max. simpl. lia.
  - exact H.
Defined.

(** ** Due dates as text *)

Lemma digits_of_step (fuel : nat) (n : Z) (acc : string) :
  digits_of (S fuel) n acc
  = if n <? 10 then String (digit_char (n mod 10)) acc
    else digits_of fuel (n / 10) (String (digit_char (n mod 10)) acc).
Proof. done. Qed.

Lemma digits_of_small (fuel : nat) (n : Z) (acc : string) :
  0 <= n < 10 -> digits_of (S fuel) n acc = String (digit_char n) acc.
Proof.
  intros H. rewrite digits_of_step.
  rewrite (proj2 (Z.ltb_lt n 10)) by lia. by rewrite Z.mod_small by lia.
Qed.

Lemma digits_of_large (fuel : nat) (n : Z) (acc : string) :
  10 <= n ->
  digits_of (S fuel) n acc
  = digits_of fuel (n / 10) (String (digit_char (n mod 10)) acc).
Proof.
  intros H. rewrite digits_of_step. by rewrite (proj2 (Z.ltb_ge n 10)) by lia.
Qed.

Lemma digit_char_eq (a b : Z) : a = b -> digit_char a = digit_char b.
Proof. by intros ->. Qed.

Ltac digits_eq :=
  unfold digits4, digits2; cbn [String.length Nat.sub zeros];
  rewrite ?append_cons, ?append_nil;
  change "0"%char with (digit_char 0);
  repeat (f_equal; try (apply digit_char_eq; Z.div_mod_to_equations; lia)).

Lemma appendInt_2 (n : Z) : 0 <= n < 100 -> appendInt n 2 = digits2 n.
Proof.
  intros H. unfold appendInt.
  rewrite (proj2 (Z.ltb_ge n 0)), Z.abs_eq by lia.
  destruct (Z.lt_ge_cases n 10).
  - rewrite digits_of_small by lia. digits_eq.
  - rewrite digits_of_large, digits_of_small
      by (Z.div_mod_to_equations; lia). digits_eq.
Qed.

Lemma appendInt_4 (n : Z) : 0 <= n < 10000 -> appendInt n 4 = digits4 n.
Proof.
  intros H. unfold appendInt.
  rewrite (proj2 (Z.ltb_ge n 0)), Z.abs_eq by lia.
  destruct (Z.lt_ge_cases n 10); [|destruct (Z.lt_ge_cases n 100);
                                    [|destruct (Z.lt_ge_cases n 1000)]].
  - rewrite digits_of_small by lia. digits_eq.
  - rewrite digits_of_large, digits_of_small
      by (Z.div_mod_to_equations; lia). digits_eq.
  - rewrite !digits_of_large, digits_of_small
      by (Z.div_mod_to_equations; lia). digits_eq.
  - rewrite digits_of_large by lia.
    rewrite digits_of_large by (Z.div_mod_to_equations; lia).
    rewrite digits_of_large by (Z.div_mod_to_equations; lia).
    rewrite digits_of_small by (Z.div_mod_to_equations; lia). digits_eq.
Qed.

Lemma char_digit_inv (c : ascii) (d : Z) :
  char_digit c = Some d -> c = digit_char d /\ 0 <= d <= 9.
Proof.
  unfold char_digit, byte_in, digit_char.
  destruct (_ && _) eqn:Hc; [|done]. intros [= <-].
  apply andb_true_iff in Hc as [H1%N.leb_le H2%N.leb_le]. split; [|lia].
  replace (48 + Z.to_N (Z.of_N (N_of_ascii c) - 48))%N with (N_of_ascii c) by lia.
  by rewrite ascii_N_embedding.
Qed.

Lemma take_digit_inv (s r : string) (d : Z) :
  take_digit s = Some (d, r) -> s = String (digit_char d) r /\ 0 <= d <= 9.
Proof.
  destruct s as [|c s]; [done|]. simpl.
  destruct (char_digit c) as [d'|] eqn:Hc; [|done]. simpl. intros [= <- <-].
  by apply char_digit_inv in Hc as [-> ?].
Qed.

Lemma take_digits2_inv (s r : string) (n : Z) :
  take_digits2 s = Some (n, r) -> s = digits2 n +:+ r /\ 0 <= n < 100.
Proof.
  unfold take_digits2.
  destruct (take_digit s) as [[a s1]|] eqn:Ha; [|done]. cbn [mbind option_bind].
  destruct (take_digit s1) as [[b s2]|] eqn:Hb; [|done]. cbn [mbind option_bind].
  intros [= <- <-].
  apply take_digit_inv in Ha as [-> Ha]. apply take_digit_inv in Hb as [-> Hb].
  split; [|lia]. unfold digits2. rewrite !append_cons, append_nil.
  replace ((10 * a + b) / 10) with a by (Z.div_mod_to_equations; lia).
  by replace ((10 * a + b) mod 10) with b by (Z.div_mod_to_equations; lia).
Qed.

Lemma take_digits4_inv (s r : string) (n : Z) :
  take_digits4 s = Some (n, r) -> s = digits4 n +:+ r /\ 0 <= n < 10000.
Proof.
  unfold take_digits4.
  destruct (take_digits2 s) as [[a s1]|] eqn:Ha; [|done]. cbn [mbind option_bind].
  destruct (take_digits2 s1) as [[b s2]|] eqn:Hb; [|done]. cbn [mbind option_bind].
  intros [= <- <-].
  apply take_digits2_inv in Ha as [-> Ha]. apply take_digits2_inv in Hb as [-> Hb].
  split; [|lia]. unfold digits4. rewrite append_assoc.
  replace ((100 * a + b) / 100) with a by (Z.div_mod_to_equations; lia).
  by replace ((100 * a + b) mod 100) with b by (Z.div_mod_to_equations; lia).
Qed.

Lemma expect_inv (c : ascii) (s r : string) : expect c s = Some r -> s = String c r.
Proof.
  destruct s as [|c' s]; [done|]. simpl.
  destruct (Ascii.eqb_spec c c') as [->|]; [|done]. by intros [= ->].
Qed.

Lemma formatDate_digits (y m d : Z) :
  0 <= y < 10000 -> 0 <= m < 100 -> 0 <= d < 100 ->
  formatDate (date y m d)
  = digits4 y +:+ String "-" (digits2 m +:+ String "-" (digits2 d +:+ "")).
Proof.
  intros Hy Hm Hd. unfold formatDate. simpl.
  by rewrite appendInt_4, !appendInt_2.
Qed.

Lemma calendar_ok_date (y m d : Z) :
  calendar_ok (date y m d) = true -> 0 <= m < 100 /\ 0 <= d < 100.
Proof.
  unfold calendar_ok. simpl. rewrite !andb_true_iff. intros H. destruct_and!.
  repeat match goal with
         | H : (_ <=? _) = true |- _ => apply Z.leb_le in H
         end.
  split; [lia|]. split; [lia|].
  assert (days_in y m <= 31); [|lia].
  unfold days_in. repeat case_match; lia.
Qed.

Lemma parseDueDate_inv (s : string) (t : Time) :
  parseDueDate s = Some t ->
  exists y m d,
    t = date y m d /\ 0 <= y < 10000 /\ calendar_ok (date y m d) = true
    /\ s = digits4 y +:+ String "-" (digits2 m +:+ String "-" (digits2 d +:+ "")).
Proof.
  unfold parseDueDate.
  destruct (take_digits4 s) as [[y s1]|] eqn:Hy; [|done]. cbn [mbind option_bind].
  destruct (expect "-" s1) as [s2|] eqn:H1; [|done]. cbn [mbind option_bind].
  destruct (take_digits2 s2) as [[m s3]|] eqn:Hm; [|done]. cbn [mbind option_bind].
  destruct (expect "-" s3) as [s4|] eqn:H2; [|done]. cbn [mbind option_bind].
  destruct (take_digits2 s4) as [[d s5]|] eqn:Hd; [|done]. cbn [mbind option_bind].
  destruct (String.eqb_spec s5 "") as [->|]; [|done]. simpl.
  destruct (calendar_ok (date y m d)) eqn:Hok; [|done]. intros [= <-].
  apply take_digits4_inv in Hy as [-> Hy]. apply expect_inv in H1 as ->.
  apply take_digits2_inv in Hm as [-> Hm]. apply expect_inv in H2 as ->.
  apply take_digits2_inv in Hd as [-> Hd].
  by exists y, m, d.
Qed.

Lemma parseDueDate_digits (y m d : Z) :
  0 <= y < 10000 -> calendar_ok (date y m d) = true ->
  parseDueDate (digits4 y +:+ String "-" (digits2 m +:+ String "-" (digits2 d +:+ "")))
  = Some (date y m d).
Proof.
  intros Hy Hok. destruct (calendar_ok_date y m d Hok) as [Hm Hd].
  unfold parseDueDate.
  rewrite take_digits4_digits4 by done. cbn [mbind option_bind].
  rewrite expect_cons. cbn [mbind option_bind].
  rewrite take_digits2_digits2 by done. cbn [mbind option_bind].
  rewrite expect_cons. cbn [mbind option_bind].
  rewrite take_digits2_digits2 by done. cbn [mbind option_bind].
  by rewrite Hok.
Qed.

Lemma concat_empty_app (l1 l2 : list string) :
  String.concat "" (l1 ++ l2) = String.concat "" l1 +:+ String.concat "" l2.
Proof.
  induction l1 as [|x l1 IH]; [done|].
  destruct l1 as [|y l1].
  - destruct l2 as [|z l2]; [by rewrite append_nil_r | done].
  - change (String.concat "" ((x :: y :: l1) ++ l2))
      with (x +:+ "" +:+ String.concat "" ((y :: l1) ++ l2)).
    rewrite IH.
    change (String.concat "" (x :: y :: l1))
      with (x +:+ "" +:+ String.concat "" (y :: l1)).
    by rewrite !append_nil, append_assoc.
Qed.

(** [parseDueDate] accepts four digits, a hyphen, two digits, a hyphen and
    two digits that name a day of the calendar, and nothing else; the due
    date is that day at midnight UTC, in a year from 0 to 9999, which
    [SaveToFile] can write.  A listing shows the due date with the text
    that was typed, and a date that a listing shows can be typed again. *)
Theorem due_dates_read_back :
  (forall (s : string) (t : Time),
     parseDueDate s = Some t ->
     formatDate t = s
     /\ t = date (year t) (month t) (day t)
     /\ calendar_ok t = true /\ marshalable t = true
     /\ forall todo, DueDate todo = Some t ->
          exists before after,
            todoLine todo = before +:+ " (Due: " +:+ s +:+ ")" +:+ after)
  /\ (forall y m d : Z,
        0 <= y <= 9999 -> calendar_ok (date y m d) = true ->
        parseDueDate (formatDate (date y m d)) = Some (date y m d)).
Proof.
  split.
  - intros s t (y & m & d & -> & Hy & Hok & ->)%parseDueDate_inv.
    destruct (calendar_ok_date y m d Hok) as [Hm Hd].
    assert (Hf : formatDate (date y m d)
                 = digits4 y +:+ String "-" (digits2 m +:+ String "-" (digits2 d +:+ "")))
      by (by apply formatDate_digits).
    split_and!; try done.
    + unfold marshalable. simpl.
      apply andb_true_iff; split; [|done].
      apply andb_true_iff; split; [|done].
      apply andb_true_iff; split; apply Z.leb_le; lia.
    + intros todo Hdue. unfold todoLine. rewrite Hdue, Hf.
      generalize (digits4 y +:+ String "-" (digits2 m +:+ String "-" (digits2 d +:+ ""))).
      generalize (Itoa (ID todo)) (formatMinute (CreatedAt todo))
        (Title (Priority todo)) (Join (elems (Tags todo)) ", ").
      intros i created title tags text.
      exists (String.concat ""
                [if Completed todo then "[x]" else "[ ]"; " "; i; ". "; Task todo;
                 if negb (String.eqb (Priority todo) "")
                 then String.concat "" [" (Priority: "; title; ")"] else ""]),
             (String.concat ""
                [if (0 <? length (elems (Tags todo)))%nat
                 then String.concat "" [" [Tags: "; tags; "]"] else "";
                 " (Created: "; created; ")"]).
      etrans; [apply (concat_empty_app [_; _; _; _; _; _] [_; _; _; _; _])|].
      f_equal.
      etrans; [apply (concat_empty_app [_] [_; _; _; _])|].
      change (String.concat "" [String.concat "" [" (Due: "; text; ")"]])
        with (" (Due: " +:+ "" +:+ text +:+ "" +:+ ")").
      by rewrite !append_nil, !append_assoc.
  - intros y m d Hy Hok.
    destruct (calendar_ok_date y m d Hok) as [Hm Hd].
    rewrite formatDate_digits by lia. apply parseDueDate_digits; [lia | done].
Qed.

Lemma due_dates_read_back_witness :
  formatDate (date 2024 2 29) = "2024-02-29"
  /\ parseDueDate (formatDate (date 2024 12 25)) = Some (date 2024 12 25).
Proof.
  destruct due_dates_read_back as [H1 H2]. split.
  - apply (H1 "2024-02-29" (date 2024 2 29)). reflexivity.
  - apply H2; [lia | reflexivity].
Defined.

(** ** The loop of the interactive mode *)

(** The reading of the clock shows in the record that an [add] creates, and
    nowhere else. *)
Lemma readCommand_clock (line : string) (now now' : Time) :
  readCommand line now
  = match readCommand line now' with
    | Do (CmdAdd task priority dueDate tags _) =>
        Do (CmdAdd task priority dueDate tags now)
    | r => r
    end.
Proof.
  unfold readCommand, with_id.
  destruct (Fields (TrimSpace line)) as [|word parts]; [done|]. cbv zeta.
  repeat case_match; done.
Qed.

Lemma readCommand_exits (line : string) (now : Time) :
  readCommand line now = Quit <-> exits line.
Proof.
  unfold exits. rewrite (readCommand_clock line now zeroTime).
  split; [|by intros ->]. by repeat case_match.
Qed.

Lemma readCommand_asks (line : string) (now : Time) :
  (exists c, readCommand line now = Confirm c) <-> asks line.
Proof.
  unfold asks. rewrite (readCommand_clock line now zeroTime). split.
  - intros [c Hc]. destruct (readCommand line zeroTime) as [|?|[]|c'|];
      try done; by exists c'.
  - intros [c ->]. by exists c.
Qed.

Lemma reaches_exit_nil : ~ reaches_exit [].
Proof. by inversion 1. Qed.

Lemma runInteractiveMode_reaches (fuel : nat) (clock : nat -> Time) (turn : nat)
    (w : world) (stdin : list string) (r : world * list string) :
  runInteractiveMode fuel clock turn w stdin = Some r -> reaches_exit stdin.
Proof.
  revert turn w stdin. induction fuel as [|fuel IH]; intros turn w stdin; [done|].
  destruct stdin as [|line rest].
  - simpl. change (readCommand "" (clock turn)) with Nothing. cbv iota. apply IH.
  - simpl.
    destruct (readCommand line (clock turn)) as [|n|c|c|] eqn:Hread.
    + intros H%IH. apply exit_later; [| |done].
      * intros He%(readCommand_exits line (clock turn)). congruence.
      * intros [c Hc]%(readCommand_asks line (clock turn)). congruence.
    + intros H%IH. apply exit_later; [| |done].
      * intros He%(readCommand_exits line (clock turn)). congruence.
      * intros [c Hc]%(readCommand_asks line (clock turn)). congruence.
    + intros H%IH. apply exit_later; [| |done].
      * intros He%(readCommand_exits line (clock turn)). congruence.
      * intros [c' Hc]%(readCommand_asks line (clock turn)). congruence.
    + destruct rest as [|answer rest]; simpl; intros H%IH.
      * by apply reaches_exit_nil in H.
      * apply exit_after_answer; [|done].
        apply (readCommand_asks line (clock turn)). by exists c.
    + intros _. apply exit_now. by apply (readCommand_exits line (clock turn)).
Qed.

Lemma reaches_runInteractiveMode (clock : nat -> Time) (stdin : list string) :
  reaches_exit stdin ->
  forall turn w, exists fuel r,
    (fuel <= length stdin)%nat
    /\ runInteractiveMode fuel clock turn w stdin = Some r.
Proof.
  induction 1 as [line rest He|line answer rest [c Hc] Hr IH|line rest He Ha Hr IH];
    intros turn w.
  - exists 1%nat, (w, rest). split; [simpl; lia|]. simpl.
    by apply (readCommand_exits line (clock turn)) in He as ->.
  - assert (Hask : exists c', readCommand line (clock turn) = Confirm c').
    { apply readCommand_asks. by exists c. }
    destruct Hask as [c' Hc'].
    destruct (IH (S turn) (step w (c' (getConfirmation answer)))) as (fuel & r & Hf & Hrun).
    exists (S fuel), r. split; [simpl; lia|]. simpl. by rewrite Hc'.
  - destruct (readCommand line (clock turn)) as [|n|c|c|] eqn:Hread.
    + destruct (IH (S turn) w) as (fuel & r & Hf & Hrun).
      exists (S fuel), r. split; [simpl; lia|]. simpl. by rewrite Hread.
    + destruct (IH (S turn) w) as (fuel & r & Hf & Hrun).
      exists (S fuel), r. split; [simpl; lia|]. simpl. by rewrite Hread.
    + destruct (IH (S turn) (step w c)) as (fuel & r & Hf & Hrun).
      exists (S fuel), r. split; [simpl; lia|]. simpl. by rewrite Hread.
    + destruct Ha. apply (readCommand_asks line (clock turn)). by exists c.
    + destruct He. by apply (readCommand_exits line (clock turn)).
Qed.

Lemma runInteractiveMode_more_fuel (fuel : nat) (clock : nat -> Time) (turn : nat)
    (w : world) (stdin : list string) (r : world * list string) :
  runInteractiveMode fuel clock turn w stdin = Some r ->
  runInteractiveMode (S fuel) clock turn w stdin = Some r.
Proof.
  revert turn w stdin. induction fuel as [|fuel IH]; intros turn w stdin; [done|].
  intros H. change (runInteractiveMode (S (S fuel)) clock turn w stdin)
    with (let '(input, stdin') := ReadString stdin in
          match readCommand input (clock turn) with
          | Nothing | Say _ => runInteractiveMode (S fuel) clock (S turn) w stdin'
          | Do c => runInteractiveMode (S fuel) clock (S turn) (step w c) stdin'
          | Confirm c =>
              let '(answer, stdin'') := ReadString stdin' in
              runInteractiveMode (S fuel) clock (S turn)
                (step w (c (getConfirmation answer))) stdin''
          | Quit => Some (w, stdin')
          end).
  simpl in H. destruct (ReadString stdin) as [input stdin'].
  destruct (readCommand input (clock turn)); try (by apply IH); [|done].
  destruct (ReadString stdin') as [answer stdin'']. by apply IH.
Qed.

(** The loop of the interactive mode returns when it reads an [exit], and
    only then.  A line that asks for a confirmation ([delete] with a number,
    [clear-completed]) takes the next line as the answer, also when that
    line says [exit].  When the input ends before an [exit] is read as a
    command, the loop goes on for ever: every further read gives an empty
    line, on which it prompts again.  (For input in ASCII, that arrives line
    by line.) *)
Theorem interactive_loop_returns_at_exit_only
    (clock : nat -> Time) (turn : nat) (w : world) (stdin : list string) :
  Forall (fun line => is_ascii line = true) stdin ->
  ((exists fuel r, runInteractiveMode fuel clock turn w stdin = Some r)
   <-> reaches_exit stdin)
  /\ (reaches_exit stdin ->
      exists r, forall fuel, (length stdin <= fuel)%nat ->
        runInteractiveMode fuel clock turn w stdin = Some r)
  /\ (Forall (fun line => ~ exits line) stdin ->
      forall fuel, runInteractiveMode fuel clock turn w stdin = None).
Proof.
  intros _. split_and!.
  - split.
    + intros (fuel & r & H). by eapply runInteractiveMode_reaches.
    + intros H. destruct (reaches_runInteractiveMode clock stdin H turn w)
        as (fuel & r & _ & Hr). by exists fuel, r.
  - intros H. destruct (reaches_runInteractiveMode clock stdin H turn w)
      as (fuel & r & Hf & Hr).
    exists r. intros fuel' Hf'.
    replace fuel' with ((fuel' - fuel) + fuel)%nat by lia.
    induction (fuel' - fuel)%nat as [|k IH]; [done|].
    by apply runInteractiveMode_more_fuel.
  - intros Hno fuel.
    destruct (runInteractiveMode fuel clock turn w stdin) as [r|] eqn:Hr; [|done].
    apply runInteractiveMode_reaches in Hr. exfalso.
    clear -Hno Hr. induction Hr as [line rest He|line answer rest _ Hr IH|line rest _ _ Hr IH].
    + by apply Forall_cons_1 in Hno as [? _].
    + apply IH. by do 2 apply Forall_cons_1 in Hno as [_ Hno].
    + apply IH. by apply Forall_cons_1 in Hno as [_ Hno].
Qed.

Lemma interactive_loop_returns_at_exit_only_witness :
  (forall fuel,
     runInteractiveMode fuel (fun _ => morning) 0 start ["delete 1"; "exit"] = None)
  /\ exists r, forall fuel, (3 <= fuel)%nat ->
       runInteractiveMode fuel (fun _ => morning) 0 start ["list"; "EXIT now"; "undo"]
       = Some r.
Proof.
  split.
  - intros fuel.
    destruct (runInteractiveMode fuel (fun _ => morning) 0 start ["delete 1"; "exit"])
      as [r|] eqn:Hr; [|done].
    destruct (interactive_loop_returns_at_exit_only (fun _ => morning) 0 start
                ["delete 1"; "exit"]) as ([Hto _] & _ & _).
    { repeat constructor. }
    assert (Hreach : reaches_exit ["delete 1"; "exit"]) by (apply Hto; eauto).
    inversion Hreach as [l rest He|l a rest Ha Hrest|l rest He Ha Hrest]; subst.
    + discriminate He.
    + by inversion Hrest.
    + destruct Ha. by eexists.
  - destruct (interactive_loop_returns_at_exit_only (fun _ => morning) 0 start
                ["list"; "EXIT now"; "undo"]) as (_ & H & _).
    { repeat constructor. }
    apply H. apply exit_later; [discriminate | by intros [c Hc] |].
    by apply exit_now.
Defined.

(** ** What a session keeps *)

Section kept.
Context (P : Todo -> Prop).
Hypothesis P_flag : forall b t, P t -> P (set_Completed b t).
Hypothesis P_task : forall s t, P t -> P (set_Task s t).

Lemma kept_alter (f : Todo -> Todo) (i : nat) (s : slice Todo) :
  (forall t, P t -> P (f t)) ->
  Forall P (elems s) -> Forall P (elems (modify i f s)).
Proof.
  intros Hf Hs. rewrite elems_modify. apply Forall_alter; [done|]. eauto.
Qed.

Lemma kept_Complete (id : Z) (tl : TodoList) :
  Forall P (todos tl) -> Forall P (todos (Complete id tl).1).
Proof.
  unfold Complete. destruct (find_id id (todos tl)) as [[i t]|]; [|done].
  apply kept_alter, P_flag.
Qed.

Lemma kept_Uncomplete (id : Z) (tl : TodoList) :
  Forall P (todos tl) -> Forall P (todos (Uncomplete id tl).1).
Proof.
  unfold Uncomplete. destruct (find_id id (todos tl)) as [[i t]|]; [|done].
  apply kept_alter, P_flag.
Qed.

Lemma kept_EditTask (id : Z) (s : string) (tl : TodoList) :
  Forall P (todos tl) -> Forall P (todos (EditTask id s tl).1).
Proof.
  unfold EditTask. destruct (find_id id (todos tl)) as [[i t]|]; [|done].
  apply kept_alter, P_task.
Qed.

Lemma kept_Delete (id : Z) (tl : TodoList) :
  Forall P (todos tl) ->
  Forall P (todos (Delete id tl).1) /\ (forall d, (Delete id tl).2 = inl d -> P d).
Proof.
  intros Hs. destruct (Delete_cases id tl) as [-> | (l1 & d & l2 & Hl & _ & ->)].
  - by split.
  - rewrite Hl in Hs. apply Forall_app in Hs as [H1 [Hd H2]%Forall_cons].
    split; [by apply Forall_app | by intros d' [= <-]].
Qed.

Lemma kept_ClearCompleted (tl : TodoList) :
  Forall P (todos tl) -> Forall P (todos (ClearCompleted tl).1).
Proof.
  intros Hs. destruct (ClearCompleted_todos tl) as [-> _].
  apply Forall_forall. intros t [_ Ht]%list_elem_of_filter.
  rewrite Forall_forall in Hs. by apply Hs.
Qed.

Lemma kept_append (tl : TodoList) (t : Todo) (n : Z) :
  Forall P (todos tl) -> P t ->
  Forall P (todos (mkTodoList (append (Todos tl) [t]) n)).
Proof.
  intros Hs Ht. unfold todos; simpl. rewrite elems_append.
  apply Forall_app. split; [done | by apply Forall_singleton].
Qed.

Lemma undo_keeps (w : world) : kept_by P w -> kept_by P (undo w).
Proof.
  intros [Hs Hu]. unfold undo. split; [|done]. simpl.
  destruct (Type_ (lastActionState w)).
  - done.
  - pose proof (kept_Delete (ActionID (lastActionState w)) (todoList w) Hs) as [H _].
    by destruct (Delete _ (todoList w)) as [tl' [d|e]].
  - pose proof (kept_Uncomplete (ActionID (lastActionState w)) (todoList w) Hs) as H.
    by destruct (Uncomplete _ (todoList w)) as [tl' [e|]].
  - destruct (DeletedTodo (lastActionState w)) as [d|] eqn:Hd; [|done].
    simpl. apply kept_append; [done | by apply Hu].
  - pose proof (kept_Complete (ActionID (lastActionState w)) (todoList w) Hs) as H.
    by destruct (Complete _ (todoList w)) as [tl' [e|]].
Qed.

Lemma step_keeps (w : world) (c : command) :
  kept_by P w -> adds_fit P c -> kept_by P (step w c).
Proof.
  intros Hw Hc. pose proof Hw as [Hs Hu].
  destruct c as [task p due tags now|id s|[]|q|id|id|id []| |]; simpl in Hc.
  - split; [|done]. simpl. by apply kept_append.
  - simpl. pose proof (kept_EditTask id s (todoList w) Hs) as H.
    by destruct (EditTask id s (todoList w)) as [tl' [e|]].
  - simpl. pose proof (kept_ClearCompleted (todoList w) Hs) as H.
    by destruct (ClearCompleted (todoList w)) as [tl' m].
  - done.
  - simpl. by destruct (_ =? _)%nat.
  - simpl. pose proof (kept_Complete id (todoList w) Hs) as H.
    by destruct (Complete id (todoList w)) as [tl' [e|]].
  - simpl. pose proof (kept_Uncomplete id (todoList w) Hs) as H.
    by destruct (Uncomplete id (todoList w)) as [tl' [e|]].
  - simpl. pose proof (kept_Delete id (todoList w) Hs) as [H Hd].
    destruct (Delete id (todoList w)) as [tl' [d|e]]; [|done].
    split; [done|]. simpl. intros d' [= <-]. by apply Hd.
  - done.
  - done.
  - by apply undo_keeps.
Qed.

Lemma run_keeps (cs : list command) (w : world) :
  kept_by P w -> Forall (adds_fit P) cs -> kept_by P (run w cs).
Proof.
  revert w. induction cs as [|c cs IH]; intros w Hw Hcs; [done|].
  apply Forall_cons in Hcs as [Hc Hcs]. rewrite run_cons.
  apply IH; [by apply step_keeps | done].
Qed.

End kept.

(** ** The commands that the loop reads *)

Lemma Join_ascii (ws : list string) :
  Forall (fun w => is_ascii w = true) ws -> is_ascii (Join ws " ") = true.
Proof.
  unfold Join. induction 1 as [|w ws Hw Hws IH]; [done|].
  destruct ws as [|w' ws]; [done|].
  change (String.concat " " (w :: w' :: ws))
    with (w +:+ " " +:+ String.concat " " (w' :: ws)).
  by rewrite !is_ascii_app, Hw, IH.
Qed.

Lemma split_loop_ascii (sep : ascii) (s piece : string) :
  is_ascii s = true -> is_ascii piece = true ->
  Forall (fun w => is_ascii w = true) (split_loop sep s piece).
Proof.
  revert piece. induction s as [|c s IH]; intros piece Hs Hp; simpl.
  - by repeat constructor.
  - simpl in Hs. apply andb_true_iff in Hs as [Hc Hs].
    destruct (Ascii.eqb c sep).
    + constructor; [done | by apply IH].
    + apply IH; [done|]. by rewrite is_ascii_app, Hp; simpl; rewrite Hc.
Qed.

Lemma parseAddArgs_ascii (parts : list string) (a : addArgs) :
  Forall (fun w => is_ascii w = true) parts ->
  is_ascii (task_ a) = true -> Forall (fun w => is_ascii w = true) (tags_ a) ->
  is_ascii (task_ (parseAddArgs parts a)) = true
  /\ Forall (fun w => is_ascii w = true) (tags_ (parseAddArgs parts a)).
Proof.
  revert a. induction parts as [|x|x y l IH1 IH2] using list_ind2;
    intros a Hparts Htask Htags.
  - done.
  - apply Forall_cons_1 in Hparts as [Hx _]. simpl. split; [|done].
    destruct (String.eqb (task_ a) ""); [done|].
    by rewrite !is_ascii_app, Htask, Hx.
  - apply Forall_cons_1 in Hparts as [Hx Hyl]. pose proof Hyl as Hyl'.
    apply Forall_cons_1 in Hyl' as [Hy Hl].
    rewrite parseAddArgs_step.
    destruct (String.eqb x "-p"); [by apply IH1|].
    destruct (String.eqb x "-d"); [by apply IH1|].
    destruct (String.eqb x "-t").
    { apply IH1; [done..|]. simpl. apply Forall_app. split; [done|].
      by apply split_loop_ascii. }
    apply IH2; [done| |done]. simpl.
    destruct (String.eqb (task_ a) ""); [done|].
    by rewrite !is_ascii_app, Htask, Hx.
Qed.

Lemma parseDueDate_fit (s : string) (t : Time) :
  parseDueDate s = Some t -> calendar_ok t = true /\ marshalable t = true.
Proof.
  intros (y & m & d & -> & Hy & Hok & _)%parseDueDate_inv. split; [done|].
  unfold marshalable. simpl.
  apply andb_true_iff; split; [|done]. apply andb_true_iff; split; [|done].
  apply andb_true_iff; split; apply Z.leb_le; lia.
Qed.

(** What a line in ASCII asks for can be saved: the texts are UTF-8, the due
    date is a day of the calendar in a year that JSON can hold. *)
Lemma readCommand_fit (line : string) (now : Time) (c : command) :
  is_ascii line = true ->
  calendar_ok now = true -> marshalable now = true ->
  readCommand line now = Do c \/ (exists f b, readCommand line now = Confirm f /\ c = f b) ->
  command_ok c /\ adds_fit marshalable_todo c.
Proof.
  intros Hline Hcal Hmar. unfold readCommand. rewrite Fields_TrimSpace.
  pose proof (fields_loop_ascii line "" Hline eq_refl) as Hw. fold (Fields line) in Hw.
  destruct (Fields line) as [|word parts]; [by intros [|(? & ? & ? & _)]|].
  apply Forall_cons_1 in Hw as [Hword Hparts]. cbv zeta.
  destruct (String.eqb (ToLower word) "add").
  { destruct (parseAddArgs_ascii parts (mkAddArgs "" "" "" []) Hparts eq_refl)
      as [Htask Htags]; [constructor|].
    apply is_ascii_ValidString in Htask.
    assert (Htags' : Forall (fun tag => ValidString tag = true)
                       (tags_ (parseAddArgs parts (mkAddArgs "" "" "" [])))).
    { eapply Forall_impl; [exact Htags|]. apply is_ascii_ValidString. }
    destruct (String.eqb (task_ _) ""); [by intros [|(? & ? & ? & _)]|].
    destruct (String.eqb (dueDateStr _) "").
    { intros [[= <-]|(? & ? & ? & _)]; [|done]. simpl. split; [done|].
      intros id p. split; [done | by intros d]. }
    destruct (parseDueDate _) as [due|] eqn:Hdue; [|by intros [|(? & ? & ? & _)]].
    apply parseDueDate_fit in Hdue as [Hd1 Hd2].
    intros [[= <-]|(? & ? & ? & _)]; [|done]. simpl. split.
    - split_and!; try done. by intros d [= <-].
    - intros id p. split; [done|]. simpl. by intros d [= <-]. }
  destruct (String.eqb (ToLower word) "edit").
  { destruct parts as [|arg [|w ws]];
      try (by intros [|(? & ? & ? & _)]). simpl.
    destruct (Atoi arg); [|by intros [|(? & ? & ? & _)]].
    intros [[= <-]|(? & ? & ? & _)]; [|done]. simpl. split; [|done].
    apply is_ascii_ValidString, (Join_ascii (w :: ws)).
    by apply Forall_cons_1 in Hparts as [_ ?]. }
  destruct (String.eqb (ToLower word) "clear-completed").
  { intros [|(f & b & [= <-] & ->)]; done. }
  destruct (String.eqb (ToLower word) "search").
  { destruct parts as [|w ws]; [by intros [|(? & ? & ? & _)]|]. simpl.
    intros [[= <-]|(? & ? & ? & _)]; done. }
  destruct (String.eqb (ToLower word) "complete").
  { unfold with_id. destruct parts as [|arg ?]; [by intros [|(? & ? & ? & _)]|].
    destruct (Atoi arg); intros [[= <-]|(? & ? & ? & _)]; done. }
  destruct (String.eqb (ToLower word) "uncomplete").
  { unfold with_id. destruct parts as [|arg ?]; [by intros [|(? & ? & ? & _)]|].
    destruct (Atoi arg); intros [[= <-]|(? & ? & ? & _)]; done. }
  destruct (String.eqb (ToLower word) "delete").
  { unfold with_id. destruct parts as [|arg ?]; [by intros [|(? & ? & ? & _)]|].
    destruct (Atoi arg); intros [|(f & b & [= <-] & ->)]; done. }
  destruct (String.eqb (ToLower word) "list");
    [by intros [[= <-]|(? & ? & ? & _)]|].
  destruct (String.eqb (ToLower word) "help"); [by intros [|(? & ? & ? & _)]|].
  destruct (String.eqb (ToLower word) "exit"); [by intros [|(? & ? & ? & _)]|].
  destruct (String.eqb (ToLower word) "undo");
    by intros [[= <-]|(? & ? & ? & _)].
Qed.

(** A session of the loop is a run of the commands that its lines ask for,
    of which there are fewer than lines. *)
Lemma runInteractiveMode_run (Q : command -> Prop) (fuel : nat)
    (clock : nat -> Time) (turn : nat) (w : world) (stdin : list string)
    (w' : world) (rest : list string) :
  (forall line k c, line ∈ stdin ->
     readCommand line (clock k) = Do c
     \/ (exists f b, readCommand line (clock k) = Confirm f /\ c = f b) -> Q c) ->
  runInteractiveMode fuel clock turn w stdin = Some (w', rest) ->
  exists cs, w' = run w cs /\ Forall Q cs
             /\ (length cs + length rest < length stdin)%nat.
Proof.
  revert turn w stdin. induction fuel as [|fuel IH]; intros turn w stdin HQ; [done|].
  destruct stdin as [|line stdin].
  - simpl. change (readCommand "" (clock turn)) with Nothing. cbv iota.
    by apply IH.
  - assert (HQ' : forall line' k c, line' ∈ stdin ->
              readCommand line' (clock k) = Do c
              \/ (exists f b, readCommand line' (clock k) = Confirm f /\ c = f b) ->
              Q c).
    { intros line' k c Hin. apply HQ. by right. }
    simpl. destruct (readCommand line (clock turn)) as [|n|c|f|] eqn:Hread.
    + intros (cs & -> & Hcs & Hlen)%IH; [|done].
      exists cs. split_and!; [done..|simpl; lia].
    + intros (cs & -> & Hcs & Hlen)%IH; [|done].
      exists cs. split_and!; [done..|simpl; lia].
    + intros (cs & -> & Hcs & Hlen)%IH; [|done].
      exists (c :: cs). split_and!; [done| |simpl; lia].
      constructor; [|done]. apply (HQ line turn); [by left | by left].
    + assert (Hf : forall b, Q (f b)).
      { intros b. apply (HQ line turn); [by left|]. right. by exists f, b. }
      destruct stdin as [|answer stdin]; simpl.
      * intros (cs & -> & Hcs & Hlen)%IH; [|done]. simpl in Hlen. lia.
      * intros (cs & -> & Hcs & Hlen)%IH.
        -- exists (f (getConfirmation answer) :: cs).
           split_and!; [done| |simpl; lia]. by constructor.
        -- intros line' k c Hin. apply HQ'. by right.
    + intros [= <- <-]. exists []. split_and!; [done | constructor | simpl; lia].
Qed.

Lemma adds_le_length (cs : list command) : (adds cs <= length cs)%nat.
Proof.
  induction cs as [|c cs IH]; [done|]. simpl. destruct (is_add c); lia.
Qed.

(** Whatever is typed, the loop of the interactive mode keeps the
    identifiers of the records distinct and below the counter: its session
    is a run of the commands that the lines ask for, at most one for a line.
    (For input in ASCII that arrives line by line, and as long as the
    counter cannot overflow.) *)
Theorem interactive_session_keeps_identifiers_distinct
    (fuel : nat) (clock : nat -> Time) (turn : nat) (w : world)
    (stdin : list string) (w' : world) (rest : list string) :
  Forall (fun line => is_ascii line = true) stdin ->
  consistent w ->
  NextID (todoList w) + Z.of_nat (length stdin) <= int_max ->
  runInteractiveMode fuel clock turn w stdin = Some (w', rest) ->
  (exists cs, w' = run w cs /\ (length cs + length rest < length stdin)%nat)
  /\ NoDup (ids (todoList w'))
  /\ Forall (fun i => 1 <= i < NextID (todoList w')) (ids (todoList w'))
  /\ NextID (todoList w) <= NextID (todoList w')
     < NextID (todoList w) + Z.of_nat (length stdin).
Proof.
  intros _ Hc Hmax Hrun.
  destruct (runInteractiveMode_run (fun _ => True) fuel clock turn w stdin w' rest)
    as (cs & -> & _ & Hlen); [done..|].
  pose proof (adds_le_length cs) as Hadds.
  destruct (run_consistent cs w Hc) as ([_ Hnd Hbelow _] & Hnext & _); [lia|].
  split_and!; try done; [by exists cs | lia..].
Qed.

Lemma interactive_session_keeps_identifiers_distinct_witness :
  exists w', runInteractiveMode 9 (fun _ => morning) 0 start
               ["add a"; "add b -p high"; "delete 1"; "y"; "undo"; "add c";
                "exit"; "list"]
             = Some (w', ["list"])
             /\ NoDup (ids (todoList w')).
Proof.
  eexists. split; [vm_compute; reflexivity|].
  assert (H := interactive_session_keeps_identifiers_distinct 9 (fun _ => morning) 0
                 start ["add a"; "add b -p high"; "delete 1"; "y"; "undo"; "add c";
                        "exit"; "list"]).
  edestruct H as (_ & Hnd & _); [repeat constructor | apply initial_consistent
                                | vm_compute; discriminate | vm_compute; reflexivity |].
  exact Hnd.
Defined.

(** ** Sessions and the file *)

Lemma savable_start : savable start.
Proof.
  split_and!.
  - apply initial_consistent.
  - by vm_compute.
  - split; [constructor | done].
  - split; [constructor | done].
Qed.

Lemma savable_restart (w : world) : savable w -> savable (initial (todoList w)).
Proof.
  intros (Hc & Hmax & [Hs _] & [Hm _]). split_and!; try done.
  by apply (consistent_forget w []).
Qed.

Lemma savable_saves (w : world) (filename : string) (fs : gmap string node) :
  savable w -> (forall e, fs !! filename <> Some (Fails e)) ->
  exists fs', SaveToFile filename (todoList w) fs = (fs', None)
              /\ LoadFromFile filename fs' = (Some (todoList w), None).
Proof.
  intros ([Hpos _ Hbelow _] & Hmax & [Hs _] & [Hm _]) Hfs.
  destruct (marshalTodoList_succeeds (todoList w) Hm) as [j Hj].
  assert (Hgo : go_value (todoList w)).
  { split; [unfold in_int, int_min; lia|].
    unfold ids in Hbelow. rewrite Forall_fmap, Forall_forall in Hbelow.
    rewrite Forall_forall in Hs. apply Forall_forall. intros t Ht.
    specialize (Hbelow t Ht). simpl in Hbelow.
    destruct (Hs t Ht) as (? & ? & _). split_and!; try done.
    unfold in_int, int_min. lia. }
  assert (Hutf : utf8_texts (todoList w)).
  { eapply Forall_impl; [exact Hs|]. by intros t (_ & _ & ?). }
  exists (<[filename := File (Document j)]> fs). split.
  - unfold SaveToFile, MarshalIndent. rewrite Hj. cbn. unfold WriteFile.
    destruct (fs !! filename) as [[old|e]|] eqn:Hf; try done. by destruct (Hfs e).
  - unfold LoadFromFile, ReadFile, Unmarshal. rewrite lookup_insert_eq.
    by rewrite (unmarshal_marshal (todoList w) j NewTodoList).
Qed.

(** Whatever is typed in ASCII at the prompt, what the interactive mode
    leaves at the [exit] can be saved, and the file gives the same
    collection back: the same records in the same order, and the same
    counter.  This holds from the empty collection and from every
    collection that was saved in this way, as long as the counter cannot
    overflow, the clock shows a year from 0 to 9999 and the file can be
    written. *)
Theorem interactive_session_can_be_saved
    (fuel : nat) (clock : nat -> Time) (turn : nat) (w : world)
    (stdin : list string) (w' : world) (rest : list string)
    (filename : string) (fs : gmap string node) :
  Forall (fun line => is_ascii line = true) stdin ->
  (forall k, calendar_ok (clock k) = true /\ marshalable (clock k) = true) ->
  savable w ->
  NextID (todoList w) + Z.of_nat (length stdin) <= int_max ->
  (forall e, fs !! filename <> Some (Fails e)) ->
  runInteractiveMode fuel clock turn w stdin = Some (w', rest) ->
  (exists fs', SaveToFile filename (todoList w') fs = (fs', None)
               /\ LoadFromFile filename fs' = (Some (todoList w'), None))
  /\ savable (initial (todoList w')).
Proof.
  intros Hascii Hclock (Hc & Hmax & Hs & Hm) Hn Hfs Hrun.
  destruct (runInteractiveMode_run
              (fun c => command_ok c /\ adds_fit marshalable_todo c)
              fuel clock turn w stdin w' rest) as (cs & -> & Hcs & Hlen); [|done|].
  { intros line k c Hin. rewrite Forall_forall in Hascii.
    destruct (Hclock k). apply readCommand_fit; auto. }
  pose proof (adds_le_length cs) as Hadds.
  destruct (run_consistent cs w Hc) as (Hc' & Hnext & _); [lia|].
  assert (Hsav : savable (run w cs)).
  { split_and!.
    - done.
    - lia.
    - apply run_sound; [done|]. eapply Forall_impl; [exact Hcs|]. by intros c [? _].
    - apply run_keeps; try done. eapply Forall_impl; [exact Hcs|]. by intros c [_ ?]. }
  split; [by apply savable_saves | by apply savable_restart].
Qed.

Lemma interactive_session_can_be_saved_witness :
  let w' := run start [CmdAdd "Buy milk" "" (Some (date 2024 12 25))
                              (Some ["home"]) morning; CmdComplete 1] in
  exists fs',
    SaveToFile "todos.json" (todoList w') ∅ = (fs', None)
    /\ LoadFromFile "todos.json" fs' = (Some (todoList w'), None).
Proof.
  intros w'.
  apply (interactive_session_can_be_saved 4 (fun _ => morning) 0 start
           ["add Buy milk -d 2024-12-25 -t home"; "complete 1"; "exit"] w' []
           "todos.json" ∅).
  - repeat constructor.
  - done.
  - apply savable_start.
  - vm_compute. discriminate.
  - intros e. by rewrite lookup_empty.
  - vm_compute. reflexivity.
Defined.

(** ** The single command mode *)

Lemma savable_run (w : world) (cs : list command) :
  savable w ->
  Forall (fun c => command_ok c /\ adds_fit marshalable_todo c) cs ->
  NextID (todoList w) + Z.of_nat (length cs) <= int_max ->
  savable (run w cs).
Proof.
  intros (Hc & Hmax & Hs & Hm) Hcs Hn.
  pose proof (adds_le_length cs) as Hadds.
  destruct (run_consistent cs w Hc) as (Hc' & Hnext & _); [lia|].
  split_and!.
  - done.
  - lia.
  - apply run_sound; [done|]. eapply Forall_impl; [exact Hcs|]. by intros c [? _].
  - apply run_keeps; try done. eapply Forall_impl; [exact Hcs|]. by intros c [_ ?].
Qed.

(** A single command is at most one command of the interactive mode, run
    with nothing to undo. *)
Lemma processSingleCommand_run (f : flags) (now : Time) (stdin : list string)
    (tl : TodoList) :
  ValidString (addPtr f) = true ->
  calendar_ok now = true -> marshalable now = true ->
  exists cs,
    (processSingleCommand f now stdin tl).1.1 = todoList (run (initial tl) cs)
    /\ (length cs <= 1)%nat
    /\ Forall (fun c => command_ok c /\ adds_fit marshalable_todo c) cs.
Proof.
  intros Hadd Hcal Hmar. unfold processSingleCommand.
  assert (Hnone : exists cs,
            tl = todoList (run (initial tl) cs) /\ (length cs <= 1)%nat
            /\ Forall (fun c => command_ok c /\ adds_fit marshalable_todo c) cs).
  { exists []. split_and!; [done | simpl; lia | constructor]. }
  destruct (NFlag f =? 0)%nat; [done|].
  destruct (negb (String.eqb (addPtr f) "")).
  { exists [CmdAdd (addPtr f) PriorityMedium None (Some []) now].
    split_and!; [done | simpl; lia |]. constructor; [|done]. split.
    - simpl. split_and!; try done.
    - intros id p. split; [done|]. simpl. by intros d. }
  destruct (negb (completePtr f =? 0)).
  { exists [CmdComplete (completePtr f)]. split_and!; [|simpl; lia|by repeat constructor].
    unfold run. simpl. by destruct (Complete (completePtr f) tl) as [tl' [e|]]. }
  destruct (negb (deletePtr f =? 0)).
  { destruct (ReadString stdin) as [answer stdin'].
    exists [CmdDelete (deletePtr f) (getConfirmation answer)].
    split_and!; [|simpl; lia|by repeat constructor].
    unfold run. simpl. destruct (getConfirmation answer); [|done].
    by destruct (Delete (deletePtr f) tl) as [tl' [d|e]]. }
  destruct (clearCompletedCmdPtr f).
  { destruct (ReadString stdin) as [answer stdin'].
    exists [CmdClearCompleted (getConfirmation answer)].
    split_and!; [|simpl; lia|by repeat constructor].
    unfold run. simpl. destruct (getConfirmation answer); [|done].
    by destruct (ClearCompleted tl) as [tl' m]. }
  by destruct (listPtr f).
Qed.

(** Started on a collection that can be saved (distinct identifiers below
    the counter, texts in UTF-8, time stamps of the calendar in the years
    0..9999, as the program itself builds and saves them), whatever the
    flags and whatever is typed, what [HandleCommands] leaves can be saved
    again and is read back as it is: in the interactive mode and for a
    single command alike, the identifiers stay distinct and below the
    counter, the texts UTF-8 and the dates within what JSON holds.  A
    single command is at most one command of the interactive mode, run
    with nothing to undo.  (For a description given to [-add] that is
    UTF-8, input in ASCII, a clock that shows a year from 0 to 9999, a
    counter that cannot overflow and a file that can be written.) *)
Theorem HandleCommands_leaves_a_savable_collection
    (f : flags) (fuel : nat) (clock : nat -> Time) (stdin : list string)
    (tl tl' : TodoList) (out : list said) (rest : list string)
    (filename : string) (fs : gmap string node) :
  ValidString (addPtr f) = true ->
  Forall (fun line => is_ascii line = true) stdin ->
  (forall k, calendar_ok (clock k) = true /\ marshalable (clock k) = true) ->
  savable (initial tl) ->
  NextID tl + Z.of_nat (length stdin) < int_max ->
  (forall e, fs !! filename <> Some (Fails e)) ->
  HandleCommands f fuel clock stdin tl = Some (tl', out, rest) ->
  savable (initial tl')
  /\ (exists fs', SaveToFile filename tl' fs = (fs', None)
                  /\ LoadFromFile filename fs' = (Some tl', None))
  /\ (interactivePtr f = false ->
      exists cs, (length cs <= 1)%nat /\ tl' = todoList (run (initial tl) cs)).
Proof.
  intros Hadd Hascii Hclock Hsav Hn Hfs. unfold HandleCommands.
  assert (Hrun : forall cs,
            Forall (fun c => command_ok c /\ adds_fit marshalable_todo c) cs ->
            (length cs <= S (length stdin))%nat ->
            savable (initial (todoList (run (initial tl) cs)))
            /\ exists fs', SaveToFile filename (todoList (run (initial tl) cs)) fs
                           = (fs', None)
                           /\ LoadFromFile filename fs'
                              = (Some (todoList (run (initial tl) cs)), None)).
  { intros cs Hcs Hlen.
    assert (Hs : savable (run (initial tl) cs)) by (apply savable_run; simpl; [done..|lia]).
    split; [by apply savable_restart | by apply savable_saves]. }
  destruct (interactivePtr f).
  - destruct (runInteractiveMode fuel clock 0 (initial tl) stdin) as [[w stdin']|] eqn:Hloop;
      [|done].
    intros [= <- <- <-].
    destruct (runInteractiveMode_run
                (fun c => command_ok c /\ adds_fit marshalable_todo c)
                fuel clock 0 (initial tl) stdin w stdin') as (cs & -> & Hcs & Hlen);
      [|done|].
    { intros line k c Hin. rewrite Forall_forall in Hascii.
      destruct (Hclock k). apply readCommand_fit; auto. }
    destruct (Hrun cs) as [? ?]; [done | lia |]. by split_and!.
  - intros [= Hp].
    destruct (Hclock 0%nat) as [Hcal Hmar].
    destruct (processSingleCommand_run f (clock 0%nat) stdin tl Hadd Hcal Hmar)
      as (cs & Heq & Hlen & Hcs).
    rewrite Hp in Heq. simpl in Heq. subst tl'.
    destruct (Hrun cs) as [? ?]; [done | lia |]. split_and!; try done.
    intros _. by exists cs.
Qed.

Lemma HandleCommands_leaves_a_savable_collection_witness :
  let f := mkFlags "Buy milk" 0 0 true false false "all" "" "" "id" "asc" 2 in
  let tl' := mkTodoList (Some [mkTodo 1 "Buy milk" false morning PriorityMedium
                                      None (Some [])]) 2 in
  HandleCommands f 0 (fun _ => morning) [] NewTodoList = Some (tl', [], [])
  /\ exists fs', SaveToFile "todos.json" tl' ∅ = (fs', None)
                 /\ LoadFromFile "todos.json" fs' = (Some tl', None).
Proof.
  intros f tl'. split; [reflexivity|].
  refine (proj1 (proj2 (HandleCommands_leaves_a_savable_collection f 0
           (fun _ => morning) [] NewTodoList tl' [] [] "todos.json" ∅ _ _ _ _ _ _ _))).
  - reflexivity.
  - constructor.
  - done.
  - apply savable_start.
  - vm_compute. reflexivity.
  - intros e. by rewrite lookup_empty.
  - reflexivity.
Defined.

(** * The configuration file (utils.go) *)

Lemma digit_char_ascii (d : Z) :
  0 <= d <= 9 -> (N_of_ascii (digit_char d) <? 128)%N = true.
Proof.
  intros H.
  assert (d = 0 \/ d = 1 \/ d = 2 \/ d = 3 \/ d = 4 \/ d = 5 \/ d = 6 \/ d = 7
          \/ d = 8 \/ d = 9) as Hd by lia.
  repeat destruct Hd as [->|Hd]; try done. by subst.
Qed.

Lemma digits_of_ascii (fuel : nat) (n : Z) (acc : string) :
  0 <= n -> is_ascii acc = true -> is_ascii (digits_of fuel n acc) = true.
Proof.
  revert n acc. induction fuel as [|fuel IH]; intros n acc Hn Hacc; [done|].
  rewrite digits_of_step.
  assert (Hd : is_ascii (String (digit_char (n mod 10)) acc) = true).
  { simpl. by rewrite digit_char_ascii by (Z.div_mod_to_equations; lia). }
  destruct (n <? 10); [done|]. apply IH; [Z.div_mod_to_equations; lia | done].
Qed.

Lemma fraction_digits_ascii (n : nat) (f : Z) :
  0 <= f < 10 ^ Z.of_nat n -> is_ascii (fraction_digits n f) = true.
Proof.
  revert f. induction n as [|n IH]; intros f Hf; [done|].
  rewrite Nat2Z.inj_succ, Z.pow_succ_r in Hf by lia. simpl.
  destruct (f =? 0); [done|]. simpl.
  assert (0 < 10 ^ Z.of_nat n) by (apply Z.pow_pos_nonneg; lia).
  rewrite digit_char_ascii.
  - apply IH. by apply Z.mod_pos_bound.
  - split; [apply Z.div_pos; lia|].
    assert (f / 10 ^ Z.of_nat n < 10); [|lia].
    apply Z.div_lt_upper_bound; lia.
Qed.

Lemma fmtInt_ascii (v : Z) : 0 <= v -> is_ascii (fmtInt v) = true.
Proof. intros H. by apply digits_of_ascii. Qed.

Lemma fmtFrac_ascii (v : Z) (prec : nat) : is_ascii (fmtFrac v prec) = true.
Proof.
  unfold fmtFrac. cbv zeta. destruct (_ =? 0); [done|]. simpl.
  apply fraction_digits_ascii, Z.mod_pos_bound, Z.pow_pos_nonneg; lia.
Qed.

Lemma valid_ascii_prefix (a rest : string) :
  is_ascii a = true -> valid_from 0 (a +:+ rest) = valid_from 0 rest.
Proof.
  induction a as [|c a IH]; [done|]. simpl is_ascii.
  intros [Hc Ha]%andb_true_iff. rewrite append_cons.
  cbn [valid_from rune_len]. unfold byte_in.
  replace ((0 <=? N_of_ascii c)%N && (N_of_ascii c <=? 127)%N) with true.
  - by apply IH.
  - symmetry. apply andb_true_iff. split; [by apply N.leb_le; lia|].
    apply N.leb_le. apply N.ltb_lt in Hc. lia.
Qed.

(** What [Duration.String] writes is UTF-8. *)
Lemma DurationString_valid (d : Z) : ValidString (DurationString d) = true.
Proof.
  unfold ValidString, DurationString. cbv zeta.
  assert (Hu : 0 <= Z.abs d) by lia. generalize dependent (Z.abs d). intros u Hu.
  assert (Hsign : forall text, valid_from 0 text = true ->
            valid_from 0 (if d <? 0 then String "-" text else text) = true).
  { intros text Ht. by destruct (d <? 0). }
  apply Hsign.
  assert (Hascii : forall s, is_ascii s = true -> valid_from 0 s = true).
  { apply is_ascii_valid_from. }
  destruct (u <? 1000000000).
  - destruct (u =? 0); [done|].
    destruct (u <? 1000).
    { apply Hascii. by rewrite is_ascii_app, fmtInt_ascii. }
    destruct (u <? 1000000).
    + cbn [String.concat]. rewrite !append_nil.
      rewrite valid_ascii_prefix by (apply fmtInt_ascii, Z.div_pos; lia).
      by rewrite valid_ascii_prefix by apply fmtFrac_ascii.
    + apply Hascii. cbn [String.concat]. rewrite !append_nil.
      rewrite !is_ascii_app, fmtFrac_ascii.
      by rewrite fmtInt_ascii by (apply Z.div_pos; lia).
  - apply Hascii. cbn [String.concat]. rewrite !append_nil.
    assert (0 <= u / 1000000000) by (apply Z.div_pos; lia).
    assert (0 <= u / 1000000000 / 60) by (apply Z.div_pos; lia).
    rewrite !is_ascii_app, fmtFrac_ascii.
    rewrite (fmtInt_ascii ((u / 1000000000) mod 60))
      by (apply Z.mod_pos_bound; lia).
    destruct (0 <? u / 1000000000 / 60 / 60);
      destruct (0 <? u / 1000000000 / 60);
      rewrite ?is_ascii_app, ?fmtInt_ascii; try done;
      try (apply Z.div_pos; lia); apply Z.mod_pos_bound; lia.
Qed.

Section config_file.
Variable ParseDuration : string -> option Z.

(** What [SaveConfig] has written, [LoadConfig] reads. *)
Lemma LoadConfig_saved (config : Config) (configPath : string)
    (fs : gmap string node) :
  ValidString (DataFile config) = true ->
  ValidString (LogFilePath config) = true ->
  ParseDuration (DurationString (AutoSaveInterval config))
    = Some (AutoSaveInterval config) ->
  fs !! configPath = Some (File (Document (marshalConfig config))) ->
  LoadConfig ParseDuration configPath fs = (fs, config, None).
Proof.
  intros Hdata Hlog Hparse Hfile.
  unfold LoadConfig, ReadFile. rewrite Hfile.
  unfold UnmarshalConfig, marshalConfig, marshalString.
  rewrite !toValidUTF8_valid by (done || apply DurationString_valid).
  cbn [unmarshalConfigMembers]. unfold unmarshalConfigMember at 1.
  change (key_is "data_file" "data_file") with true. cbv iota.
  unfold unmarshalConfigMember at 1.
  change (key_is "data_file" "auto_save_interval") with false.
  change (key_is "auto_save_interval" "auto_save_interval") with true. cbv iota.
  cbn [AutoSaveInterval DataFile LogFilePath]. rewrite Hparse.
  unfold unmarshalConfigMember at 1.
  change (key_is "data_file" "log_file_path") with false.
  change (key_is "auto_save_interval" "log_file_path") with false.
  change (key_is "log_file_path" "log_file_path") with true. cbv iota.
  cbn. by destruct config.
Qed.

End config_file.

(** [LoadConfig] starts from the defaults (the data file "todos.json", an
    interval of one minute, no log file).  When the file does not exist it
    writes the defaults there and returns them, and the next call reads
    them back from the file it wrote.  A file that cannot be read, or that
    holds no JSON, gives the defaults with an error and is left as it is;
    and a file that exists is never written. *)
Theorem LoadConfig_writes_the_defaults_once
    (ParseDuration : string -> option Z) (configPath : string)
    (fs : gmap string node) :
  (fs !! configPath = None ->
   let fs' := <[configPath := File (Document (marshalConfig DefaultConfig))]> fs in
   LoadConfig ParseDuration configPath fs = (fs', DefaultConfig, None)
   /\ (ParseDuration "1m0s" = Some Minute ->
       LoadConfig ParseDuration configPath fs' = (fs', DefaultConfig, None)))
  /\ (forall e, fs !! configPath = Some (Fails e) ->
      LoadConfig ParseDuration configPath fs
      = (fs, DefaultConfig,
         Some (if IsNotExist e then ErrCreateDefault (ErrSaveConfigFile e)
               else ErrLoadConfig e)))
  /\ (forall raw, fs !! configPath = Some (File (NotJSON raw)) ->
      LoadConfig ParseDuration configPath fs
      = (fs, DefaultConfig, Some (ErrParseConfig (DecodeJSON SyntaxError))))
  /\ (forall data, fs !! configPath = Some (File data) ->
      (LoadConfig ParseDuration configPath fs).1.1 = fs).
Proof.
  split_and!.
  - intros Hnone fs'. split.
    + unfold LoadConfig, ReadFile, SaveConfig, WriteFile. by rewrite Hnone.
    + intros Hparse. apply (LoadConfig_saved ParseDuration DefaultConfig); try done.
      unfold fs'. by rewrite lookup_insert_eq.
  - intros e He. unfold LoadConfig, ReadFile, SaveConfig, WriteFile. rewrite He.
    by destruct (IsNotExist e).
  - intros raw Hraw. unfold LoadConfig, ReadFile. by rewrite Hraw.
  - intros data Hdata. unfold LoadConfig, ReadFile. rewrite Hdata.
    by destruct (UnmarshalConfig ParseDuration data DefaultConfig) as [c [e|]].
Qed.

Lemma LoadConfig_writes_the_defaults_once_witness :
  let read := fun s : string => if String.eqb s "1m0s" then Some Minute else None in
  let fs' := <["config.json" := File (Document (marshalConfig DefaultConfig))]> ∅ in
  LoadConfig read "config.json" ∅ = (fs', DefaultConfig, None)
  /\ LoadConfig read "config.json" fs' = (fs', DefaultConfig, None).
Proof.
  intros read fs'.
  destruct (LoadConfig_writes_the_defaults_once read "config.json" ∅) as (H & _).
  destruct H as [H1 H2]; [by rewrite lookup_empty|].
  split; [exact H1 | by apply H2].
Defined.

(** What [SaveConfig] writes, [LoadConfig] reads back: the same data file,
    interval and log file, and no error, when the two paths are UTF-8 and
    [time.ParseDuration] reads the text of the interval as the interval
    (which is what the library promises of the texts that
    [Duration.String] writes). *)
Theorem SaveConfig_then_LoadConfig
    (ParseDuration : string -> option Z) (config : Config)
    (configPath : string) (fs fs' : gmap string node) :
  ValidString (DataFile config) = true ->
  ValidString (LogFilePath config) = true ->
  ParseDuration (DurationString (AutoSaveInterval config))
    = Some (AutoSaveInterval config) ->
  SaveConfig config configPath fs = (fs', None) ->
  LoadConfig ParseDuration configPath fs' = (fs', config, None).
Proof.
  intros Hdata Hlog Hparse Hsave. apply LoadConfig_saved; try done.
  unfold SaveConfig in Hsave.
  destruct (WriteFile fs configPath (Document (marshalConfig config)))
    as [fs1 [e|]] eqn:Hw; [done|].
  injection Hsave as <-. apply ReadFile_WriteFile in Hw.
  unfold ReadFile in Hw. by destruct (fs1 !! configPath) as [[data|e]|]; simplify_eq.
Qed.

Lemma SaveConfig_then_LoadConfig_witness :
  let read := fun s : string =>
    if String.eqb s "1.5s" then Some 1500000000 else None in
  let config := mkConfig "work.json" 1500000000 "todo.log" in
  LoadConfig read "config.json" (SaveConfig config "config.json" ∅).1
  = ((SaveConfig config "config.json" ∅).1, config, None).
Proof.
  intros read config.
  apply (SaveConfig_then_LoadConfig read config "config.json" ∅); reflexivity.
Defined.

(** ** What a load returns can be saved *)

Lemma foldM_keeps {A B} (P : B -> Prop) (f : A -> B -> result B)
    (l : list A) (b b' : B) :
  (forall x b b', P b -> f x b = Ok b' -> P b') ->
  P b -> foldM f l b = Ok b' -> P b'.
Proof.
  intros Hf. revert b. induction l as [|x l IH]; intros b Hb; simpl.
  - by intros [= <-].
  - destruct (f x b) as [b1|] eqn:Hx; [|done]. cbn. intros Hl.
    apply (IH b1); [by eapply Hf|done].
Qed.

Lemma mapM_Forall {A B} (P : B -> Prop) (f : A -> result B)
    (l : list A) (l' : list B) :
  (forall x y, f x = Ok y -> P y) -> mapM f l = Ok l' -> Forall P l'.
Proof.
  intros Hf. revert l'. induction l as [|x l IH]; intros l'; simpl.
  - intros [= <-]. constructor.
  - destruct (f x) as [y|] eqn:Hx; [|done]. cbn.
    destruct (mapM f l) as [ys|]; [|done]. cbn. intros [= <-].
    constructor; [by eapply Hf|by apply IH].
Qed.

Lemma take_zone_cases (s : string) (z : Z) :
  take_zone s = Some z ->
  z = 0
  \/ exists sign r h r1 r2 m r3,
       s = String sign r /\ take_digits2 r = Some (h, r1)
       /\ expect ":" r1 = Some r2 /\ take_digits2 r2 = Some (m, r3)
       /\ h <= 24 /\ m <= 60 /\ (z = 60 * h + m \/ z = - (60 * h + m)).
Proof.
  assert (Hrest : forall sign r,
    ('(h, r) ← take_digits2 r; r ← expect ":" r; '(m, r) ← take_digits2 r;
     if (h <=? 24) && (m <=? 60) && String.eqb r ""
     then if Ascii.eqb sign "+" then Some (60 * h + m)
          else if Ascii.eqb sign "-" then Some (- (60 * h + m))
          else None
     else None) = Some z ->
    exists h r1 r2 m r3,
      take_digits2 r = Some (h, r1)
      /\ expect ":" r1 = Some r2 /\ take_digits2 r2 = Some (m, r3)
      /\ h <= 24 /\ m <= 60 /\ (z = 60 * h + m \/ z = - (60 * h + m))).
  { intros sign r.
    destruct (take_digits2 r) as [[h r1]|] eqn:Hh; [|done]. cbn [mbind option_bind].
    destruct (expect ":" r1) as [r2|] eqn:Hc; [|done]. cbn [mbind option_bind].
    destruct (take_digits2 r2) as [[m r3]|] eqn:Hm; [|done]. cbn [mbind option_bind].
    destruct (_ && _) eqn:Hok; [|done].
    apply andb_prop in Hok as [[Hh'%Z.leb_le Hm'%Z.leb_le]%andb_prop _].
    intros Hz. exists h, r1, r2, m, r3. split_and!; try done.
    destruct (Ascii.eqb sign "+"); [left; congruence|].
    destruct (Ascii.eqb sign "-"); [right; congruence|done]. }
  destruct s as [|sign r]; [done|].
  destruct (String.eqb_spec (String sign r) "Z") as [[= -> ->]|Hne].
  - intros [= <-]. by left.
  - intros Hz. right. exists sign, r.
    enough (exists h r1 r2 m r3,
      take_digits2 r = Some (h, r1)
      /\ expect ":" r1 = Some r2 /\ take_digits2 r2 = Some (m, r3)
      /\ h <= 24 /\ m <= 60 /\ (z = 60 * h + m \/ z = - (60 * h + m)))
      as (h & r1 & r2 & m & r3 & ?) by (by exists h, r1, r2, m, r3).
    apply (Hrest sign). rewrite <- Hz. unfold take_zone.
    destruct sign as [[] [] [] [] [] [] [] []]; try reflexivity.
    destruct r; [done|reflexivity].
Qed.

Lemma parseRFC3339_fit (s : string) (t : Time) :
  parseRFC3339 s = Some t -> loaded_time t.
Proof.
  unfold parseRFC3339.
  destruct (take_digits4 s) as [[y s1]|] eqn:Hy; [|done]. cbn [mbind option_bind].
  destruct (expect "-" s1) as [s2|]; [|done]. cbn [mbind option_bind].
  destruct (take_digits2 s2) as [[mo s3]|]; [|done]. cbn [mbind option_bind].
  destruct (expect "-" s3) as [s4|]; [|done]. cbn [mbind option_bind].
  destruct (take_digits2 s4) as [[d s5]|]; [|done]. cbn [mbind option_bind].
  destruct (expect "T" s5) as [s6|]; [|done]. cbn [mbind option_bind].
  destruct (take_hour s6) as [[h s7]|]; [|done]. cbn [mbind option_bind].
  destruct (expect ":" s7) as [s8|]; [|done]. cbn [mbind option_bind].
  destruct (take_digits2 s8) as [[mi s9]|]; [|done]. cbn [mbind option_bind].
  destruct (expect ":" s9) as [s10|]; [|done]. cbn [mbind option_bind].
  destruct (take_digits2 s10) as [[sec s11]|]; [|done]. cbn [mbind option_bind].
  destruct (take_nanoseconds s11) as [[ns s12]|]; [|done]. cbn [mbind option_bind].
  destruct (take_zone s12) as [z|] eqn:Hz; [|done]. cbn [mbind option_bind].
  destruct (calendar_ok _) eqn:Hcal; [|done]. intros [= <-]. split; [done|].
  apply take_digits4_inv in Hy as [_ Hy]. cbn [year zone].
  apply take_zone_cases in Hz
    as [->|(sign & r & zh & r1 & r2 & zm & r3 & _ & Hzh & _ & Hzm & ? & ? & Hzz)].
  - lia.
  - apply take_digits2_inv in Hzh as [_ ?]. apply take_digits2_inv in Hzm as [_ ?].
    lia.
Qed.

Lemma unmarshalInt_fit (field : string) (v : json) (old n : Z) :
  in_int old -> unmarshalInt field v old = Ok n -> in_int n.
Proof.
  intros Hold. destruct v; simpl; try done.
  - by intros [= <-].
  - destruct (_ && _) eqn:Hn; [|done]. intros [= <-].
    apply andb_prop in Hn as [?%Z.leb_le ?%Z.leb_le]. by split.
Qed.

Lemma unmarshalTime_fit (field : string) (v : json) (old t : Time) :
  loaded_time old -> unmarshalTime field v old = Ok t -> loaded_time t.
Proof.
  intros Hold. destruct v; simpl; try done.
  - by intros [= <-].
  - destruct (parseRFC3339 s) as [t'|] eqn:Hs; [|done]. intros [= <-].
    by apply parseRFC3339_fit in Hs.
Qed.

Lemma unmarshalTodoMember_fit (m : string * json) (t t' : Todo) :
  loaded_todo t -> unmarshalTodoMember m t = Ok t' -> loaded_todo t'.
Proof.
  intros (Hid & Hcal & Hdue). destruct m as [key v].
  unfold unmarshalTodoMember.
  repeat case_match; try (intros [= <-]; by split).
  - destruct (unmarshalInt "id" v (ID t)) as [x|] eqn:Hx; [|done].
    intros [= <-]. apply unmarshalInt_fit in Hx; [|done]. by split.
  - destruct (unmarshalString "task" v (Task t)) as [x|]; [|done].
    intros [= <-]. by split.
  - destruct (unmarshalBool "completed" v (Completed t)) as [x|]; [|done].
    intros [= <-]. by split.
  - destruct (unmarshalTime "created_at" v (CreatedAt t)) as [x|] eqn:Hx; [|done].
    intros [= <-]. apply unmarshalTime_fit in Hx; [|done]. by split.
  - destruct (unmarshalString "priority" v (Priority t)) as [x|]; [|done].
    intros [= <-]. by split.
  - destruct (unmarshalTimePtr "due_date" v (DueDate t)) as [x|] eqn:Hx; [|done].
    intros [= <-].
    assert (Hx' : forall d, x = Some d -> loaded_time d).
    { intros d ->. unfold unmarshalTimePtr in Hx.
      assert (Hold : loaded_time (default zeroTime (DueDate t))).
      { destruct (DueDate t) as [d0|]; simpl; [auto|]. by vm_compute. }
      destruct v; try done;
        match type of Hx with
        | context [unmarshalTime ?f ?v ?o] =>
            destruct (unmarshalTime f v o) as [d'|] eqn:Hd; [|done];
            injection Hx as ->; by apply unmarshalTime_fit in Hd
        end. }
    by split.
  - destruct (unmarshalStrings "tags" v) as [x|]; [|done].
    intros [= <-]. by split.
Qed.

Lemma unmarshalTodo_fit (v : json) (t : Todo) :
  unmarshalTodo v zeroTodo = Ok t -> loaded_todo t.
Proof.
  assert (Hzero : loaded_todo zeroTodo).
  { split_and!; try done; by vm_compute. }
  destruct v; simpl; try done.
  - by intros [= <-].
  - apply (foldM_keeps loaded_todo); [|done].
    intros m b b'. apply unmarshalTodoMember_fit.
Qed.

Lemma unmarshalTodoList_fit (v : json) (old tl : TodoList) :
  in_int (NextID old) /\ Forall loaded_todo (todos old) ->
  unmarshalTodoList v old = Ok tl ->
  in_int (NextID tl) /\ Forall loaded_todo (todos tl).
Proof.
  intros Hold. destruct v; simpl; try done.
  - by intros [= <-].
  - apply (foldM_keeps (fun tl => in_int (NextID tl) /\ Forall loaded_todo (todos tl)));
      [|done]. clear. intros [key v] b b' [Hn Hl].
    unfold unmarshalTodoListMember. repeat case_match.
    + destruct (unmarshalTodos v) as [x|] eqn:Hx; [|done]. intros [= <-].
      split; [done|]. unfold todos. simpl.
      unfold unmarshalTodos in Hx. destruct v; try done.
      * injection Hx as <-. constructor.
      * destruct (mapM _ items) as [l|] eqn:Hl'; [|done]. injection Hx as <-.
        eapply mapM_Forall; [|exact Hl']. intros j t. apply unmarshalTodo_fit.
    + destruct (unmarshalInt "next_id" v (NextID b)) as [x|] eqn:Hx; [|done].
      intros [= <-]. apply unmarshalInt_fit in Hx; [|done]. by split.
    + intros [= <-]. by split.
Qed.

Lemma LoadFromFile_fit (filename : string) (fs : gmap string node) (tl : TodoList) :
  LoadFromFile filename fs = (Some tl, None) ->
  in_int (NextID tl) /\ Forall loaded_todo (todos tl).
Proof.
  assert (Hnew : in_int (NextID NewTodoList) /\ Forall loaded_todo (todos NewTodoList)).
  { split; [by vm_compute | constructor]. }
  unfold LoadFromFile. destruct (ReadFile fs filename) as [data|e].
  - destruct (Unmarshal data NewTodoList) as [tl'|] eqn:Hu; [|done].
    intros [= <-]. unfold Unmarshal in Hu. destruct data as [raw|doc]; [done|].
    by eapply unmarshalTodoList_fit.
  - destruct (IsNotExist e); [|done]. by intros [= <-].
Qed.

Lemma loaded_marshalable (t : Todo) :
  loaded_todo t -> marshalable_todo t <-> within_a_day t.
Proof.
  intros (_ & (_ & Hy & _) & Hdue). unfold marshalable_todo, within_a_day, marshalable.
  split.
  - intros [Hc Hd]. split.
    + rewrite !andb_true_iff, !Z.leb_le, !Z.ltb_lt in Hc. lia.
    + intros d Hdd. specialize (Hd d Hdd).
      rewrite !andb_true_iff, !Z.leb_le, !Z.ltb_lt in Hd. lia.
  - intros [Hc Hd]. split.
    + rewrite !andb_true_iff, !Z.leb_le, !Z.ltb_lt. lia.
    + intros d Hdd. destruct (Hdue d Hdd) as (_ & ? & _). specialize (Hd d Hdd).
      rewrite !andb_true_iff, !Z.leb_le, !Z.ltb_lt. lia.
Qed.

Lemma marshalTodo_fails (t : Todo) :
  ~ marshalable_todo t -> marshalTodo t = Err MarshalerError.
Proof.
  unfold marshalable_todo, marshalTodo, marshalTime. intros Hn.
  destruct (marshalable (CreatedAt t)) eqn:Hc; [|done]. cbn.
  destruct (DueDate t) as [d|]; [|by destruct Hn].
  destruct (marshalable d) eqn:Hd; [|done].
  destruct Hn. split; [done|]. by intros d' [= <-].
Qed.

Lemma marshalTodo_error (t : Todo) (e : json_error) :
  marshalTodo t = Err e -> e = MarshalerError.
Proof.
  unfold marshalTodo, marshalTime.
  destruct (marshalable (CreatedAt t)); [|by intros [= <-]]. cbn.
  destruct (DueDate t) as [d|]; [|done].
  destruct (marshalable d); [done | by intros [= <-]].
Qed.

Lemma marshalTodoList_fails (tl : TodoList) :
  ~ Forall marshalable_todo (todos tl) -> marshalTodoList tl = Err MarshalerError.
Proof.
  unfold marshalTodoList, todos. destruct (Todos tl) as [l|]; simpl;
    [|intros []; constructor].
  intros Hn. assert (mapM marshalTodo l = Err MarshalerError) as ->; [|done].
  induction l as [|t l IH]; [destruct Hn; constructor|].
  cbn [mapM]. destruct (marshalTodo t) as [j|e] eqn:Hj.
  - cbn. rewrite IH; [done|]. intros Hl. apply Hn. constructor; [|done].
    destruct (decide (marshalable (CreatedAt t) = true)) as [Hc|Hc].
    + split; [done|]. intros d Hd. unfold marshalTodo, marshalTime in Hj.
      rewrite Hc, Hd in Hj. cbn in Hj. by destruct (marshalable d).
    + unfold marshalTodo, marshalTime in Hj.
      by destruct (marshalable (CreatedAt t)).
  - apply marshalTodo_error in Hj as ->. done.
Qed.

(** Whatever the file held, a collection that [LoadFromFile] returns has
    its identifiers and its counter within [int], and time stamps that are
    readings of the calendar in the years 0..9999.  [LoadFromFile] accepts
    zones of up to 24 hours and 60 minutes, [SaveToFile] only zones within
    a day: when the zones of the collection are within a day, [SaveToFile]
    writes it wherever the path can be written, and what it wrote is loaded
    as the collection with its texts made UTF-8; when one is not,
    [SaveToFile] fails, and writes nothing. *)
Theorem loading_accepts_more_than_saving
    (filename : string) (fs : gmap string node) (tl : TodoList) :
  LoadFromFile filename fs = (Some tl, None) ->
  in_int (NextID tl) /\ Forall loaded_todo (todos tl)
  /\ (forall (name : string) (fs0 : gmap string node),
       Forall within_a_day (todos tl) ->
       (forall e, fs0 !! name <> Some (Fails e)) ->
       exists data,
         SaveToFile name tl fs0 = (<[name := File data]> fs0, None)
         /\ LoadFromFile name (<[name := File data]> fs0) = (Some (restored tl), None))
  /\ (forall (name : string) (fs0 : gmap string node),
       ~ Forall within_a_day (todos tl) ->
       SaveToFile name tl fs0 = (fs0, Some (ErrSave MarshalerError))).
Proof.
  intros [Hn Hl]%LoadFromFile_fit. split_and!; try done.
  - intros name fs0 Hday Hw.
    assert (Hm : Forall marshalable_todo (todos tl)).
    { rewrite Forall_forall in Hl, Hday. apply Forall_forall. intros t Ht.
      by apply loaded_marshalable; auto. }
    assert (Hgo : go_value tl).
    { split; [done|]. eapply Forall_impl; [exact Hl|].
      intros t (? & (? & _) & Hd). split_and!; try done.
      intros d Hdd. by destruct (Hd d Hdd). }
    destruct (marshalTodoList_succeeds tl Hm) as [j Hj].
    exists (Document j). split.
    + unfold SaveToFile, MarshalIndent. rewrite Hj. cbn. unfold WriteFile.
      destruct (fs0 !! name) as [[old|e]|] eqn:Hf; try done. by destruct (Hw e).
    + unfold LoadFromFile, ReadFile, Unmarshal. rewrite lookup_insert_eq.
      destruct (restored_fit tl Hgo) as [Hgo' Hutf'].
      rewrite <- marshalTodoList_restored in Hj.
      by rewrite (unmarshal_marshal (restored tl) j NewTodoList).
  - intros name fs0 Hday. unfold SaveToFile, MarshalIndent.
    rewrite marshalTodoList_fails; [done|]. intros Hm. apply Hday.
    rewrite Forall_forall in Hl, Hm. apply Forall_forall. intros t Ht.
    by apply loaded_marshalable; auto.
Qed.

(** A file whose record was created in a zone 24 hours east of UTC is
    loaded; the collection cannot be saved. *)
Lemma loading_accepts_more_than_saving_witness :
  let doc := JObject [("todos", JArray [JObject
                 [("id", JInt 7); ("task", JString "water the plants");
                  ("created_at", JString "2024-05-01T09:30:00+24:00")]]);
               ("next_id", JInt 3)] in
  let fs : gmap string node := {["todos.json" := File (Document doc)]} in
  let tl := mkTodoList
              (Some [mkTodo 7 "water the plants" false
                       (mkTime 2024 5 1 9 30 0 0 1440) "" None None]) 3 in
  LoadFromFile "todos.json" fs = (Some tl, None)
  /\ SaveToFile "todos.json" tl fs = (fs, Some (ErrSave MarshalerError)).
Proof.
  intros doc fs tl.
  assert (Hload : LoadFromFile "todos.json" fs = (Some tl, None)) by reflexivity.
  split; [exact Hload|].
  destruct (loading_accepts_more_than_saving "todos.json" fs tl Hload) as (_ & _ & _ & H).
  apply H. intros Hday. apply Forall_cons in Hday as [[Hz _] _]. simpl in Hz. lia.
Defined.

(** ** The answer to a confirmation *)

Lemma isSpace_lower (c : ascii) : isSpace (lower_byte c) = isSpace c.
Proof. by destruct c as [[] [] [] [] [] [] [] []]. Qed.

Lemma lower_byte_y (c : ascii) :
  lower_byte c = "y"%char <-> c = "y"%char \/ c = "Y"%char.
Proof.
  split; [|by intros [-> | ->]].
  destruct c as [[] [] [] [] [] [] [] []]; vm_compute; intros H;
    first [discriminate H | by left | by right].
Qed.

Lemma ToLower_app (a b : string) : ToLower (a +:+ b) = ToLower a +:+ ToLower b.
Proof.
  induction a as [|c a IH]; [done|].
  rewrite append_cons. simpl. by rewrite IH.
Qed.

Lemma flush_lower (field : string) : flush (ToLower field) = ToLower <$> flush field.
Proof. by destruct field. Qed.

Lemma fields_loop_lower (s field : string) :
  fields_loop (ToLower s) (ToLower field) = ToLower <$> fields_loop s field.
Proof.
  revert field. induction s as [|c s IH]; intros field.
  - apply flush_lower.
  - cbn [ToLower]. rewrite !fields_loop_cons, isSpace_lower.
    destruct (isSpace c).
    + rewrite fmap_app, <- (IH ""), flush_lower. done.
    + rewrite <- IH, ToLower_app. done.
Qed.

Lemma Fields_lower (s : string) : Fields (ToLower s) = ToLower <$> Fields s.
Proof. apply (fields_loop_lower s ""). Qed.

Lemma fields_loop_ne (s field : string) : field <> "" -> fields_loop s field <> [].
Proof.
  revert field. induction s as [|c s IH]; intros field Hf.
  - by rewrite fields_loop_nil, flush_ne.
  - rewrite fields_loop_cons. destruct (isSpace c).
    + by rewrite flush_ne.
    + apply IH, append_snoc_ne.
Qed.

Lemma fields_blank (s : string) : fields_loop s "" = [] -> trim_right s = "".
Proof.
  induction s as [|c s IH]; [done|].
  rewrite fields_loop_cons. destruct (isSpace c) eqn:Hc.
  - intros Hs. simpl in Hs. simpl. by rewrite IH, Hc.
  - intros Hs. by apply fields_loop_ne in Hs; [|apply append_snoc_ne].
Qed.

Lemma fields_loop_single (s field w : string) :
  field <> "" -> fields_loop s field = [w] -> field +:+ trim_right s = w.
Proof.
  revert field. induction s as [|c s IH]; intros field Hf.
  - rewrite fields_loop_nil, flush_ne by done. intros [= <-]. apply append_nil_r.
  - rewrite fields_loop_cons. destruct (isSpace c) eqn:Hc.
    + rewrite flush_ne by done. intros [= <- Hs]. simpl.
      rewrite (fields_blank s Hs), Hc. apply append_nil_r.
    + intros Hs. apply IH in Hs; [|apply append_snoc_ne].
      rewrite <- Hs, append_assoc. f_equal. simpl.
      rewrite Hc. by destruct (trim_right s).
Qed.

(** A text of one word is that word between white space. *)
Lemma Fields_single (s w : string) : Fields s = [w] -> TrimSpace s = w.
Proof.
  unfold TrimSpace. rewrite <- (trim_left_fields s).
  induction s as [|c s IH]; [done|]. simpl.
  destruct (isSpace c) eqn:Hc; [done|].
  unfold Fields. rewrite fields_loop_cons, Hc. intros Hs.
  apply fields_loop_single in Hs; [|apply append_snoc_ne].
  rewrite <- Hs. simpl. rewrite Hc. by destruct (trim_right s).
Qed.

Lemma ToLower_y (w : string) : ToLower w = "y" <-> w = "y" \/ w = "Y".
Proof.
  split; [|by intros [-> | ->]].
  destruct w as [|c [|c' r]]; try done. simpl. intros [= Hc].
  apply lower_byte_y in Hc as [-> | ->]; [by left | by right].
Qed.

Lemma getConfirmation_y (input : string) :
  getConfirmation input = true <-> Fields input = ["y"] \/ Fields input = ["Y"].
Proof.
  unfold getConfirmation. rewrite String.eqb_eq. split.
  - intros Hy. pose proof (Fields_TrimSpace (ToLower input)) as Hf.
    rewrite Hy, Fields_lower in Hf.
    destruct (Fields input) as [|w [|w' ws]]; try done.
    injection Hf as Hw. symmetry in Hw.
    apply ToLower_y in Hw as [-> | ->]; [by left | by right].
  - intros Hf. apply Fields_single. rewrite Fields_lower.
    by destruct Hf as [-> | ->].
Qed.

Lemma readCommand_confirm (line : string) (now : Time) (c : bool -> command) :
  readCommand line now = Confirm c ->
  c = CmdClearCompleted \/ exists id, c = CmdDelete id.
Proof.
  unfold readCommand, with_id.
  destruct (Fields (TrimSpace line)) as [|word parts]; [done|]. cbv zeta.
  repeat case_match; try done; intros [= <-]; eauto.
Qed.

(** At the prompt, "delete <id>" and "clear-completed" go ahead exactly
    when the line read after them is the one word y or Y, white space
    aside.  After every other answer ("yes", an empty line, the end of the
    input) the loop goes on with the collection and the undo record as they
    were, having printed one message. *)
Theorem only_y_confirms (fuel : nat) (clock : nat -> Time) (turn : nat)
    (w : world) (line answer : string) (stdin rest : list string) :
  asks line -> ReadString stdin = (answer, rest) -> is_ascii answer = true ->
  (getConfirmation answer = true <-> Fields answer = ["y"] \/ Fields answer = ["Y"])
  /\ (getConfirmation answer = false ->
      exists m,
        runInteractiveMode (S fuel) clock turn w (line :: stdin)
        = runInteractiveMode fuel clock (S turn) (say m w) rest).
Proof.
  intros Hask Hread _. split; [apply getConfirmation_y|]. intros Hno.
  apply (readCommand_asks line (clock turn)) in Hask as [c Hc].
  cbn [runInteractiveMode ReadString]. rewrite Hc, Hread, Hno.
  apply readCommand_confirm in Hc as [-> | [id ->]]; by eexists.
Qed.

Lemma only_y_confirms_witness :
  getConfirmation "yes" = false
  /\ exists m,
       runInteractiveMode 3 (fun _ => morning) 0 (initial three_tasks)
         ["delete 2"; "yes"; "exit"]
       = runInteractiveMode 2 (fun _ => morning) 1 (say m (initial three_tasks))
           ["exit"].
Proof.
  destruct (only_y_confirms 2 (fun _ => morning) 0 (initial three_tasks)
              "delete 2" "yes" ["yes"; "exit"] ["exit"]) as [Hy Hgo].
  - by exists (CmdDelete 2).
  - reflexivity.
  - reflexivity.
  - assert (Hno : getConfirmation "yes" = false).
    { apply not_true_is_false. intros Hyes.
      apply Hy in Hyes as [Hf | Hf]; vm_compute in Hf; discriminate Hf. }
    split; [exact Hno|]. by apply Hgo.
Defined.

(** ** What a listing prints *)

Lemma ListWith_elem sort_Slice (o : ListOptions) (tl : TodoList) (t : Todo) :
  sorts sort_Slice ->
  t ∈ ListWith sort_Slice o tl <-> t ∈ todos tl /\ passes o t.
Proof.
  intros Hsort. rewrite (ListWith_kept sort_Slice o tl Hsort).
  unfold kept. rewrite list_elem_of_filter, keep_passes. tauto.
Qed.

Lemma append_snoc_inj (a b : string) (c : ascii) :
  a +:+ String c "" = b +:+ String c "" -> a = b.
Proof.
  revert b. induction a as [|x a IH]; intros [|y b]; try done.
  - rewrite append_nil, append_cons. intros [= _ H].
    symmetry in H. by apply append_snoc_ne in H.
  - rewrite append_nil, append_cons. intros [= _ H]. by apply append_snoc_ne in H.
  - rewrite !append_cons. intros [= -> H]. f_equal. by apply IH.
Qed.

(** Two texts that begin with the same word begin with the same bytes. *)
Lemma word_prefix_eq (w1 w2 r1 r2 : string) :
  no_space w1 = true -> no_space w2 = true ->
  w1 +:+ String " " r1 = w2 +:+ String " " r2 -> w1 = w2.
Proof.
  revert w2. induction w1 as [|c w1 IH]; intros [|c' w2]; simpl; try done.
  - intros _ H. rewrite append_nil, append_cons. intros [= <- _].
    by apply andb_prop in H as [? _].
  - intros H _. rewrite append_nil, append_cons. intros [= -> _].
    by apply andb_prop in H as [? _].
  - intros [_ H1]%andb_prop [_ H2]%andb_prop. rewrite !append_cons.
    intros [= -> H]. f_equal. by apply IH.
Qed.

Lemma Itoa_inj (n1 n2 : Z) : in_int n1 -> in_int n2 -> Itoa n1 = Itoa n2 -> n1 = n2.
Proof.
  intros H1%Atoi_Itoa H2%Atoi_Itoa Heq. rewrite Heq in H1. congruence.
Qed.

(** The line of a record begins with the box, a space, the identifier in
    decimal, a full stop and a space. *)
Lemma todoLine_head (t : Todo) :
  exists rest,
    todoLine t
    = (if Completed t then "[x]" else "[ ]")
      +:+ String " " ((Itoa (ID t) +:+ String "." "") +:+ String " " rest).
Proof.
  unfold todoLine. cbv zeta.
  generalize (Itoa (ID t)) (formatMinute (CreatedAt t)).
  generalize (if negb (String.eqb (Priority t) "")
              then String.concat "" [" (Priority: "; Title (Priority t); ")"]
              else "").
  generalize (match DueDate t with
              | Some d => String.concat "" [" (Due: "; formatDate d; ")"]
              | None => ""
              end).
  generalize (if (0 <? length (elems (Tags t)))%nat
              then String.concat "" [" [Tags: "; Join (elems (Tags t)) ", "; "]"]
              else "").
  intros tags due priority i created.
  exists (String.concat "" [Task t; priority; due; tags; " (Created: "; created; ")"]).
  etrans; [apply (concat_empty_app [_; _; _; _] [_; _; _; _; _; _; _])|].
  generalize (String.concat "" [Task t; priority; due; tags; " (Created: "; created; ")"]).
  intros rest.
  change (String.concat "" [if Completed t then "[x]" else "[ ]"; " "; i; ". "])
    with ((if Completed t then "[x]" else "[ ]") +:+ "" +:+ " " +:+ "" +:+ i +:+ "" +:+ ". ").
  rewrite !append_nil, !append_assoc, !append_cons, !append_nil. done.
Qed.

Lemma todoLine_same (t1 t2 : Todo) :
  in_int (ID t1) -> in_int (ID t2) -> todoLine t1 = todoLine t2 ->
  ID t1 = ID t2 /\ Completed t1 = Completed t2.
Proof.
  intros Hi1 Hi2.
  destruct (todoLine_head t1) as [r1 ->], (todoLine_head t2) as [r2 ->].
  assert (Hw : forall n, no_space (Itoa n +:+ String "." "") = true).
  { intros n. rewrite no_space_app. by destruct (Itoa_word n) as [_ ->]. }
  pose proof (Hw (ID t1)) as Hw1. pose proof (Hw (ID t2)) as Hw2.
  assert (Hid : Itoa (ID t1) +:+ String "." "" = Itoa (ID t2) +:+ String "." ""
                -> ID t1 = ID t2).
  { intros H%append_snoc_inj. by apply Itoa_inj. }
  revert Hw1 Hw2 Hid.
  generalize (Itoa (ID t1) +:+ String "." "") (Itoa (ID t2) +:+ String "." "").
  intros w1 w2 Hw1 Hw2 Hid Heq.
  destruct (Completed t1), (Completed t2);
    rewrite !append_cons, !append_nil in Heq; injection Heq as Heq;
    split; try done; by apply Hid, (word_prefix_eq w1 w2 r1 r2).
Qed.

(** [List] reports that nothing was found exactly when no record of the
    collection passes the filters; otherwise the lines it prints after
    the heading are the lines of the records that pass.  A line shows
    which record it is of: two records with the same line have the same
    identifier and the same completion flag.  (Whatever sort function
    keeps the promise of [sort.Slice]; the filters and the tags are
    ASCII.) *)
Theorem listing_lines_identify_records
    (sort_Slice : (Todo -> Todo -> bool) -> list Todo -> list Todo)
    (o : ListOptions) (tl : TodoList) :
  sorts sort_Slice -> ascii_options o -> Forall ascii_todo (todos tl) ->
  let shown := ListWith sort_Slice o tl in
  (printTodos shown = [NoTodosFound]
   <-> Forall (fun t => ~ passes o t) (todos tl))
  /\ (forall line,
        TodoLine line ∈ printTodos shown
        <-> exists t, t ∈ todos tl /\ passes o t /\ line = todoLine t)
  /\ (forall t1 t2,
        in_int (ID t1) -> in_int (ID t2) -> todoLine t1 = todoLine t2 ->
        ID t1 = ID t2 /\ Completed t1 = Completed t2).
Proof.
  intros Hsort _ _ shown.
  assert (Helem : forall t, t ∈ shown <-> t ∈ todos tl /\ passes o t)
    by (intros t; by apply ListWith_elem).
  split_and!.
  - unfold printTodos. destruct shown as [|t l] eqn:Hl; simpl.
    + split; [intros _|done]. apply Forall_forall. intros t Ht Hp.
      assert (Hin : t ∈ @nil Todo) by (by apply Helem).
      by apply elem_of_nil in Hin.
    + split; [done|]. intros Hno. exfalso.
      assert (Hin : t ∈ t :: l) by left.
      apply Helem in Hin as [Hin Hp].
      rewrite Forall_forall in Hno. by apply (Hno t).
  - intros line. unfold printTodos.
    destruct (length shown =? 0)%nat eqn:Hlen.
    + apply Nat.eqb_eq in Hlen. apply nil_length_inv in Hlen.
      split.
      * intros [=]%list_elem_of_singleton.
      * intros (t & Hin & Hp & _).
        assert (Ht : t ∈ shown) by (by apply Helem).
        rewrite Hlen in Ht. by apply elem_of_nil in Ht.
    + rewrite elem_of_cons, list_elem_of_fmap. split.
      * intros [[=]|(t & [= ->] & Hin)]. apply Helem in Hin as [? ?].
        by exists t.
      * intros (t & Hin & Hp & ->). right. exists t. split; [done|].
        by apply Helem.
  - apply todoLine_same.
Qed.

Lemma listing_lines_identify_records_witness :
  let later := mkTodo 2 "Task 2" false (mkTime 2024 1 1 9 0 30 0 0)
                 PriorityMedium None (Some []) in
  todoLine (plain 2 "Task 2") = "[ ] 2. Task 2 (Priority: Medium) (Created: 2024-01-01 09:00)"
  /\ todoLine later = todoLine (plain 2 "Task 2")
  /\ ID later = 2 /\ Completed later = false.
Proof.
  intros later.
  assert (Heq : todoLine later = todoLine (plain 2 "Task 2")) by reflexivity.
  split; [reflexivity|]. split; [exact Heq|].
  destruct (listing_lines_identify_records sortSlice by_id three_tasks)
    as (_ & _ & H);
    [apply sortSlice_sorts | split; [reflexivity | constructor] | repeat constructor|].
  apply (H later (plain 2 "Task 2")); [by vm_compute | by vm_compute | exact Heq].
Defined.
